(** * The CEX.IO Exchange Plus WebSocket client: session and correlation registry

    A shallow embedding of [lib/websocket.js] (class [WebsocketClient]) and
    the properties its specification states about it, followed by further
    properties of the class and of the parts of [src/rest.ts] (class
    [RestClient]) that do not talk to the network.

    Conventions of the embedding.
    - The object's private fields are the first ten fields of [state]; the
      rest of [state] is the part of the JavaScript runtime the class talks
      to: the sockets it opened, the promises it created, the timers it
      armed and the chronological list of effects it caused.
    - One call of [step] is one macrotask: a call of a public method, or one
      callback of the transport or of the timer queue.  Continuations of
      [await] run before the next macrotask, so they are run at the end of
      the step that settles the awaited promise.
    - [waitForResp], [waitTimers] and [handlers] are plain objects used as
      dictionaries; they are modelled by their own properties (what a key
      would find on [Object.prototype] is outside the model).
      [waitForResp] is enumerated with [Object.keys], so it keeps insertion
      order: its keys are the ids made by [#callRequest], which contain an
      underscore and so are never array indices.  The other two are only
      read and written by key.
    - Frames are modelled at the decoded level: what [JSON.stringify]
      receives and what [JSON.parse] returns.  A text that [JSON.parse]
      rejects is the input [Throw].
    - Caller-supplied functions (event callbacks, [onClose], [onError], the
      log sink) are opaque: calling one is recorded as an effect. *)

From stdpp Require Import gmap strings list fin_maps pretty.
From Stdlib Require Import ZArith Lia.

Open Scope Z_scope.

(* ===================================================================== *)
(** ** JavaScript values                                                  *)
(* ===================================================================== *)

(** A number with a finite decimal expansion, [mant / 10^scale].  Every
    JSON literal without exponent is one, and so is [Date.now() / 1000]. *)
Record number := Num { mant : Z; scale : nat }.

(** Values of JSON frames, the objects the class builds, and [Error]
    objects.  [VObj props] lists an object's own properties, each key once. *)
#[warnings="-register-all"]
Inductive value : Type :=
| VUndefined
| VNull
| VBool (b : bool)
| VNum (n : number)
| VStr (s : string)
| VArr (items : list value)
| VObj (props : list (string * value))
| VError (name msg : string).

Definition VInt (n : Z) : value := VNum (Num n 0).

(** The outcome of running a piece of JavaScript: a value or a throw. *)
Inductive result (A : Type) : Type :=
| Ok (a : A)
| Throw (v : value).
Arguments Ok {A} a.
Arguments Throw {A} v.

Definition TypeError (msg : string) : value := VError "TypeError" msg.
Definition Error (msg : string) : value := VError "Error" msg.

(** Drops the trailing zeros of the fraction: [(1500, 3)] becomes [(15, 1)]. *)
Fixpoint normalise (k : nat) (m : Z) : Z * nat :=
  match k with
  | O => (m, O)
  | S k' => if m mod 10 =? 0 then normalise k' (m / 10) else (m, k)
  end.

Fixpoint pad_zeros (k : nat) (s : string) : string :=
  match k with
  | O => s
  | S k' => pad_zeros k' ("0" +:+ s)
  end.

(** [Number.prototype.toString] on a decimal of at most fifteen significant
    digits: the digits themselves, without trailing zeros. *)
Definition Number_toString (x : number) : string :=
  let '(m, k) := normalise (scale x) (mant x) in
  match k with
  | O => pretty m
  | S _ =>
      let p := 10 ^ Z.of_nat k in
      let a := Z.abs m in
      let frac := pretty (a mod p) in
      (if m <? 0 then "-" else EmptyString) +:+ pretty (a / p) +:+ "." +:+
      pad_zeros (k - String.length frac) frac
  end.

(** [ToString], as used by template literals and by property keys. *)
Fixpoint ToString (v : value) : string :=
  match v with
  | VUndefined => "undefined"
  | VNull => "null"
  | VBool true => "true"
  | VBool false => "false"
  | VNum n => Number_toString n
  | VStr s => s
  | VArr items =>
      String.concat ","
        (List.map (fun x => match x with
                            | VUndefined | VNull => EmptyString
                            | _ => ToString x
                            end) items)
  | VObj _ => "[object Object]"
  | VError name msg => if String.eqb msg EmptyString then name else name +:+ ": " +:+ msg
  end.

(** [ToBoolean]. *)
Definition truthy (v : value) : bool :=
  match v with
  | VUndefined | VNull => false
  | VBool b => b
  | VNum n => negb (mant n =? 0)
  | VStr s => negb (String.eqb s EmptyString)
  | VArr _ | VObj _ | VError _ _ => true
  end.

(** [v === 'literal']. *)
Definition strict_eq_str (v : value) (s : string) : bool :=
  match v with
  | VStr s' => String.eqb s' s
  | _ => false
  end.

(** An object's own properties, in insertion order. *)
Fixpoint obj_get {A} (o : list (string * A)) (k : string) : option A :=
  match o with
  | [] => None
  | (k', a) :: o' => if String.eqb k' k then Some a else obj_get o' k
  end.

Fixpoint obj_set {A} (o : list (string * A)) (k : string) (a : A)
  : list (string * A) :=
  match o with
  | [] => [(k, a)]
  | (k', a') :: o' =>
      if String.eqb k' k then (k', a) :: o' else (k', a') :: obj_set o' k a
  end.

Fixpoint obj_delete {A} (o : list (string * A)) (k : string)
  : list (string * A) :=
  match o with
  | [] => []
  | (k', a') :: o' =>
      if String.eqb k' k then obj_delete o' k else (k', a') :: obj_delete o' k
  end.

Definition Object_keys {A} (o : list (string * A)) : list string := o.*1.

(** [v.k] for the keys this program reads ([e], [oid], [ok], [data],
    [error]): reading from [undefined] or [null] throws, an object yields
    its own property, every other value yields [undefined]. *)
Definition getProp (v : value) (k : string) : result value :=
  match v with
  | VUndefined =>
      Throw (TypeError ("Cannot read properties of undefined (reading '" +:+ k +:+ "')"))
  | VNull =>
      Throw (TypeError ("Cannot read properties of null (reading '" +:+ k +:+ "')"))
  | VObj props => Ok (default VUndefined (obj_get props k))
  | _ => Ok VUndefined
  end.

(** [s.endsWith(suffix)]. *)
Definition endsWith (s suffix : string) : bool :=
  let n := String.length s in
  let m := String.length suffix in
  if (m <=? n)%nat then String.eqb (String.substring (n - m) m s) suffix else false.

(* ===================================================================== *)
(** ** The client object and the runtime around it                        *)
(* ===================================================================== *)

(** [WebSocketOptions], after the constructor has filled in the defaults.
    [log = None] is the default sink [() => {}]. *)
Record WebSocketOptions := {
  log : option nat;
  wsReplyTimeout : Z;
  rejectUnauthorized : bool;
  host : string;
  apiUrl : string;
  apiUrlPublic : string
}.

(** The options object a caller passes: every property is optional. *)
Record PartialOptions := {
  opt_log : option nat;
  opt_wsReplyTimeout : option Z;
  opt_rejectUnauthorized : option bool;
  opt_host : option string;
  opt_apiUrl : option string;
  opt_apiUrlPublic : option string
}.

(** What the documented signature lets a caller pass in an argument
    position: nothing, a string (a credential) or an options object. *)
Inductive arg :=
| ArgUndefined
| ArgString (s : string)
| ArgOptions (o : PartialOptions).

Inductive readyState := CONNECTING | OPEN | CLOSING | CLOSED.

(** A [ws] socket with the closure its listeners share: the [resolve] and
    [reject] of the [connect()] promise and the two optional callbacks. *)
Record WebSocket := {
  url : string;
  tls_rejectUnauthorized : bool;
  ready : readyState;
  connecting : nat;
  onClose : option nat;
  onError : option nat
}.

Inductive outcome :=
| Pending
| Fulfilled (v : value)
| Rejected (v : value).

(** Promises by allocation site: the deferreds of [#getDefer], the promises
    of [connect()], the promises of [#auth()]. *)
Inductive pref :=
| DeferP (d : nat)
| ConnectP (c : nat)
| AuthP (a : nat).

(** Entries of [#handlers]: the closures the class installs itself, or a
    caller's callback. *)
Inductive handler :=
| HDisconnected
| HConnected (c : nat)
| HAuth (a : nat)
| HUser (f : nat).

(** The callbacks handed to [socket.send]. *)
Inductive send_callback :=
| AuthSendCb (a : nat)
| RequestSendCb (oid : string).

(** A timer created by [setTimeout(() => this.#cancelOidReply(oid, ...), ms)]. *)
Record timeout := {
  timeout_oid : string;
  timeout_ms : Z;
  armed : bool
}.

Inductive effect :=
| FxLog (sink : option nat) (args : list value)
| FxOpen (s : nat) (endpoint : string)
| FxSend (s : nat) (data : value) (cb : option send_callback)
| FxCloseSocket (s : nat)
| FxSetTimeout (t : nat) (oid : string) (ms : Z)
| FxClearTimeout (t : option nat)
| FxResolve (p : pref) (v : value)
| FxReject (p : pref) (v : value)
| FxCall (f : nat) (args : list value).

Record state := State {
  (* private fields of WebsocketClient *)
  apiKey : arg;
  apiSecret : arg;
  oidSeqId : Z;
  handlers : gmap string handler;
  waitForResp : list (string * nat);
  waitTimers : gmap string nat;
  isAuthorized : bool;
  isPublicClient : bool;
  options : WebSocketOptions;
  socket : option nat;
  (* the runtime *)
  sockets : list WebSocket;
  defers : list outcome;
  connects : list outcome;
  auths : list outcome;
  awaiting : gmap nat nat;
  timeouts : list timeout;
  effects : list effect
}.

Definition set_oidSeqId (x : Z) (st : state) : state :=
  State (apiKey st) (apiSecret st) x (handlers st) (waitForResp st)
    (waitTimers st) (isAuthorized st) (isPublicClient st) (options st)
    (socket st) (sockets st) (defers st) (connects st) (auths st)
    (awaiting st) (timeouts st) (effects st).

Definition set_handlers (x : gmap string handler) (st : state) : state :=
  State (apiKey st) (apiSecret st) (oidSeqId st) x (waitForResp st)
    (waitTimers st) (isAuthorized st) (isPublicClient st) (options st)
    (socket st) (sockets st) (defers st) (connects st) (auths st)
    (awaiting st) (timeouts st) (effects st).

Definition set_waitForResp (x : list (string * nat)) (st : state) : state :=
  State (apiKey st) (apiSecret st) (oidSeqId st) (handlers st) x
    (waitTimers st) (isAuthorized st) (isPublicClient st) (options st)
    (socket st) (sockets st) (defers st) (connects st) (auths st)
    (awaiting st) (timeouts st) (effects st).

Definition set_waitTimers (x : gmap string nat) (st : state) : state :=
  State (apiKey st) (apiSecret st) (oidSeqId st) (handlers st) (waitForResp st)
    x (isAuthorized st) (isPublicClient st) (options st)
    (socket st) (sockets st) (defers st) (connects st) (auths st)
    (awaiting st) (timeouts st) (effects st).

Definition set_isAuthorized (x : bool) (st : state) : state :=
  State (apiKey st) (apiSecret st) (oidSeqId st) (handlers st) (waitForResp st)
    (waitTimers st) x (isPublicClient st) (options st)
    (socket st) (sockets st) (defers st) (connects st) (auths st)
    (awaiting st) (timeouts st) (effects st).

Definition set_socket (x : option nat) (st : state) : state :=
  State (apiKey st) (apiSecret st) (oidSeqId st) (handlers st) (waitForResp st)
    (waitTimers st) (isAuthorized st) (isPublicClient st) (options st)
    x (sockets st) (defers st) (connects st) (auths st)
    (awaiting st) (timeouts st) (effects st).

Definition set_sockets (x : list WebSocket) (st : state) : state :=
  State (apiKey st) (apiSecret st) (oidSeqId st) (handlers st) (waitForResp st)
    (waitTimers st) (isAuthorized st) (isPublicClient st) (options st)
    (socket st) x (defers st) (connects st) (auths st)
    (awaiting st) (timeouts st) (effects st).

Definition set_defers (x : list outcome) (st : state) : state :=
  State (apiKey st) (apiSecret st) (oidSeqId st) (handlers st) (waitForResp st)
    (waitTimers st) (isAuthorized st) (isPublicClient st) (options st)
    (socket st) (sockets st) x (connects st) (auths st)
    (awaiting st) (timeouts st) (effects st).

Definition set_connects (x : list outcome) (st : state) : state :=
  State (apiKey st) (apiSecret st) (oidSeqId st) (handlers st) (waitForResp st)
    (waitTimers st) (isAuthorized st) (isPublicClient st) (options st)
    (socket st) (sockets st) (defers st) x (auths st)
    (awaiting st) (timeouts st) (effects st).

Definition set_auths (x : list outcome) (st : state) : state :=
  State (apiKey st) (apiSecret st) (oidSeqId st) (handlers st) (waitForResp st)
    (waitTimers st) (isAuthorized st) (isPublicClient st) (options st)
    (socket st) (sockets st) (defers st) (connects st) x
    (awaiting st) (timeouts st) (effects st).

Definition set_awaiting (x : gmap nat nat) (st : state) : state :=
  State (apiKey st) (apiSecret st) (oidSeqId st) (handlers st) (waitForResp st)
    (waitTimers st) (isAuthorized st) (isPublicClient st) (options st)
    (socket st) (sockets st) (defers st) (connects st) (auths st)
    x (timeouts st) (effects st).

Definition set_timeouts (x : list timeout) (st : state) : state :=
  State (apiKey st) (apiSecret st) (oidSeqId st) (handlers st) (waitForResp st)
    (waitTimers st) (isAuthorized st) (isPublicClient st) (options st)
    (socket st) (sockets st) (defers st) (connects st) (auths st)
    (awaiting st) x (effects st).

Definition set_effects (x : list effect) (st : state) : state :=
  State (apiKey st) (apiSecret st) (oidSeqId st) (handlers st) (waitForResp st)
    (waitTimers st) (isAuthorized st) (isPublicClient st) (options st)
    (socket st) (sockets st) (defers st) (connects st) (auths st)
    (awaiting st) (timeouts st) x.

(** What the environment decides during one macrotask: the clock reading of
    [Date.now()], and whether the transport calls the callback of
    [socket.send] before [send] returns (with its error argument) or later. *)
Inductive send_result :=
| CallbackLater
| CallbackNow (err : value).

Record env := {
  now : Z;
  transport_send : send_result
}.

(** HMAC-SHA256 is Node's [crypto] module. *)
Class Crypto := {
  hmac_sha256_hex : string → string → string
}.

(* ===================================================================== *)
(** ** A state-and-exception monad for method bodies                      *)
(* ===================================================================== *)

Definition M (A : Type) : Type := env → state → state * result A.

Definition ret {A} (a : A) : M A := fun _ st => (st, Ok a).

Definition throw {A} (v : value) : M A := fun _ st => (st, Throw v).

Definition bind {A B} (m : M A) (k : A → M B) : M B :=
  fun e st =>
    match m e st with
    | (st', Ok a) => k a e st'
    | (st', Throw v) => (st', Throw v)
    end.

Definition get : M state := fun _ st => (st, Ok st).

Definition ask : M env := fun e st => (st, Ok e).

Definition modify (f : state → state) : M unit := fun _ st => (f st, Ok tt).

Definition lift {A} (r : result A) : M A := fun _ st => (st, r).

(** [try { m } catch (err) { h err }]. *)
Definition try_catch {A} (m : M A) (h : value → M A) : M A :=
  fun e st =>
    match m e st with
    | (st', Ok a) => (st', Ok a)
    | (st', Throw v) => h v e st'
    end.

Declare Scope js_scope.
Delimit Scope js_scope with js.
Notation "'let!' x ':=' m 'in' k" := (bind m (fun x => k))
  (at level 10, x name, m at level 100, k at level 200) : js_scope.
Notation "m '>>' k" := (bind m (fun _ => k))
  (at level 100, k at level 200, right associativity) : js_scope.
Open Scope js_scope.

Fixpoint forEach {A} (l : list A) (body : A → M unit) : M unit :=
  match l with
  | [] => ret tt
  | a :: l' => body a >> forEach l' body
  end.

Definition fx (x : effect) : M unit :=
  modify (fun st => set_effects (effects st ++ [x]) st).

(* ===================================================================== *)
(** ** Promises, timers and the transport                                 *)
(* ===================================================================== *)

Definition promise (r : pref) (st : state) : option outcome :=
  match r with
  | DeferP d => defers st !! d
  | ConnectP c => connects st !! c
  | AuthP a => auths st !! a
  end.

Definition set_promise (r : pref) (o : outcome) (st : state) : state :=
  match r with
  | DeferP d => set_defers (<[d:=o]> (defers st)) st
  | ConnectP c => set_connects (<[c:=o]> (connects st)) st
  | AuthP a => set_auths (<[a:=o]> (auths st)) st
  end.

(** A promise is settled once: later calls of its [resolve] or [reject]
    change nothing.  Returns whether this call settled it. *)
Definition settle_once (r : pref) (o : outcome) : M bool :=
  let! st := get in
  match promise r st with
  | Some Pending => modify (set_promise r o) >> ret true
  | _ => ret false
  end.

(** The rest of the ['connected'] handler after [await this.#auth()]:
    [resolve()] when the awaited promise is fulfilled, [reject(err)] from
    the [catch] clause when it is rejected. *)
Definition resume (a : nat) : M unit :=
  let! st := get in
  match awaiting st !! a, auths st !! a with
  | Some c, Some (Fulfilled _) =>
      fx (FxResolve (ConnectP c) VUndefined) >>
      settle_once (ConnectP c) (Fulfilled VUndefined) >> ret tt
  | Some c, Some (Rejected err) =>
      fx (FxReject (ConnectP c) err) >>
      settle_once (ConnectP c) (Rejected err) >> ret tt
  | _, _ => ret tt
  end.

Definition settle (r : pref) (o : outcome) : M unit :=
  let! settled := settle_once r o in
  match r with
  | AuthP a => if settled then resume a else ret tt
  | _ => ret tt
  end.

Definition resolve (r : pref) (v : value) : M unit :=
  fx (FxResolve r v) >> settle r (Fulfilled v).

Definition reject (r : pref) (v : value) : M unit :=
  fx (FxReject r v) >> settle r (Rejected v).

Definition await_auth (a c : nat) : M unit :=
  modify (fun st => set_awaiting (<[a:=c]> (awaiting st)) st) >>
  let! st := get in
  match auths st !! a with
  | Some (Fulfilled _) | Some (Rejected _) => resume a
  | _ => ret tt
  end.

Definition disarm (t : timeout) : timeout :=
  {| timeout_oid := timeout_oid t; timeout_ms := timeout_ms t; armed := false |}.

Definition setTimeout (oid : string) (ms : Z) : M nat :=
  let! st := get in
  let t := length (timeouts st) in
  modify (fun st =>
    set_timeouts
      (timeouts st ++ [{| timeout_oid := oid; timeout_ms := ms; armed := true |}])
      st) >>
  fx (FxSetTimeout t oid ms) >>
  ret t.

(** [clearTimeout(undefined)] is allowed and does nothing. *)
Definition clearTimeout (h : option nat) : M unit :=
  fx (FxClearTimeout h) >>
  match h with
  | Some t => modify (fun st => set_timeouts (alter disarm t (timeouts st)) st)
  | None => ret tt
  end.

(** [this.#socket && this.#socket.readyState === WebSocket.OPEN]. *)
Definition open_socket (st : state) : option nat :=
  match socket st with
  | Some s =>
      match sockets st !! s with
      | Some ws => match ready ws with OPEN => Some s | _ => None end
      | None => None
      end
  | None => None
  end.

(* ===================================================================== *)
(** ** The methods of WebsocketClient                                     *)
(* ===================================================================== *)

Definition default_options : WebSocketOptions :=
  {| log := None; wsReplyTimeout := 30000; rejectUnauthorized := true;
     host := "wss://api.plus.cex.io/"; apiUrl := EmptyString;
     apiUrlPublic := EmptyString |}.

(** [Object.assign(target, source)] on the properties the class reads.  A
    string source only contributes index properties and [undefined]
    contributes nothing, so both leave those properties alone. *)
Definition Object_assign (target : WebSocketOptions) (source : arg)
  : WebSocketOptions :=
  match source with
  | ArgOptions o =>
      {| log := match opt_log o with Some f => Some f | None => log target end;
         wsReplyTimeout := default (wsReplyTimeout target) (opt_wsReplyTimeout o);
         rejectUnauthorized :=
           default (rejectUnauthorized target) (opt_rejectUnauthorized o);
         host := default (host target) (opt_host o);
         apiUrl := default (apiUrl target) (opt_apiUrl o);
         apiUrlPublic := default (apiUrlPublic target) (opt_apiUrlPublic o) |}
  | ArgString _ | ArgUndefined => target
  end.

Definition arguments_at (args : list arg) (i : nat) : arg :=
  default ArgUndefined (args !! i).

Definition constructor (args : list arg) : state :=
  let options_param :=
    match arguments_at args 2 with
    | ArgUndefined => ArgOptions (Build_PartialOptions None None None None None None)
    | a => a
    end in
  let is_one := bool_decide (length args = 1%nat) in
  let _options := if is_one then arguments_at args 0 else options_param in
  let o1 := Object_assign default_options _options in
  let host1 := if endsWith (host o1) "/" then host o1 else host o1 +:+ "/" in
  let apiUrl1 :=
    if String.eqb (apiUrl o1) EmptyString then host1 +:+ "ws" else apiUrl o1 in
  let apiUrlPublic1 :=
    if String.eqb (apiUrlPublic o1) EmptyString then host1 +:+ "ws-public"
    else apiUrlPublic o1 in
  {| apiKey := arguments_at args 0;
     apiSecret := arguments_at args 1;
     oidSeqId := 0;
     handlers := ∅;
     waitForResp := [];
     waitTimers := ∅;
     isAuthorized := false;
     isPublicClient := is_one;
     options :=
       {| log := log o1; wsReplyTimeout := wsReplyTimeout o1;
          rejectUnauthorized := rejectUnauthorized o1; host := host1;
          apiUrl := apiUrl1; apiUrlPublic := apiUrlPublic1 |};
     socket := None;
     sockets := []; defers := []; connects := []; auths := [];
     awaiting := ∅; timeouts := []; effects := [] |}.

(** The value of a credential field when it is put into a frame.  An
    options object in that position shows its data properties; its [log]
    function is dropped by [JSON.stringify]. *)
Definition arg_value (a : arg) : value :=
  match a with
  | ArgUndefined => VUndefined
  | ArgString s => VStr s
  | ArgOptions o =>
      VObj (omap id
        [ (fun n => ("wsReplyTimeout", VInt n)) <$> opt_wsReplyTimeout o;
          (fun b => ("rejectUnauthorized", VBool b)) <$> opt_rejectUnauthorized o;
          (fun x => ("host", VStr x)) <$> opt_host o;
          (fun x => ("apiUrl", VStr x)) <$> opt_apiUrl o;
          (fun x => ("apiUrlPublic", VStr x)) <$> opt_apiUrlPublic o ])
  end.

Definition options_log (args : list value) : M unit :=
  let! st := get in fx (FxLog (log (options st)) args).

Definition addHandler (event : string) (callback : handler) : M unit :=
  modify (fun st => set_handlers (<[event:=callback]> (handlers st)) st).

Definition subscribe (event : string) (callback : nat) : M unit :=
  addHandler event (HUser callback).

Definition getDefer : M nat :=
  let! st := get in
  modify (fun st => set_defers (defers st ++ [Pending]) st) >>
  ret (length (defers st)).

(** [{oid, error, unexpectedError: true}], the rejection of both
    cancellation paths. *)
Definition cancellation (oid : string) (error : value) : value :=
  VObj [("oid", VStr oid); ("error", error); ("unexpectedError", VBool true)].

Definition cancelAllOidReplies (err : value) : M unit :=
  let! st0 := get in
  forEach (Object_keys (waitForResp st0)) (fun oid =>
    let! st := get in
    match obj_get (waitForResp st) oid with
    | None =>
        throw (TypeError "Cannot read properties of undefined (reading 'reject')")
    | Some d =>
        reject (DeferP d)
          (cancellation oid (if truthy err then err else VStr "connection closed")) >>
        modify (fun st => set_waitForResp (obj_delete (waitForResp st) oid) st) >>
        let! st := get in
        clearTimeout (waitTimers st !! oid)
    end).

Definition cancelOidReply (oid : string) (reason : value) : M unit :=
  let! st := get in
  match obj_get (waitForResp st) oid with
  | Some d =>
      reject (DeferP d) (cancellation oid reason) >>
      modify (fun st => set_waitForResp (obj_delete (waitForResp st) oid) st)
  | None => ret tt
  end >>
  let! st := get in
  match waitTimers st !! oid with
  | Some t => clearTimeout (Some t)
  | None => ret tt
  end.

Definition handleOidReply (message : value) : M unit :=
  let! oid := lift (getProp message "oid") in
  let key := ToString oid in
  let! st := get in
  match obj_get (waitForResp st) key with
  | None =>
      options_log
        [VStr "Got message from server with oid but without handler on client side.";
         message; VStr "Response handlers:";
         VArr (VStr <$> Object_keys (waitForResp st))]
  | Some p =>
      modify (fun st => set_waitForResp (obj_delete (waitForResp st) key) st) >>
      let! st := get in
      clearTimeout (waitTimers st !! key) >>
      let! ok := lift (getProp message "ok") in
      if strict_eq_str ok "ok" then
        let! data := lift (getProp message "data") in
        resolve (DeferP p) data
      else
        let! data := lift (getProp message "data") in
        let! error := lift (getProp data "error") in
        reject (DeferP p) error
  end.

(** [this.#socket.send(data, callback)]: the frame goes out, and the
    transport calls [callback], whose body is [body], now or later. *)
Definition send_with_callback (s : nat) (data : value) (cb : send_callback)
    (body : value → M unit) : M unit :=
  fx (FxSend s data (Some cb)) >>
  let! e := ask in
  match transport_send e with
  | CallbackNow err => body err
  | CallbackLater => ret tt
  end.

(** The callback of the [send] in [#auth]. *)
Definition auth_send_callback (a : nat) (err : value) : M unit :=
  if truthy err then reject (AuthP a) err else ret tt.

(** The callback of the [send] in [#callRequest]. *)
Definition request_send_callback (oid : string) (err : value) : M unit :=
  if truthy err then
    modify (fun st => set_waitForResp (obj_delete (waitForResp st) oid) st) >>
    let! st := get in
    match obj_get (waitForResp st) oid with
    | Some d => reject (DeferP d) err
    | None =>
        throw (TypeError "Cannot read properties of undefined (reading 'reject')")
    end
  else ret tt.

Section Methods.
Context `{Crypto}.

(** [crypto.createHmac] refuses a key that is not a string (or a buffer,
    which the constructor's signature does not admit). *)
Definition createSignature (timestamp : number) : M string :=
  let! st := get in
  let data := Number_toString timestamp +:+ ToString (arg_value (apiKey st)) in
  match apiSecret st with
  | ArgString secret => ret (hmac_sha256_hex secret data)
  | _ =>
      throw (TypeError
        ("The key argument must be of type string or an instance of " +:+
         "ArrayBuffer, Buffer, TypedArray, DataView, KeyObject, or CryptoKey."))
  end.

(** [#auth]: a throw inside the executor of [new Promise] rejects the
    promise. *)
Definition auth : M nat :=
  let! st := get in
  let a := length (auths st) in
  modify (fun st => set_auths (auths st ++ [Pending]) st) >>
  try_catch
    (match open_socket st with
     | None => reject (AuthP a) (Error "Client is not connected")
     | Some s =>
         addHandler "auth" (HAuth a) >>
         let! e := ask in
         let timestamp := Num (now e) 3 in
         let! signature := createSignature timestamp in
         let authRequest :=
           VObj [("e", VStr "auth");
                 ("auth", VObj [("key", arg_value (apiKey st));
                                ("signature", VStr signature);
                                ("timestamp", VNum timestamp)]);
                 ("oid", VStr "auth")] in
         send_with_callback s authRequest (AuthSendCb a) (auth_send_callback a)
     end)
    (fun err => reject (AuthP a) err) >>
  ret a.

(** The ['auth'] handler installed by [#auth]. *)
Definition on_auth (a : nat) (authRes : value) : M unit :=
  let! data := lift (getProp authRes "data") in
  let! ok := lift (getProp data "ok") in
  if truthy ok && strict_eq_str ok "ok" then
    modify (set_isAuthorized true) >>
    resolve (AuthP a) VUndefined
  else
    let! error := lift (getProp data "error") in
    reject (AuthP a) (Error ("Authorization failure: " +:+ ToString error)).

(** The ['connected'] handler installed by [connect]. *)
Definition on_connected (c : nat) : M unit :=
  let! st := get in
  if isPublicClient st then resolve (ConnectP c) VUndefined
  else
    let! a := auth in
    await_auth a c.

(** The ['disconnected'] handler installed by [connect]. *)
Definition on_disconnected : M unit :=
  modify (set_isAuthorized false) >>
  cancelAllOidReplies (VStr "disconnected from server").

(** [this.#handlers[message.e](message)]. *)
Definition invoke (h : handler) (message : value) : M unit :=
  match h with
  | HDisconnected => on_disconnected
  | HConnected c => on_connected c
  | HAuth a => on_auth a message
  | HUser f => fx (FxCall f [message])
  end.

(** [parsed] is the outcome of [JSON.parse(dataStr)]. *)
Definition handleMessage (parsed : result value) : M unit :=
  let! message := lift parsed in
  options_log [VStr "incoming message:"; message] >>
  let! e := lift (getProp message "e") in
  let! st := get in
  match handlers st !! ToString e with
  | Some h => invoke h message
  | None =>
      let! oid := lift (getProp message "oid") in
      if truthy oid then handleOidReply message
      else if strict_eq_str e "pong" then ret tt
      else options_log
             [VStr "Ignoring ws message because of unknown message format"; message]
  end.

Definition connect (onClose onError : option nat) : M pref :=
  let! st := get in
  let c := length (connects st) in
  modify (fun st => set_connects (connects st ++ [Pending]) st) >>
  let endpoint :=
    if isPublicClient st then apiUrlPublic (options st) else apiUrl (options st) in
  options_log [VStr "connecting to:"; VStr endpoint] >>
  let s := length (sockets st) in
  modify (fun st =>
    set_sockets
      (sockets st ++
       [{| url := endpoint;
           tls_rejectUnauthorized := rejectUnauthorized (options st);
           ready := CONNECTING; connecting := c;
           onClose := onClose; onError := onError |}]) st) >>
  fx (FxOpen s endpoint) >>
  modify (set_socket (Some s)) >>
  addHandler "disconnected" HDisconnected >>
  addHandler "connected" (HConnected c) >>
  ret (ConnectP c).

Definition set_ready (r : readyState) (ws : WebSocket) : WebSocket :=
  {| url := url ws; tls_rejectUnauthorized := tls_rejectUnauthorized ws;
     ready := r; connecting := connecting ws;
     onClose := onClose ws; onError := onError ws |}.

Definition disconnect : M unit :=
  let! st := get in
  match open_socket st with
  | Some s =>
      fx (FxCloseSocket s) >>
      modify (fun st => set_sockets (alter (set_ready CLOSING) s (sockets st)) st)
  | None => ret tt
  end.

(** The ['close'] listener of the socket created by [connect]. *)
Definition on_close (ws : WebSocket) (err : value) : M unit :=
  modify (set_socket None) >>
  modify (set_isAuthorized false) >>
  cancelAllOidReplies err >>
  reject (ConnectP (connecting ws)) err >>
  match onClose ws with
  | Some f => fx (FxCall f [err])
  | None => ret tt
  end.

(** The ['error'] listener of the socket created by [connect]. *)
Definition on_error (ws : WebSocket) (err : value) : M unit :=
  modify (set_socket None) >>
  cancelAllOidReplies err >>
  reject (ConnectP (connecting ws)) err >>
  match onError ws with
  | Some f => fx (FxCall f [err])
  | None => ret tt
  end.

(** [#callRequest]; the result is the deferred whose promise it returns. *)
Definition callRequest (method : string) (params : value) : M nat :=
  let! st := get in
  match open_socket st with
  | None => throw (Error "Not connected")
  | Some s =>
      let! e := ask in
      let seq := oidSeqId st + 1 in
      modify (set_oidSeqId seq) >>
      let oid := pretty (now e) +:+ pretty seq +:+ "_" +:+ method in
      let! d := getDefer in
      modify (fun st => set_waitForResp (obj_set (waitForResp st) oid d) st) >>
      let! t := setTimeout oid (wsReplyTimeout (options st)) in
      modify (fun st => set_waitTimers (<[oid:=t]> (waitTimers st)) st) >>
      let msg := VObj [("e", VStr method); ("data", params); ("oid", VStr oid)] in
      options_log [VStr "sending message:"; msg] >>
      send_with_callback s msg (RequestSendCb oid) (request_send_callback oid) >>
      let! st := get in
      match obj_get (waitForResp st) oid with
      | Some d' => ret d'
      | None =>
          throw (TypeError "Cannot read properties of undefined (reading 'promise')")
      end
  end.

(** What a call of an [async] method hands back: a promise that is already
    rejected, already fulfilled, or that follows a deferred of the registry. *)
Inductive returned :=
| Undefined
| Returned (p : pref)
| AsyncRejected (v : value)
| AsyncFulfilled (v : value)
| AsyncFollows (d : nat).

Definition async (body : M nat) : M returned :=
  fun e st =>
    match body e st with
    | (st', Ok d) => (st', Ok (AsyncFollows d))
    | (st', Throw v) => (st', Ok (AsyncRejected v))
    end.

(** [params = {}]. *)
Definition default_params (params : value) : value :=
  match params with
  | VUndefined => VObj []
  | _ => params
  end.

Definition callPublic (method : string) (params : value) : M returned :=
  async (let! st := get in
         if negb (isPublicClient st) then
           throw (Error "Attempt to call public method on private client")
         else callRequest method (default_params params)).

Definition callPrivate (method : string) (params : value) : M returned :=
  async (let! st := get in
         if isPublicClient st then
           throw (Error "Attempt to call private method on public client")
         else if negb (isAuthorized st) then throw (Error "Not authorized")
         else callRequest method (default_params params)).

Definition ping : M returned :=
  let! st := get in
  match open_socket st with
  | None => ret (AsyncRejected (Error "Not connected"))
  | Some s =>
      fx (FxSend s (VObj [("e", VStr "ping")]) None) >>
      ret (AsyncFulfilled VUndefined)
  end.

(* ===================================================================== *)
(** ** Macrotasks                                                         *)
(* ===================================================================== *)

(** What can happen to the client: the calls of its public methods, the
    events of a socket it created, a late callback of an earlier [send],
    and the expiry of a timer. *)
Inductive event :=
| Connect (onClose onError : option nat)
| Disconnect
| Subscribe (name : string) (callback : nat)
| Ping
| CallPublic (method : string) (params : value)
| CallPrivate (method : string) (params : value)
| SocketOpen (s : nat)
| SocketMessage (s : nat) (parsed : result value)
| SocketClose (s : nat) (err : value)
| SocketError (s : nat) (err : value)
| SendCallback (cb : send_callback) (err : value)
| TimerFires (t : nat).

(** Only a socket the client created has the listeners of [connect]. *)
Definition with_socket (s : nat) (k : WebSocket → M unit) : M returned :=
  let! st := get in
  match sockets st !! s with
  | Some ws => k ws >> ret Undefined
  | None => ret Undefined
  end.

Definition set_socket_ready (s : nat) (r : readyState) : M unit :=
  modify (fun st => set_sockets (alter (set_ready r) s (sockets st)) st).

(** An armed timer runs its callback once; a cleared one never does. *)
Definition timer_fires (t : nat) : M unit :=
  let! st := get in
  match timeouts st !! t with
  | Some tm =>
      if armed tm then
        modify (fun st => set_timeouts (alter disarm t (timeouts st)) st) >>
        cancelOidReply (timeout_oid tm) (VStr "request timeout")
      else ret tt
  | None => ret tt
  end.

(** One macrotask.  A [Throw] is an exception no code of the class
    catches. *)
Definition step (ev : event) : M returned :=
  match ev with
  | Connect onClose onError =>
      let! p := connect onClose onError in ret (Returned p)
  | Disconnect => disconnect >> ret Undefined
  | Subscribe name callback => subscribe name callback >> ret Undefined
  | Ping => ping
  | CallPublic method params => callPublic method params
  | CallPrivate method params => callPrivate method params
  | SocketOpen s =>
      with_socket s (fun ws =>
        match ready ws with
        | CONNECTING => set_socket_ready s OPEN
        | _ => ret tt
        end)
  | SocketMessage s parsed => with_socket s (fun _ => handleMessage parsed)
  | SocketClose s err =>
      with_socket s (fun ws => set_socket_ready s CLOSED >> on_close ws err)
  | SocketError s err =>
      with_socket s (fun ws => set_socket_ready s CLOSING >> on_error ws err)
  | SendCallback (AuthSendCb a) err => auth_send_callback a err >> ret Undefined
  | SendCallback (RequestSendCb oid) err =>
      request_send_callback oid err >> ret Undefined
  | TimerFires t => timer_fires t >> ret Undefined
  end.

Fixpoint run (tr : list (env * event)) (st : state) : state :=
  match tr with
  | [] => st
  | (e, ev) :: tr' => run tr' (step ev e st).1
  end.

End Methods.

(* ===================================================================== *)
(** ** Vocabulary of the statements                                       *)
(* ===================================================================== *)

(** [inv I m]: running [m] from a state in [I] ends in a state in [I],
    whether [m] returns or throws. *)
Definition inv {A} (I : state → Prop) (m : M A) : Prop :=
  ∀ e st, I st → I (m e st).1.

(** The state after [this.#options.log(...args)]. *)
Definition logged (args : list value) (st : state) : state :=
  set_effects (effects st ++ [FxLog (log (options st)) args]) st.

(** [message.e], [message.oid] of a decoded JSON object. *)
Definition field (props : list (string * value)) (k : string) : value :=
  default VUndefined (obj_get props k).

(** The property key under which [#handleMessage] looks for a handler. *)
Definition event_name (props : list (string * value)) : string :=
  ToString (field props "e").

(** What holds of [#waitForResp] in every state the client can reach: keys
    are distinct, each entry has its own deferred, that deferred is still
    pending, and a timer handle is stored under the same key. *)
Record registry_ok (st : state) : Prop := {
  ok_keys : NoDup (Object_keys (waitForResp st));
  ok_defers : NoDup (waitForResp st).*2;
  ok_pending : ∀ oid d, (oid, d) ∈ waitForResp st → defers st !! d = Some Pending;
  ok_timers : ∀ oid d, (oid, d) ∈ waitForResp st →
              ∃ t, waitTimers st !! oid = Some t ∧ (t < length (timeouts st))%nat
}.

(** The state after [resolve] or [reject] of a deferred of the registry. *)
Definition settled (d : nat) (o : outcome) (st : state) : state :=
  match defers st !! d with
  | Some Pending => set_defers (<[d:=o]> (defers st)) st
  | _ => st
  end.

Definition rejected (d : nat) (v : value) (st : state) : state :=
  settled d (Rejected v) (set_effects (effects st ++ [FxReject (DeferP d) v]) st).

Definition resolved (d : nat) (v : value) (st : state) : state :=
  settled d (Fulfilled v) (set_effects (effects st ++ [FxResolve (DeferP d) v]) st).

(** The registration at the start of [#callRequest]: a fresh deferred under
    [oid], a fresh timer, and its handle under the same key. *)
Definition registered (oid : string) (ms : Z) (st : state) : state :=
  let d := length (defers st) in
  let t := length (timeouts st) in
  set_waitTimers (<[oid:=t]> (waitTimers st))
    (set_effects (effects st ++ [FxSetTimeout t oid ms])
       (set_timeouts
          (timeouts st ++ [{| timeout_oid := oid; timeout_ms := ms; armed := true |}])
          (set_waitForResp (obj_set (waitForResp st) oid d)
             (set_defers (defers st ++ [Pending]) st)))).

Definition request_oid (e : env) (st : state) (method : string) : string :=
  pretty (now e) +:+ pretty (oidSeqId st + 1) +:+ "_" +:+ method.

Global Instance pref_eq_dec : EqDecision pref.
Proof. solve_decision. Defined.

(** The calls of [resolve] and [reject] of promise [r] in a list of effects,
    oldest first. *)
Definition calls_on (r : pref) (l : list effect) : list outcome :=
  omap (fun x =>
          match x with
          | FxResolve r' v => if decide (r' = r) then Some (Fulfilled v) else None
          | FxReject r' v => if decide (r' = r) then Some (Rejected v) else None
          | _ => None
          end) l.

Definition is_armed (st : state) (t : nat) : bool :=
  match timeouts st !! t with
  | Some tm => armed tm
  | None => false
  end.

(** The state after [clearTimeout(h)]. *)
Definition cleared (h : option nat) (st : state) : state :=
  let st1 := set_effects (effects st ++ [FxClearTimeout h]) st in
  match h with
  | Some t => set_timeouts (alter disarm t (timeouts st1)) st1
  | None => st1
  end.

(** [err || 'connection closed']. *)
Definition closing_reason (err : value) : value :=
  if truthy err then err else VStr "connection closed".

(** One round of the loop of [#cancelAllOidReplies]. *)
Definition cancel_entry (reason : value) (st : state) (entry : string * nat)
  : state :=
  let st1 := rejected entry.2 (cancellation entry.1 reason) st in
  let st2 := set_waitForResp (obj_delete (waitForResp st1) entry.1) st1 in
  cleared (waitTimers st2 !! entry.1) st2.


(** What the ['close'] and ['error'] listeners do after the bulk
    cancellation: [reject(err)] of [connect()], then the caller's callback. *)
Definition listener_tail (c : nat) (cb : option nat) (err : value) : M unit :=
  reject (ConnectP c) err >>
  match cb with
  | Some f => fx (FxCall f [err])
  | None => ret tt
  end.

(** The state in which the listeners start the bulk cancellation. *)
Definition listener_start (by_error : bool) (s : nat) (st : state) : state :=
  if by_error then
    set_socket None (set_sockets (alter (set_ready CLOSING) s (sockets st)) st)
  else
    set_isAuthorized false
      (set_socket None (set_sockets (alter (set_ready CLOSED) s (sockets st)) st)).

Definition listener_event (by_error : bool) (s : nat) (err : value) : event :=
  if by_error then SocketError s err else SocketClose s err.

(** A settled deferred stays as it is, whatever happens next. *)
Definition settled_as (d : nat) (o : outcome) (st : state) : Prop :=
  defers st !! d = Some o ∧ o ≠ Pending.

(** The state after the removal at the start of the second half of
    [#handleOidReply]: entry deleted, timer cleared. *)
Definition unregistered (key : string) (st : state) : state :=
  cleared (waitTimers st !! key)
    (set_waitForResp (obj_delete (waitForResp st) key) st).

(** Whether the ['auth'] handler has ever taken its success branch. *)
Definition is_auth_resolve (x : effect) : bool :=
  match x with
  | FxResolve (AuthP _) _ => true
  | _ => false
  end.

Definition handshake_completed (st : state) : bool :=
  existsb is_auth_resolve (effects st).

Definition authorized_by_handshake (st : state) : Prop :=
  isAuthorized st = true → handshake_completed st = true.

(** The state in which [#callRequest] has logged and sent its frame. *)
Definition requested (s : nat) (method : string) (params : value) (e : env)
    (st : state) : state :=
  let oid := request_oid e st method in
  let msg := VObj [("e", VStr method); ("data", params); ("oid", VStr oid)] in
  let st1 :=
    logged [VStr "sending message:"; msg]
      (registered oid (wsReplyTimeout (options st))
         (set_oidSeqId (oidSeqId st + 1) st)) in
  set_effects (effects st1 ++ [FxSend s msg (Some (RequestSendCb oid))]) st1.

(** The frame of [#auth] for clock reading [now] (milliseconds). *)
Definition auth_frame `{Crypto} (key : arg) (secret : string) (now : Z) : value :=
  let timestamp := Num now 3 in
  VObj [("e", VStr "auth");
        ("auth",
         VObj [("key", arg_value key);
               ("signature",
                VStr (hmac_sha256_hex secret
                        (Number_toString timestamp +:+ ToString (arg_value key))));
               ("timestamp", VNum timestamp)]);
        ("oid", VStr "auth")].

(** The state after the handshake promise [a] and, through the [await] in
    the ['connected'] handler, the [connect()] promise [c] were settled. *)
Definition handshake_settled (a c : nat) (fulfilled : bool) (v : value)
    (st : state) : state :=
  let st1 :=
    set_auths (<[a:=if fulfilled then Fulfilled v else Rejected v]> (auths st))
      (set_effects
         (effects st ++ [if fulfilled then FxResolve (AuthP a) v
                         else FxReject (AuthP a) v]) st) in
  set_connects
    (<[c:=if fulfilled then Fulfilled VUndefined else Rejected v]> (connects st1))
    (set_effects
       (effects st1 ++ [if fulfilled then FxResolve (ConnectP c) VUndefined
                        else FxReject (ConnectP c) v]) st1).


(* ===================================================================== *)
(** ** The statements the specification words differently                 *)
(* ===================================================================== *)

(** The wording of the specification behind C4: a request made while the
    transport is not open fails with NotConnected, whoever makes it and
    whatever happened before. *)
Definition stated_request_fails_NotConnected : Prop :=
  ∀ (H : Crypto) (args : list arg) (tr : list (env * event)) (private : bool)
    (method : string) (params : value) (e : env),
    let st := run tr (constructor args) in
    open_socket st = None →
    ((if private then callPrivate method params else callPublic method params)
       e st).2 = Ok (AsyncRejected (Error "Not connected")).




(* ===================================================================== *)
(** ** Example sessions                                                   *)
(* ===================================================================== *)

(** A stand-in for HMAC-SHA256 on which the examples can compute. *)
Definition example_hmac : Crypto :=
  {| hmac_sha256_hex := fun key data => "hmac(" +:+ key +:+ "," +:+ data +:+ ")" |}.

(** A macrotask at clock reading [ms] whose send, if any, reports later. *)
Definition quiet (ms : Z) : env := {| now := ms; transport_send := CallbackLater |}.

(** A macrotask whose send calls back at once with an error. *)
Definition failing (ms : Z) : env :=
  {| now := ms; transport_send := CallbackNow (Error "write EPIPE") |}.

Definition no_options : PartialOptions :=
  Build_PartialOptions None None None None None None.

Definition credentials : list arg := [ArgString "KEY"; ArgString "SECRET"].

Definition connected_frame : value := VObj [("e", VStr "connected")].

(** [connect()], the socket opens, the server greets. *)
Definition opening : list (env * event) :=
  [(quiet 1700000000000, Connect None None);
   (quiet 1700000000100, SocketOpen 0);
   (quiet 1700000000200, SocketMessage 0 (Ok connected_frame))].

Definition public_session : state :=
  run (H:=example_hmac) opening (constructor [ArgOptions no_options]).

Definition ticker_oid : string := "17000000003001_get_ticker".

Definition ticker_request : list (env * event) :=
  [(quiet 1700000000300, CallPublic "get_ticker" (VObj []))].


Definition ticker_reply : list (string * value) :=
  [("oid", VStr ticker_oid); ("ok", VStr "ok");
   ("data", VObj [("price", VInt 100)])].



Definition auth_accepted : list (string * value) :=
  [("e", VStr "auth"); ("oid", VStr "auth"); ("ok", VStr "ok");
   ("data", VObj [("ok", VStr "ok")])].



Definition handshake : list (env * event) :=
  opening ++ [(quiet 1700000000300, SocketMessage 0 (Ok (VObj auth_accepted)))].

(** A private client, connected and authorized. *)
Definition private_session : state :=
  run (H:=example_hmac) handshake (constructor credentials).

(** The socket of the public session. *)
Definition public_socket : WebSocket :=
  {| url := "wss://api.plus.cex.io/ws-public"; tls_rejectUnauthorized := true;
     ready := OPEN; connecting := 0; onClose := None; onError := None |}.

(* ===================================================================== *)
(** ** Vocabulary of the further properties                               *)
(* ===================================================================== *)

(** The options object the constructor merges into the defaults: its only
    argument when it got exactly one, its third parameter otherwise. *)
Definition passed_options (args : list arg) : PartialOptions :=
  match (if bool_decide (length args = 1%nat) then arguments_at args 0
         else arguments_at args 2) with
  | ArgOptions o => o
  | _ => no_options
  end.

(** Whether a macrotask is a call of [subscribe] for event [name]. *)
Definition subscribes_to (name : string) (ev : event) : bool :=
  match ev with
  | Subscribe name' _ => String.eqb name' name
  | _ => false
  end.

(** The frames handed to [socket.send], oldest first. *)
Definition frames_sent (l : list effect) : list value :=
  omap (fun x => match x with FxSend _ data _ => Some data | _ => None end) l.

(** Whether an effect is the send of a handshake frame. *)
Definition is_auth_send (x : effect) : bool :=
  match x with
  | FxSend _ _ (Some (AuthSendCb _)) => true
  | _ => false
  end.

(** What holds of a public client in every state it can reach: it is not
    authorized, it has no handshake promise and no ['auth'] handler of its
    own, and it has sent no handshake frame. *)
Definition public_client_ok (st : state) : Prop :=
  isPublicClient st = true
  ∧ isAuthorized st = false
  ∧ auths st = []
  ∧ (∀ k a, handlers st !! k ≠ Some (HAuth a))
  ∧ existsb is_auth_send (effects st) = false.

(** What [JSON.parse] can return besides an object and [null]: a boolean,
    a number, a string or an array. *)
Definition is_json_scalar_or_array (v : value) : bool :=
  match v with
  | VBool _ | VNum _ | VStr _ | VArr _ => true
  | _ => false
  end.

(** A deferred that nothing can settle any more: it is pending, and no
    entry of the registry holds its [resolve] and [reject]. *)
Definition orphaned (d : nat) (st : state) : Prop :=
  defers st !! d = Some Pending ∧ d ∉ (waitForResp st).*2.

(** What holds of the timers in every state the client can reach: a handle
    stored under an id belongs to a timer made for that id; every call in
    the registry has such a handle and its timer is armed; and every timer
    was set to the configured reply timeout. *)
Record timers_ok (st : state) : Prop := {
  ok_handle : ∀ k t, waitTimers st !! k = Some t →
              ∃ tm, timeouts st !! t = Some tm ∧ timeout_oid tm = k;
  ok_armed : ∀ k d, (k, d) ∈ waitForResp st →
             ∃ t, waitTimers st !! k = Some t ∧ is_armed st t = true;
  ok_delay : ∀ t tm, timeouts st !! t = Some tm →
             timeout_ms tm = wsReplyTimeout (options st)
}.

(** Decimal digits, and strings of them. *)
Definition is_digit (c : Ascii.ascii) : bool :=
  let n := Ascii.nat_of_ascii c in (48 <=? n)%nat && (n <=? 57)%nat.

Fixpoint all_digits (s : string) : bool :=
  match s with
  | EmptyString => true
  | String c s' => is_digit c && all_digits s'
  end.

(** Whether the clock readings of a sequence of macrotasks never go back,
    starting from reading [t0]. *)
Fixpoint clock_ordered (t0 : Z) (readings : list env) : bool :=
  match readings with
  | [] => true
  | e :: readings' => (t0 <=? now e) && clock_ordered (now e) readings'
  end.

(** What holds of the ids made so far when the clock has not passed [T]:
    each is a clock reading up to [T], then a sequence number between 1 and
    the current one, then an underscore and a method name. *)
Definition ids_ok (T : Z) (st : state) : Prop :=
  0 ≤ oidSeqId st
  ∧ ∀ t tm, timeouts st !! t = Some tm →
      ∃ n q m, timeout_oid tm = pretty n +:+ pretty q +:+ "_" +:+ m
               ∧ 0 ≤ n ≤ T ∧ 0 < q ≤ oidSeqId st.

(** The macrotasks that may register a call. *)
Definition is_call (ev : event) : bool :=
  match ev with
  | CallPublic _ _ | CallPrivate _ _ => true
  | _ => false
  end.

(** What holds of the calls of [resolve] and [reject] in every state the
    client can reach: a deferred that is settled was settled by one call,
    the one that gave it its outcome, and nothing was called on a deferred
    that is pending. *)
Definition settled_once (st : state) : Prop :=
  ∀ d, calls_on (DeferP d) (effects st) =
       match defers st !! d with
       | Some Pending | None => []
       | Some o => [o]
       end.

Definition registry_and_calls_ok (st : state) : Prop :=
  registry_ok st ∧ settled_once st.

(* ===================================================================== *)
(** ** Further example sessions                                           *)
(* ===================================================================== *)

(** [connect()] on a private client, and the socket opens: the server has
    not greeted yet. *)
Definition dialling : list (env * event) :=
  [(quiet 1700000000000, Connect None None);
   (quiet 1700000000100, SocketOpen 0)].



(* ===================================================================== *)
(** ** The REST client                                                    *)
(* ===================================================================== *)

(** The parts of [src/rest.ts] (class [RestClient]) that do not talk to the
    network: the constructor, the request limiter and the reading of a
    response.  A reading of [Date.now()] is a parameter of the function
    that takes it. *)
Module RestClient.

(** [RestOptions], after the constructor has filled in the defaults.
    [log = None] is the default sink. *)
Record RestOptions := {
  log : option nat;
  apiLimit : Z;
  timeout : Z;
  rejectUnauthorized : bool;
  host : string;
  apiUrl : string;
  apiUrlPublic : string
}.

(** [Partial<RestOptions>]: what a caller passes. *)
Record PartialOptions := {
  opt_log : option nat;
  opt_apiLimit : option Z;
  opt_timeout : option Z;
  opt_rejectUnauthorized : option bool;
  opt_host : option string;
  opt_apiUrl : option string;
  opt_apiUrlPublic : option string
}.

Definition no_options : PartialOptions :=
  Build_PartialOptions None None None None None None None.

Inductive arg :=
| ArgUndefined
| ArgString (s : string)
| ArgOptions (o : PartialOptions).

(** [new https.Agent({rejectUnauthorized, timeout})]. *)
Record Agent := {
  agent_rejectUnauthorized : bool;
  agent_timeout : Z
}.

Record state := State {
  apiKey : arg;
  apiSecret : arg;
  isPublicClient : bool;
  requestCounter : Z;
  lastMinute : Z;
  options : RestOptions;
  httpsAgent : Agent
}.

Definition arguments_at (args : list arg) (i : nat) : arg :=
  default ArgUndefined (args !! i).

(** [#currentMinute]: [Math.floor(Date.now() / 60000)]. *)
Definition currentMinute (now : Z) : Z := now / 60000.

(** [_options.host], read while the defaults are being written down. *)
Definition read_host (_options : arg) : result value :=
  match _options with
  | ArgUndefined =>
      Throw (TypeError "Cannot read properties of undefined (reading 'host')")
  | ArgString _ => Ok VUndefined
  | ArgOptions o =>
      Ok match opt_host o with
         | Some h => VStr h
         | None => VUndefined
         end
  end.

(** [{...defaults, ..._options}].  A string only spreads index
    properties. *)
Definition spread (defaults : RestOptions) (_options : arg) : RestOptions :=
  match _options with
  | ArgOptions o =>
      {| log := match opt_log o with Some f => Some f | None => log defaults end;
         apiLimit := default (apiLimit defaults) (opt_apiLimit o);
         timeout := default (timeout defaults) (opt_timeout o);
         rejectUnauthorized :=
           default (rejectUnauthorized defaults) (opt_rejectUnauthorized o);
         host := default (host defaults) (opt_host o);
         apiUrl := default (apiUrl defaults) (opt_apiUrl o);
         apiUrlPublic := default (apiUrlPublic defaults) (opt_apiUrlPublic o) |}
  | ArgString _ | ArgUndefined => defaults
  end.

(** [if (!s.endsWith('/')) s = `${s}/`]. *)
Definition with_slash (s : string) : string :=
  if endsWith s "/" then s else s +:+ "/".

Definition constructor (now : Z) (args : list arg) : result state :=
  let options_param :=
    match arguments_at args 2 with
    | ArgUndefined => ArgOptions no_options
    | a => a
    end in
  let is_one := bool_decide (length args = 1%nat) in
  let _options := if is_one then arguments_at args 0 else options_param in
  match read_host _options with
  | Throw v => Throw v
  | Ok h =>
      let o1 :=
        spread
          {| log := None; apiLimit := 300; timeout := 30000;
             rejectUnauthorized := true; host := "https://api.plus.cex.io/";
             apiUrl := ToString h +:+ "rest/";
             apiUrlPublic := ToString h +:+ "rest-public/" |}
          _options in
      Ok {| apiKey := arguments_at args 0;
            apiSecret := arguments_at args 1;
            isPublicClient := is_one;
            requestCounter := 0;
            lastMinute := currentMinute now;
            options :=
              {| log := log o1; apiLimit := apiLimit o1; timeout := timeout o1;
                 rejectUnauthorized := rejectUnauthorized o1;
                 host := with_slash (host o1);
                 apiUrl := with_slash (apiUrl o1);
                 apiUrlPublic := with_slash (apiUrlPublic o1) |};
            httpsAgent :=
              {| agent_rejectUnauthorized := rejectUnauthorized o1;
                 agent_timeout := timeout o1 |} |}
  end.

(** [#limitReached], at clock reading [now]. *)
Definition limitReached (now : Z) (st : state) : state * bool :=
  let minute := currentMinute now in
  let reset := lastMinute st <? minute in
  let counter := (if reset then 0 else requestCounter st) + 1 in
  (State (apiKey st) (apiSecret st) (isPublicClient st) counter
     (if reset then minute else lastMinute st) (options st) (httpsAgent st),
   apiLimit (options st) <=? counter).

(** What [#parseResponse] hands back: the body, or something thrown.  An
    array or an [Error] object that got a [statusCode] property is the same
    object as before; [ThrowsWithStatus] says so. *)
Inductive parsed :=
| Returns (v : value)
| Throws (v : value)
| ThrowsWithStatus (v : value) (statusCode : Z).

(** [#parseResponse(response, body)], with [status] for [response.status]. *)
Definition parseResponse (status : Z) (body : value) : parsed :=
  if negb (status =? 200) then
    match body with
    | VObj props => Throws (VObj (obj_set props "statusCode" (VInt status)))
    | VNull =>
        Throws (TypeError "Cannot set properties of null (setting 'statusCode')")
    | VArr _ | VError _ _ => ThrowsWithStatus body status
    | VUndefined | VBool _ | VNum _ | VStr _ =>
        Throws (VObj [("statusCode", VInt status); ("body", body)])
    end
  else
    match getProp body "error" with
    | Throw v => Throws v
    | Ok error => if truthy error then Throws body else Returns body
    end.

End RestClient.

(** The answers of successive consultations of the limiter, one per clock
    reading. *)
Fixpoint consultations (readings : list Z) (st : RestClient.state) : list bool :=
  match readings with
  | [] => []
  | now :: readings' =>
      let r := RestClient.limitReached now st in
      r.2 :: consultations readings' r.1
  end.

(** The options object the constructor of the REST client spreads over the
    defaults. *)
Definition rest_passed_options (args : list RestClient.arg)
  : RestClient.PartialOptions :=
  match (if bool_decide (length args = 1%nat) then RestClient.arguments_at args 0
         else RestClient.arguments_at args 2) with
  | RestClient.ArgOptions o => o
  | _ => RestClient.no_options
  end.

(* ===================================================================== *)
(** ** Sanity checks of the value model                                   *)
(* ===================================================================== *)

Example Number_toString_seconds :
  Number_toString (Num 1700000000500 3) = "1700000000.5"
  ∧ Number_toString (Num 1700000000000 3) = "1700000000"
  ∧ Number_toString (Num 1700000000042 3) = "1700000000.042"
  ∧ ToString (VInt 100) = "100".
Proof. vm_compute. done. Qed.

(* ===================================================================== *)
(** ** Objects used as dictionaries                                       *)
(* ===================================================================== *)

Section Objects.
Context {A : Type}.
Implicit Types (o : list (string * A)) (k : string) (a : A).

Lemma eqb_refl' k : String.eqb k k = true.
Proof. apply String.eqb_refl. Qed.

Lemma obj_get_delete_eq o k : obj_get (obj_delete o k) k = None.
Proof.
  induction o as [|[k' a'] o IH]; simpl; [done|].
  destruct (String.eqb_spec k' k) as [->|Hne]; [done|].
  simpl. by destruct (String.eqb_spec k' k).
Qed.

Lemma obj_get_delete_ne o k k' :
  k ≠ k' → obj_get (obj_delete o k) k' = obj_get o k'.
Proof.
  intros Hne. induction o as [|[k0 a0] o IH]; simpl; [done|].
  destruct (String.eqb_spec k0 k) as [->|Hk].
  - destruct (String.eqb_spec k k'); [done|]. apply IH.
  - simpl. destruct (String.eqb_spec k0 k'); [done|]. apply IH.
Qed.

Lemma obj_get_Some_elem o k a : obj_get o k = Some a → (k, a) ∈ o.
Proof.
  induction o as [|[k' a'] o IH]; simpl; [done|].
  destruct (String.eqb_spec k' k) as [->|Hne].
  - intros [= ->]. left.
  - intros Hg. right. by apply IH.
Qed.

Lemma obj_delete_absent o k : k ∉ Object_keys o → obj_delete o k = o.
Proof.
  unfold Object_keys. induction o as [|[k' a'] o IH]; simpl; [done|].
  rewrite not_elem_of_cons. intros [Hne Hk].
  destruct (String.eqb_spec k' k) as [->|_]; [done|]. by rewrite IH.
Qed.

Lemma obj_delete_sublist o k : sublist (obj_delete o k) o.
Proof.
  induction o as [|[k' a'] o IH]; simpl; [done|].
  destruct (String.eqb k' k); by constructor.
Qed.

Lemma obj_delete_elem o k k' a :
  (k', a) ∈ obj_delete o k → (k', a) ∈ o ∧ k' ≠ k.
Proof.
  induction o as [|[k0 a0] o IH]; simpl.
  - intros Hin. by apply elem_of_nil in Hin.
  - destruct (String.eqb_spec k0 k) as [->|Hne].
    + intros Hin. apply IH in Hin as [Hin Hk]. split; [by right|done].
    + intros Hin. apply elem_of_cons in Hin as [[= -> ->]|Hin].
      * split; [left|done].
      * apply IH in Hin as [Hin Hk]. split; [by right|done].
Qed.

Lemma obj_set_elem o k a k' a' :
  (k', a') ∈ obj_set o k a → (k', a') = (k, a) ∨ (k', a') ∈ o.
Proof.
  induction o as [|[k0 a0] o IH]; simpl.
  - intros Hin. apply list_elem_of_singleton in Hin. by left.
  - destruct (String.eqb_spec k0 k) as [->|Hne].
    + intros Hin. apply elem_of_cons in Hin as [Heq|Hin]; [by left|].
      right. by right.
    + intros Hin. apply elem_of_cons in Hin as [Heq|Hin].
      * right. rewrite Heq. left.
      * apply IH in Hin as [Heq|Hin]; [by left|]. right. by right.
Qed.

Lemma obj_get_set_eq o k a : obj_get (obj_set o k a) k = Some a.
Proof.
  induction o as [|[k0 a0] o IH]; simpl.
  - by rewrite eqb_refl'.
  - destruct (String.eqb_spec k0 k) as [->|Hne]; simpl.
    + by rewrite eqb_refl'.
    + by destruct (String.eqb_spec k0 k).
Qed.

Lemma obj_get_set_ne o k a k' :
  k ≠ k' → obj_get (obj_set o k a) k' = obj_get o k'.
Proof.
  intros Hne. induction o as [|[k0 a0] o IH]; simpl.
  - by destruct (String.eqb_spec k k').
  - destruct (String.eqb_spec k0 k) as [->|Hk]; simpl.
    + by destruct (String.eqb_spec k k').
    + destruct (String.eqb_spec k0 k'); [done|]. apply IH.
Qed.

Lemma obj_set_keys o k a :
  Object_keys (obj_set o k a) =
  if bool_decide (k ∈ Object_keys o) then Object_keys o else Object_keys o ++ [k].
Proof.
  unfold Object_keys. induction o as [|[k0 a0] o IH].
  - rewrite bool_decide_eq_false_2; [done|apply not_elem_of_nil].
  - cbn [obj_set]. destruct (String.eqb_spec k0 k) as [->|Hk].
    + rewrite bool_decide_eq_true_2; [done|rewrite fmap_cons; left].
    + rewrite !fmap_cons, IH. cbn [fst]. case_bool_decide as Hin.
      * rewrite bool_decide_eq_true_2; [done|by right].
      * rewrite bool_decide_eq_false_2; [done|].
        rewrite not_elem_of_cons. split; [congruence|done].
Qed.

Lemma obj_set_NoDup o k a :
  NoDup (Object_keys o) → NoDup (Object_keys (obj_set o k a)).
Proof.
  intros Hnd. rewrite obj_set_keys. case_bool_decide; [done|].
  apply NoDup_app. split; [done|]. split.
  - intros x Hx Hx'. apply list_elem_of_singleton in Hx'. by subst.
  - apply NoDup_singleton.
Qed.

Lemma obj_delete_keys_sublist o k :
  sublist (Object_keys (obj_delete o k)) (Object_keys o).
Proof. unfold Object_keys. apply fmap_sublist, obj_delete_sublist. Qed.

Lemma obj_delete_NoDup o k :
  NoDup (Object_keys o) → NoDup (Object_keys (obj_delete o k)).
Proof. intros Hnd. eapply sublist_NoDup; [done|apply obj_delete_keys_sublist]. Qed.

End Objects.

Lemma obj_set_values_NoDup (o : list (string * nat)) k d :
  d ∉ o.*2 → NoDup o.*2 → NoDup (obj_set o k d).*2.
Proof.
  induction o as [|[k0 a0] o IH]; simpl.
  - intros _ _. apply NoDup_singleton.
  - rewrite not_elem_of_cons. intros [Hne Hd] Hnd.
    apply NoDup_cons in Hnd as [Ha0 Hnd].
    destruct (String.eqb k0 k); simpl.
    + apply NoDup_cons. split; [done|done].
    + apply NoDup_cons. split; [|by apply IH].
      intros Hin. apply list_elem_of_fmap in Hin as [[k1 a1] [Heq Hin]].
      simpl in Heq. subst a1.
      apply obj_set_elem in Hin as [[= _ ->]|Hin]; [done|].
      apply Ha0. apply list_elem_of_fmap. by exists (k1, a0).
Qed.

Lemma obj_delete_values_NoDup (o : list (string * nat)) k :
  NoDup o.*2 → NoDup (obj_delete o k).*2.
Proof.
  intros Hnd. eapply sublist_NoDup; [done|].
  apply fmap_sublist, obj_delete_sublist.
Qed.

(* ===================================================================== *)
(** ** Invariants of method bodies                                        *)
(* ===================================================================== *)

Section InvariantRules.
Context (I : state → Prop).

Lemma inv_ret {A} (a : A) : inv I (ret a).
Proof. by intros e st HI. Qed.

Lemma inv_throw {A} v : inv I (@throw A v).
Proof. by intros e st HI. Qed.

Lemma inv_get : inv I get.
Proof. by intros e st HI. Qed.

Lemma inv_ask : inv I ask.
Proof. by intros e st HI. Qed.

Lemma inv_lift {A} (r : result A) : inv I (lift r).
Proof. by intros e st HI. Qed.

Lemma inv_modify f : (∀ st, I st → I (f st)) → inv I (modify f).
Proof. intros Hf e st HI. by apply Hf. Qed.

Lemma inv_bind {A B} (m : M A) (k : A → M B) :
  inv I m → (∀ a, inv I (k a)) → inv I (bind m k).
Proof.
  intros Hm Hk e st HI. unfold bind. specialize (Hm e st HI).
  destruct (m e st) as [st' [a|v]]; simpl in *; [by apply Hk|done].
Qed.

Lemma inv_try_catch {A} (m : M A) h :
  inv I m → (∀ v, inv I (h v)) → inv I (try_catch m h).
Proof.
  intros Hm Hh e st HI. unfold try_catch. specialize (Hm e st HI).
  destruct (m e st) as [st' [a|v]]; simpl in *; [done|by apply Hh].
Qed.

Lemma inv_async (body : M nat) : inv I body → inv I (async body).
Proof.
  intros Hb e st HI. unfold async. specialize (Hb e st HI).
  by destruct (body e st) as [st' [a|v]].
Qed.

Lemma inv_forEach {A} (l : list A) body :
  (∀ a, inv I (body a)) → inv I (forEach l body).
Proof.
  intros Hb. induction l as [|a l IH]; simpl; [apply inv_ret|].
  apply inv_bind; [apply Hb|by intros _].
Qed.

End InvariantRules.

(** Invariants of single methods that the walk below may use as they are. *)
Create HintDb inv_db.

Ltac head_of t :=
  lazymatch t with
  | ?f _ => head_of f
  | _ => t
  end.

(** Walks through a method body, leaving one goal per state update. *)
Ltac inv_walk leaf :=
  lazymatch goal with
  | |- inv _ (bind _ _) => apply inv_bind; [|intros ?]; inv_walk leaf
  | |- inv _ (ret _) => apply inv_ret
  | |- inv _ (throw _) => apply inv_throw
  | |- inv _ get => apply inv_get
  | |- inv _ ask => apply inv_ask
  | |- inv _ (lift _) => apply inv_lift
  | |- inv _ (try_catch _ _) => apply inv_try_catch; [|intros ?]; inv_walk leaf
  | |- inv _ (forEach _ _) => apply inv_forEach; intros ?; inv_walk leaf
  | |- inv _ (async _) => apply inv_async; inv_walk leaf
  | |- inv _ (modify _) => apply inv_modify; leaf
  | |- inv _ (match ?x with _ => _ end) => destruct x; inv_walk leaf
  | |- inv _ ?m =>
      first
        [ solve [eauto with inv_db]
        | let h := head_of m in progress (unfold h); cbv zeta; inv_walk leaf
        | idtac ]
  end.

Section Properties.
Context `{Crypto}.

Lemma inv_run (I : state → Prop) :
  (∀ ev, inv I (step ev)) → ∀ tr st, I st → I (run tr st).
Proof.
  intros Hstep tr. induction tr as [|[e ev] tr IH]; simpl; [done|].
  intros st HI. apply IH. by apply Hstep.
Qed.

(* --------------------------------------------------------------------- *)
(** *** The timer map                                                     *)
(* --------------------------------------------------------------------- *)

Lemma waitTimers_keys_step (K : gset string) ev :
  inv (fun st => K ⊆ dom (waitTimers st)) (step ev).
Proof.
  inv_walk ltac:(intros st HI; simpl; try done).
  all: rewrite dom_insert_L; set_solver.
Qed.

Lemma waitTimers_keys_run tr st : dom (waitTimers st) ⊆ dom (waitTimers (run tr st)).
Proof.
  apply (inv_run (fun st' => dom (waitTimers st) ⊆ dom (waitTimers st'))); [|done].
  intros ev. apply waitTimers_keys_step.
Qed.

(* --------------------------------------------------------------------- *)
(** *** Public and private clients                                        *)
(* --------------------------------------------------------------------- *)

Lemma isPublicClient_step (b : bool) ev :
  inv (fun st => isPublicClient st = b) (step ev).
Proof. inv_walk ltac:(intros st HI; simpl; try done). Qed.

Lemma isPublicClient_run tr st : isPublicClient (run tr st) = isPublicClient st.
Proof.
  apply (inv_run (fun st' => isPublicClient st' = isPublicClient st)); [|done].
  intros ev. apply isPublicClient_step.
Qed.

Lemma callPublic_private_client method params e st :
  isPublicClient st = false →
  callPublic method params e st =
  (st, Ok (AsyncRejected (Error "Attempt to call public method on private client"))).
Proof. intros Hp. unfold callPublic, async, bind, get. simpl. by rewrite Hp. Qed.

(** C10. A client is public exactly when the constructor received one
    argument; that argument is then used as the options object, whatever it
    is.  A client constructed with any other number of arguments stays
    private for its whole life, and each [callPublic] on it is rejected with
    the error of line 279 and leaves the state, hence the transport,
    untouched. *)
Theorem public_iff_one_argument (args : list arg) :
  (isPublicClient (constructor args) = true ↔ length args = 1%nat)
  ∧ (∀ a, options (constructor [a]) =
          options (constructor [ArgUndefined; ArgUndefined; a]))
  ∧ (∀ s, isPublicClient (constructor [ArgString s]) = true
          ∧ options (constructor [ArgString s]) = options (constructor []))
  ∧ (length args ≠ 1%nat →
     ∀ tr method params e,
       let st := run tr (constructor args) in
       isPublicClient st = false
       ∧ callPublic method params e st =
         (st, Ok (AsyncRejected
                    (Error "Attempt to call public method on private client")))).
Proof.
  split; [|split; [|split]].
  - unfold constructor; simpl. by rewrite bool_decide_eq_true.
  - by intros [].
  - done.
  - intros Hlen tr method params e st.
    assert (isPublicClient st = false) as Hp.
    { unfold st. rewrite isPublicClient_run. unfold constructor; simpl.
      by apply bool_decide_eq_false. }
    split; [done|]. by apply callPublic_private_client.
Qed.

(* --------------------------------------------------------------------- *)
(** *** Inbound routing                                                   *)
(* --------------------------------------------------------------------- *)

Lemma handleOidReply_absent message oid e st :
  getProp message "oid" = Ok oid →
  obj_get (waitForResp st) (ToString oid) = None →
  handleOidReply message e st =
  (logged [VStr "Got message from server with oid but without handler on client side.";
           message; VStr "Response handlers:";
           VArr (VStr <$> Object_keys (waitForResp st))] st, Ok tt).
Proof.
  intros Hoid Habs. unfold handleOidReply, bind, lift, get. rewrite Hoid.
  simpl. by rewrite Habs.
Qed.



(** The four branches of [#handleMessage] on a decoded JSON object. *)
Lemma handleMessage_handler props e st h :
  handlers st !! event_name props = Some h →
  handleMessage (Ok (VObj props)) e st =
  invoke h (VObj props) e (logged [VStr "incoming message:"; VObj props] st).
Proof.
  intros Hh. unfold handleMessage, bind, lift, options_log, get, fx, modify.
  simpl. fold (field props "e"). fold (event_name props). by rewrite Hh.
Qed.


Lemma handleMessage_unrouted props e st :
  handlers st !! event_name props = None →
  truthy (field props "oid") = false →
  strict_eq_str (field props "e") "pong" = true →
  handleMessage (Ok (VObj props)) e st =
  (logged [VStr "incoming message:"; VObj props] st, Ok tt).
Proof.
  intros Hh Hoid Hpong.
  unfold handleMessage, bind, lift, options_log, get, fx, modify.
  simpl. fold (field props "e"). fold (event_name props). rewrite Hh.
  fold (field props "oid"). by rewrite Hoid, Hpong.
Qed.



(* --------------------------------------------------------------------- *)
(** *** The registry invariant                                            *)
(* --------------------------------------------------------------------- *)

Lemma registry_ok_frame st st' :
  registry_ok st →
  waitForResp st' = waitForResp st →
  defers st' = defers st →
  waitTimers st' = waitTimers st →
  length (timeouts st') = length (timeouts st) →
  registry_ok st'.
Proof.
  intros [H1 H2 H3 H4] Hw Hd Ht Hl.
  split; rewrite ?Hw, ?Hd, ?Ht, ?Hl; done.
Qed.

Lemma registry_ok_delete st k :
  registry_ok st →
  registry_ok (set_waitForResp (obj_delete (waitForResp st) k) st).
Proof.
  intros [H1 H2 H3 H4]. split; simpl.
  - by apply obj_delete_NoDup.
  - by apply obj_delete_values_NoDup.
  - intros oid d Hin. apply obj_delete_elem in Hin as [Hin _]. eauto.
  - intros oid d Hin. apply obj_delete_elem in Hin as [Hin _]. eauto.
Qed.

Lemma values_NoDup_key (o : list (string * nat)) k1 k2 d :
  NoDup o.*2 → (k1, d) ∈ o → (k2, d) ∈ o → k1 = k2.
Proof.
  induction o as [|[k0 d0] o IH]; simpl.
  - intros _ Hin. by apply elem_of_nil in Hin.
  - intros Hnd H1 H2. apply NoDup_cons in Hnd as [Hd0 Hnd].
    apply elem_of_cons in H1 as [He1|H1];
      apply elem_of_cons in H2 as [He2|H2].
    + congruence.
    + injection He1 as -> ->. exfalso. apply Hd0.
      apply list_elem_of_fmap. by exists (k2, d0).
    + injection He2 as -> ->. exfalso. apply Hd0.
      apply list_elem_of_fmap. by exists (k1, d0).
    + by apply IH.
Qed.

(** Settling the deferred of entry [oid] and deleting the entry, in either
    order, keeps the invariant. *)
Lemma registry_ok_settle_delete st oid d o :
  registry_ok st →
  obj_get (waitForResp st) oid = Some d →
  registry_ok
    (set_waitForResp (obj_delete (waitForResp st) oid)
       (set_defers (<[d:=o]> (defers st)) st)).
Proof.
  intros Hok Hget. pose proof Hok as [H1 H2 H3 H4].
  apply obj_get_Some_elem in Hget.
  split; simpl.
  - by apply obj_delete_NoDup.
  - by apply obj_delete_values_NoDup.
  - intros oid' d' Hin. apply obj_delete_elem in Hin as [Hin Hne].
    rewrite list_lookup_insert_ne; [eauto|].
    intros ->. apply Hne. by eapply values_NoDup_key.
  - intros oid' d' Hin. apply obj_delete_elem in Hin as [Hin _]. eauto.
Qed.

Lemma registry_ok_settle_unregistered st d o :
  registry_ok st →
  d ∉ (waitForResp st).*2 →
  registry_ok (set_defers (<[d:=o]> (defers st)) st).
Proof.
  intros [H1 H2 H3 H4] Hd. split; simpl; try done.
  intros oid' d' Hin. rewrite list_lookup_insert_ne; [eauto|].
  intros ->. apply Hd. apply list_elem_of_fmap. by exists (oid', d').
Qed.

Lemma deleted_value_unregistered (o : list (string * nat)) k d :
  NoDup o.*2 → obj_get o k = Some d → d ∉ (obj_delete o k).*2.
Proof.
  intros Hnd Hget Hin. apply obj_get_Some_elem in Hget.
  apply list_elem_of_fmap in Hin as [[k' d'] [Heq Hin]]. simpl in Heq. subst d'.
  apply obj_delete_elem in Hin as [Hin Hne]. apply Hne.
  by eapply values_NoDup_key.
Qed.

(** Stepping through a body one statement at a time. *)
Lemma bind_fst {A B} (m : M A) (k : A → M B) e st :
  (bind m k e st).1 =
  match m e st with
  | (st', Ok a) => (k a e st').1
  | (st', Throw _) => st'
  end.
Proof. unfold bind. by destruct (m e st) as [st' [a|v]]. Qed.

Lemma bind_get {B} (k : state → M B) e st : bind get k e st = k st e st.
Proof. done. Qed.

Lemma bind_ask {B} (k : env → M B) e st : bind ask k e st = k e e st.
Proof. done. Qed.

Lemma bind_modify {B} f (k : unit → M B) e st :
  bind (modify f) k e st = k tt e (f st).
Proof. done. Qed.

Lemma bind_ret {A B} (a : A) (k : A → M B) e st : bind (ret a) k e st = k a e st.
Proof. done. Qed.

Lemma bind_lift_Ok {A B} (a : A) (k : A → M B) e st :
  bind (lift (Ok a)) k e st = k a e st.
Proof. done. Qed.

Lemma bind_fx {B} x (k : unit → M B) e st :
  bind (fx x) k e st = k tt e (set_effects (effects st ++ [x]) st).
Proof. done. Qed.

Lemma reject_DeferP d v e st : reject (DeferP d) v e st = (rejected d v st, Ok tt).
Proof.
  unfold reject, settle, settle_once, rejected, settled, bind, fx, get, modify, ret.
  simpl. by destruct (defers st !! d) as [[]|].
Qed.

Lemma resolve_DeferP d v e st : resolve (DeferP d) v e st = (resolved d v st, Ok tt).
Proof.
  unfold resolve, settle, settle_once, resolved, settled, bind, fx, get, modify, ret.
  simpl. by destruct (defers st !! d) as [[]|].
Qed.

Lemma bind_reject_DeferP {B} d v (k : unit → M B) e st :
  bind (reject (DeferP d) v) k e st = k tt e (rejected d v st).
Proof. unfold bind. by rewrite reject_DeferP. Qed.

Ltac registry_leaf :=
  let st := fresh "st" in
  let Hok := fresh "Hok" in
  intros st Hok;
  first
    [ apply (registry_ok_frame st); [exact Hok|simpl; rewrite ?length_alter; done..]
    | idtac ].

Lemma registry_ok_fx st x :
  registry_ok st → registry_ok (set_effects (effects st ++ [x]) st).
Proof. intros Hok. by eapply registry_ok_frame. Qed.

Lemma registry_ok_settled_unregistered st d o :
  registry_ok st → d ∉ (waitForResp st).*2 → registry_ok (settled d o st).
Proof.
  intros Hok Hd. unfold settled.
  destruct (defers st !! d) as [[]|]; try done.
  by apply registry_ok_settle_unregistered.
Qed.

(** After the [reject] in the two cancellation paths, deleting the entry
    restores the invariant. *)
Lemma registry_ok_rejected_delete st oid d v :
  registry_ok st →
  obj_get (waitForResp st) oid = Some d →
  registry_ok
    (set_waitForResp (obj_delete (waitForResp (rejected d v st)) oid)
       (rejected d v st)).
Proof.
  intros Hok Hget. unfold rejected, settled. simpl.
  apply (registry_ok_fx _ (FxReject (DeferP d) v)) in Hok.
  destruct (defers st !! d) as [[]|]; simpl.
  - by apply (registry_ok_settle_delete _ oid d (Rejected v)) in Hok.
  - by apply (registry_ok_delete _ oid) in Hok.
  - by apply (registry_ok_delete _ oid) in Hok.
  - by apply (registry_ok_delete _ oid) in Hok.
Qed.

Lemma request_send_callback_eq oid err e st :
  request_send_callback oid err e st =
  if truthy err then
    (set_waitForResp (obj_delete (waitForResp st) oid) st,
     Throw (TypeError "Cannot read properties of undefined (reading 'reject')"))
  else (st, Ok tt).
Proof.
  unfold request_send_callback. destruct (truthy err); [|done].
  unfold bind, modify, get. simpl. by rewrite obj_get_delete_eq.
Qed.

Lemma registry_ok_request_send_callback oid err :
  inv registry_ok (request_send_callback oid err).
Proof.
  intros e st Hok. rewrite request_send_callback_eq.
  destruct (truthy err); [|done]. by apply registry_ok_delete.
Qed.

Lemma registry_ok_clearTimeout h : inv registry_ok (clearTimeout h).
Proof. inv_walk registry_leaf. Qed.

Lemma registry_ok_cancelOidReply oid reason :
  inv registry_ok (cancelOidReply oid reason).
Proof.
  intros e st Hok. unfold cancelOidReply. rewrite bind_get, bind_fst.
  assert (inv registry_ok
            (let! st := get in
             match waitTimers st !! oid with
             | Some t => clearTimeout (Some t)
             | None => ret tt
             end)) as Htail.
  { apply inv_bind; [apply inv_get|]. intros st'.
    destruct (waitTimers st' !! oid); [apply registry_ok_clearTimeout|apply inv_ret]. }
  destruct (obj_get (waitForResp st) oid) as [d|] eqn:Hget.
  - rewrite bind_reject_DeferP. simpl. apply Htail.
    by apply registry_ok_rejected_delete.
  - simpl. by apply Htail.
Qed.

Lemma registry_ok_cancelAllOidReplies err :
  inv registry_ok (cancelAllOidReplies err).
Proof.
  unfold cancelAllOidReplies. apply inv_bind; [apply inv_get|]. intros st0.
  apply inv_forEach. intros oid e st Hok. rewrite bind_get.
  destruct (obj_get (waitForResp st) oid) as [d|] eqn:Hget; [|done].
  rewrite bind_reject_DeferP, bind_modify, bind_get.
  apply registry_ok_clearTimeout. by apply registry_ok_rejected_delete.
Qed.

Lemma clearTimeout_eq h e st : clearTimeout h e st = (cleared h st, Ok tt).
Proof. unfold clearTimeout, cleared. by destruct h. Qed.

Lemma handleOidReply_present message oidv p e st :
  getProp message "oid" = Ok oidv →
  obj_get (waitForResp st) (ToString oidv) = Some p →
  handleOidReply message e st =
  let st1 := unregistered (ToString oidv) st in
  match getProp message "ok" with
  | Throw v => (st1, Throw v)
  | Ok ok =>
      match getProp message "data" with
      | Throw v => (st1, Throw v)
      | Ok data =>
          if strict_eq_str ok "ok" then (resolved p data st1, Ok tt)
          else match getProp data "error" with
               | Throw v => (st1, Throw v)
               | Ok error => (rejected p error st1, Ok tt)
               end
      end
  end.
Proof.
  intros Hoid Hget. unfold handleOidReply.
  rewrite Hoid, bind_lift_Ok, bind_get, Hget, bind_modify, bind_get.
  unfold bind at 1. rewrite clearTimeout_eq.
  cbn [waitTimers set_waitForResp]. fold (unregistered (ToString oidv) st).
  destruct (getProp message "ok") as [ok|v]; [|done].
  rewrite bind_lift_Ok.
  destruct (strict_eq_str ok "ok");
    destruct (getProp message "data") as [data|v]; try done;
    rewrite bind_lift_Ok.
  - by rewrite resolve_DeferP.
  - destruct (getProp data "error") as [error|v]; [|done].
    by rewrite bind_lift_Ok, reject_DeferP.
Qed.

Lemma registry_ok_unregistered key st :
  registry_ok st → registry_ok (unregistered key st).
Proof.
  intros Hok. apply (registry_ok_delete _ key) in Hok.
  unfold unregistered, cleared.
  destruct (waitTimers st !! key); eapply registry_ok_frame; try exact Hok;
    simpl; rewrite ?length_alter; done.
Qed.

Lemma unregistered_value key p st :
  registry_ok st →
  obj_get (waitForResp st) key = Some p →
  p ∉ (waitForResp (unregistered key st)).*2.
Proof.
  intros Hok Hget.
  assert (waitForResp (unregistered key st) = obj_delete (waitForResp st) key)
    as -> by (unfold unregistered, cleared; by destruct (waitTimers st !! key)).
  apply deleted_value_unregistered; [apply Hok|done].
Qed.

Lemma registry_ok_handleOidReply message :
  inv registry_ok (handleOidReply message).
Proof.
  intros e st Hok.
  destruct (getProp message "oid") as [oid|v] eqn:Hoid;
    [|by unfold handleOidReply; rewrite Hoid].
  destruct (obj_get (waitForResp st) (ToString oid)) as [p|] eqn:Hget.
  - rewrite (handleOidReply_present _ oid p); [|done|done]. cbv zeta.
    pose proof (registry_ok_unregistered (ToString oid) st Hok) as Hok1.
    pose proof (unregistered_value (ToString oid) p st Hok Hget) as Hp.
    destruct (getProp message "ok") as [ok|v]; [|done].
    destruct (getProp message "data") as [data|v]; [|done].
    destruct (strict_eq_str ok "ok").
    + apply registry_ok_settled_unregistered; [by apply registry_ok_fx|done].
    + destruct (getProp data "error") as [error|v]; [|done].
      apply registry_ok_settled_unregistered; [by apply registry_ok_fx|done].
  - rewrite (handleOidReply_absent _ oid); [|done|done]. by apply registry_ok_fx.
Qed.

Lemma registry_ok_registered oid ms st :
  registry_ok st → registry_ok (registered oid ms st).
Proof.
  intros [H1 H2 H3 H4].
  assert (length (defers st) ∉ (waitForResp st).*2) as Hfresh.
  { intros Hin. apply list_elem_of_fmap in Hin as [[k d] [Heq Hin]].
    simpl in Heq. apply H3 in Hin. apply lookup_lt_Some in Hin. lia. }
  split; simpl.
  - by apply obj_set_NoDup.
  - by apply obj_set_values_NoDup.
  - intros k d Hin. apply obj_set_elem in Hin as [[= -> ->]|Hin].
    + by rewrite lookup_app_r, Nat.sub_diag.
    + rewrite lookup_app_l; [eauto|]. eapply lookup_lt_Some. eauto.
  - intros k d Hin. rewrite length_app. simpl.
    destruct (decide (oid = k)) as [->|Hne].
    + exists (length (timeouts st)). rewrite lookup_insert_eq. split; [done|lia].
    + apply obj_set_elem in Hin as [[= -> _]|Hin]; [done|].
      destruct (H4 _ _ Hin) as (t & Ht & Hlt). exists t.
      rewrite lookup_insert_ne; [|done]. split; [done|lia].
Qed.

(** [#callRequest] after its guard: registration, then the send. *)
Lemma callRequest_open method params e st s :
  open_socket st = Some s →
  callRequest method params e st =
  let oid := request_oid e st method in
  let msg := VObj [("e", VStr method); ("data", params); ("oid", VStr oid)] in
  (options_log [VStr "sending message:"; msg] >>
   send_with_callback s msg (RequestSendCb oid) (request_send_callback oid) >>
   let! st := get in
   match obj_get (waitForResp st) oid with
   | Some d' => ret d'
   | None =>
       throw (TypeError "Cannot read properties of undefined (reading 'promise')")
   end) e
    (registered oid (wsReplyTimeout (options st))
       (set_oidSeqId (oidSeqId st + 1) st)).
Proof.
  intros Hs. unfold callRequest. rewrite bind_get, Hs. done.
Qed.

Lemma callRequest_closed method params e st :
  open_socket st = None →
  callRequest method params e st = (st, Throw (Error "Not connected")).
Proof. intros Hs. unfold callRequest. by rewrite bind_get, Hs. Qed.

#[local] Hint Resolve registry_ok_request_send_callback
  registry_ok_cancelOidReply registry_ok_cancelAllOidReplies
  registry_ok_handleOidReply : inv_db.

Lemma registry_ok_callRequest method params :
  inv registry_ok (callRequest method params).
Proof.
  intros e st Hok. destruct (open_socket st) as [s|] eqn:Hs.
  - rewrite (callRequest_open _ _ _ _ s Hs). cbv zeta.
    assert (∀ oid msg,
              inv registry_ok
                (options_log [VStr "sending message:"; msg] >>
                 send_with_callback s msg (RequestSendCb oid)
                   (request_send_callback oid) >>
                 let! st := get in
                 match obj_get (waitForResp st) oid with
                 | Some d' => ret d'
                 | None =>
                     throw (TypeError
                       "Cannot read properties of undefined (reading 'promise')")
                 end)) as Htail.
    { intros oid msg. inv_walk registry_leaf. }
    apply Htail, registry_ok_registered. by eapply registry_ok_frame.
  - by rewrite callRequest_closed.
Qed.

#[local] Hint Resolve registry_ok_callRequest : inv_db.

Lemma registry_ok_step ev : inv registry_ok (step ev).
Proof. inv_walk registry_leaf. Qed.

Lemma registry_ok_constructor args : registry_ok (constructor args).
Proof.
  split; simpl; try apply NoDup_nil_2; intros oid d Hin; by apply elem_of_nil in Hin.
Qed.

Lemma registry_ok_reachable tr args : registry_ok (run tr (constructor args)).
Proof.
  apply inv_run; [apply registry_ok_step|apply registry_ok_constructor].
Qed.

(* --------------------------------------------------------------------- *)
(** *** Bulk cancellation                                                 *)
(* --------------------------------------------------------------------- *)

Lemma waitForResp_rejected d v st : waitForResp (rejected d v st) = waitForResp st.
Proof. unfold rejected, settled. simpl. by destruct (defers st !! d) as [[]|]. Qed.

Lemma waitTimers_rejected d v st : waitTimers (rejected d v st) = waitTimers st.
Proof. unfold rejected, settled. simpl. by destruct (defers st !! d) as [[]|]. Qed.

Lemma timeouts_rejected d v st : timeouts (rejected d v st) = timeouts st.
Proof. unfold rejected, settled. simpl. by destruct (defers st !! d) as [[]|]. Qed.



Lemma waitForResp_cleared h st : waitForResp (cleared h st) = waitForResp st.
Proof. by destruct h. Qed.

Lemma waitTimers_cleared h st : waitTimers (cleared h st) = waitTimers st.
Proof. by destruct h. Qed.

Lemma defers_cleared h st : defers (cleared h st) = defers st.
Proof. by destruct h. Qed.

Lemma effects_cleared h st :
  effects (cleared h st) = effects st ++ [FxClearTimeout h].
Proof. by destruct h. Qed.

Lemma waitForResp_cancel_entry reason st entry :
  waitForResp (cancel_entry reason st entry) =
  obj_delete (waitForResp st) entry.1.
Proof.
  unfold cancel_entry. cbv zeta.
  by rewrite waitForResp_cleared; simpl; rewrite waitForResp_rejected.
Qed.




(** The loop of [#cancelAllOidReplies] over the entries that remain. *)
Lemma forEach_cancel err e (l : list (string * nat)) st :
  waitForResp st = l →
  NoDup (Object_keys l) →
  forEach (Object_keys l) (fun oid =>
    let! st := get in
    match obj_get (waitForResp st) oid with
    | None =>
        throw (TypeError "Cannot read properties of undefined (reading 'reject')")
    | Some d =>
        reject (DeferP d)
          (cancellation oid (if truthy err then err else VStr "connection closed")) >>
        modify (fun st => set_waitForResp (obj_delete (waitForResp st) oid) st) >>
        let! st := get in
        clearTimeout (waitTimers st !! oid)
    end) e st =
  (foldl (cancel_entry (closing_reason err)) st l, Ok tt).
Proof.
  revert st. induction l as [|[oid d] l IH]; intros st Hl Hnd; [done|].
  unfold Object_keys in *. rewrite fmap_cons in *. cbn [fst] in *.
  apply NoDup_cons in Hnd as [Hoid Hnd].
  cbn [forEach foldl]. unfold bind at 1. rewrite bind_get, Hl.
  cbn [obj_get]. rewrite eqb_refl'.
  rewrite bind_reject_DeferP, bind_modify, bind_get, clearTimeout_eq.
  fold (closing_reason err).
  change (cleared _ _) with (cancel_entry (closing_reason err) st (oid, d)).
  apply IH; [|done].
  rewrite waitForResp_cancel_entry, Hl. cbn [fst obj_delete].
  rewrite eqb_refl'. by apply obj_delete_absent.
Qed.

Lemma cancelAllOidReplies_eq err e st :
  NoDup (Object_keys (waitForResp st)) →
  cancelAllOidReplies err e st =
  (foldl (cancel_entry (closing_reason err)) st (waitForResp st), Ok tt).
Proof.
  intros Hnd. unfold cancelAllOidReplies. rewrite bind_get.
  by apply forEach_cancel.
Qed.










Lemma calls_on_app r l1 l2 : calls_on r (l1 ++ l2) = calls_on r l1 ++ calls_on r l2.
Proof. unfold calls_on. apply omap_app. Qed.



Lemma listener_tail_frame c cb err e st :
  let st' := (listener_tail c cb err e st).1 in
  waitForResp st' = waitForResp st
  ∧ defers st' = defers st
  ∧ timeouts st' = timeouts st
  ∧ waitTimers st' = waitTimers st
  ∧ socket st' = socket st
  ∧ isAuthorized st' = isAuthorized st
  ∧ effects st' =
    effects st ++ FxReject (ConnectP c) err ::
      match cb with Some f => [FxCall f [err]] | None => [] end.
Proof.
  unfold listener_tail, reject, settle, settle_once, bind, fx, get, modify, ret.
  simpl. destruct (connects st !! c) as [[]|], cb; simpl;
    rewrite <- ?app_assoc; done.
Qed.

Lemma step_listener_eq by_error s ws err e st :
  sockets st !! s = Some ws →
  NoDup (Object_keys (waitForResp st)) →
  (step (listener_event by_error s err) e st).1 =
  (listener_tail (connecting ws) (if by_error then onError ws else onClose ws) err e
     (foldl (cancel_entry (closing_reason err)) (listener_start by_error s st)
        (waitForResp st))).1.
Proof.
  intros Hs Hnd. destruct by_error; simpl.
  - unfold with_socket. rewrite bind_get, Hs. rewrite bind_fst.
    unfold set_socket_ready, on_error.
    rewrite !bind_modify.
    unfold bind at 1. rewrite cancelAllOidReplies_eq; [|done].
    fold (listener_tail (connecting ws) (onError ws) err).
    simpl. by destruct (listener_tail _ _ _ _ _) as [st' [[]|v]].
  - unfold with_socket. rewrite bind_get, Hs. rewrite bind_fst.
    unfold set_socket_ready, on_close.
    rewrite !bind_modify.
    unfold bind at 1. rewrite cancelAllOidReplies_eq; [|done].
    fold (listener_tail (connecting ws) (onClose ws) err).
    simpl. by destruct (listener_tail _ _ _ _ _) as [st' [[]|v]].
Qed.


(* --------------------------------------------------------------------- *)
(** *** Timeouts                                                          *)
(* --------------------------------------------------------------------- *)

Lemma settled_as_settle_once d o r o' : inv (settled_as d o) (settle_once r o').
Proof.
  intros e st [Hd Ho]. unfold settle_once. rewrite bind_get.
  destruct (promise r st) as [[]|] eqn:Hr; try done.
  rewrite bind_modify. simpl. split; [|done].
  destruct r as [d'| |]; simpl in *; try done.
  rewrite list_lookup_insert_ne; [done|]. intros ->. congruence.
Qed.

#[local] Hint Resolve settled_as_settle_once : inv_db.



Lemma cancelOidReply_eq oid reason e st :
  cancelOidReply oid reason e st =
  (let st1 :=
     match obj_get (waitForResp st) oid with
     | Some d =>
         set_waitForResp (obj_delete (waitForResp st) oid)
           (rejected d (cancellation oid reason) st)
     | None => st
     end in
   match waitTimers st !! oid with
   | Some t => cleared (Some t) st1
   | None => st1
   end, Ok tt).
Proof.
  unfold cancelOidReply. rewrite bind_get.
  destruct (obj_get (waitForResp st) oid) as [d|] eqn:Hget.
  - unfold bind at 1. rewrite bind_reject_DeferP.
    unfold modify at 1. rewrite bind_get. cbn [waitTimers set_waitForResp].
    rewrite waitTimers_rejected, waitForResp_rejected.
    by destruct (waitTimers st !! oid).
  - unfold bind, get. simpl. by destruct (waitTimers st !! oid).
Qed.



(* --------------------------------------------------------------------- *)
(** *** Correlated replies                                                *)
(* --------------------------------------------------------------------- *)

Lemma unregistered_facts key st :
  let st1 := unregistered key st in
  obj_get (waitForResp st1) key = None
  ∧ defers st1 = defers st
  ∧ (∀ t, waitTimers st !! key = Some t → is_armed st1 t = false).
Proof.
  unfold unregistered, cleared, is_armed. simpl.
  destruct (waitTimers st !! key) as [t|] eqn:Ht; simpl.
  - rewrite obj_get_delete_eq. repeat split. intros t' [= <-].
    rewrite list_lookup_alter_eq. by destruct (timeouts st !! t).
  - rewrite obj_get_delete_eq. repeat split. by intros t' [=].
Qed.

Lemma settled_frame d o st :
  waitForResp (settled d o st) = waitForResp st
  ∧ timeouts (settled d o st) = timeouts st.
Proof. unfold settled. by destruct (defers st !! d) as [[]|]. Qed.




(* --------------------------------------------------------------------- *)
(** *** The guards of callPublic, callPrivate and #callRequest            *)
(* --------------------------------------------------------------------- *)

Lemma open_socket_None st : socket st = None → open_socket st = None.
Proof. intros Hs. unfold open_socket. by rewrite Hs. Qed.

(** Once the listener has cleared [#socket] (and set the flag to [b]), the
    rest of the listener leaves both alone. *)
Lemma listener_rest_flags (b : bool) err c cb :
  inv (fun st => socket st = None ∧ isAuthorized st = b)
      (cancelAllOidReplies err >> listener_tail c cb err).
Proof. inv_walk ltac:(intros st HI; simpl; try done). Qed.

Lemma step_close_flags s ws err e st :
  sockets st !! s = Some ws →
  let st' := (step (SocketClose s err) e st).1 in
  socket st' = None ∧ isAuthorized st' = false.
Proof.
  intros Hs. simpl. unfold with_socket. rewrite bind_get, Hs, bind_fst.
  unfold set_socket_ready, on_close. rewrite !bind_modify.
  pose proof (listener_rest_flags false err (connecting ws) (onClose ws) e
    (set_isAuthorized false
       (set_socket None
          (set_sockets (alter (set_ready CLOSED) s (sockets st)) st)))) as Hrest.
  unfold listener_tail in Hrest.
  destruct (bind (cancelAllOidReplies err) _ e _) as [st' [[]|v]];
    by apply Hrest.
Qed.

Lemma step_error_flags s ws err e st :
  sockets st !! s = Some ws →
  let st' := (step (SocketError s err) e st).1 in
  socket st' = None ∧ isAuthorized st' = isAuthorized st.
Proof.
  intros Hs. simpl. unfold with_socket. rewrite bind_get, Hs, bind_fst.
  unfold set_socket_ready, on_error. rewrite !bind_modify.
  pose proof (listener_rest_flags (isAuthorized st) err (connecting ws)
    (onError ws) e
    (set_socket None
       (set_sockets (alter (set_ready CLOSING) s (sockets st)) st))) as Hrest.
  unfold listener_tail in Hrest.
  destruct (bind (cancelAllOidReplies err) _ e _) as [st' [[]|v]];
    by apply Hrest.
Qed.

(** C4, as the code has it.  On a transport that is not open
    [#callRequest] fails with ['Not connected'] and changes nothing, and so
    do [callPublic] on a public client and [callPrivate] on a private
    client whose authorized flag is set.  [callPrivate] on a private client
    whose flag is clear fails with ['Not authorized'] before the transport
    is looked at.  The close path clears the flag; the error path leaves
    it as it was. *)
Theorem request_without_open_transport
    (method : string) (params : value) (e : env) (st : state) :
  (open_socket st = None →
     callRequest method params e st = (st, Throw (Error "Not connected"))
     ∧ (isPublicClient st = true →
        callPublic method params e st =
        (st, Ok (AsyncRejected (Error "Not connected"))))
     ∧ (isPublicClient st = false →
        callPrivate method params e st =
        (st, Ok (AsyncRejected
                   (Error (if isAuthorized st then "Not connected"
                           else "Not authorized"))))))
  ∧ (∀ s ws err e', sockets st !! s = Some ws →
       let st' := (step (SocketClose s err) e' st).1 in
       open_socket st' = None ∧ isAuthorized st' = false)
  ∧ (∀ s ws err e', sockets st !! s = Some ws →
       let st' := (step (SocketError s err) e' st).1 in
       open_socket st' = None ∧ isAuthorized st' = isAuthorized st).
Proof.
  split; [|split].
  - intros Hclosed. split; [by apply callRequest_closed|]. split.
    + intros Hpub. unfold callPublic, async. rewrite bind_get, Hpub. simpl.
      by rewrite callRequest_closed.
    + intros Hpriv. unfold callPrivate, async. rewrite bind_get, Hpriv.
      destruct (isAuthorized st); simpl; [|done].
      by rewrite callRequest_closed.
  - intros s ws err e' Hs.
    destruct (step_close_flags s ws err e' st Hs) as [Hsock Hauth].
    split; [by apply open_socket_None|done].
  - intros s ws err e' Hs.
    destruct (step_error_flags s ws err e' st Hs) as [Hsock Hauth].
    split; [by apply open_socket_None|done].
Qed.

Lemma authorized_by_handshake_on_auth a message :
  inv authorized_by_handshake (on_auth a message).
Proof.
  intros e st HI. unfold on_auth.
  destruct (getProp message "data") as [data|v]; [|done].
  rewrite bind_lift_Ok.
  destruct (getProp data "ok") as [ok|v]; [|done].
  rewrite bind_lift_Ok.
  destruct (truthy ok && strict_eq_str ok "ok").
  - rewrite bind_modify. unfold resolve. rewrite bind_fx.
    intros _.
    assert (inv (fun st => handshake_completed st = true)
              (settle (AuthP a) (Fulfilled VUndefined))) as Hsettle.
    { inv_walk ltac:(intros st' HI'; unfold handshake_completed in *; simpl;
                     rewrite ?existsb_app, ?HI'; done). }
    apply Hsettle. unfold handshake_completed. simpl.
    rewrite existsb_app. simpl. by rewrite orb_true_r.
  - revert e st HI.
    change (inv authorized_by_handshake
              (let! error := lift (getProp data "error") in
               reject (AuthP a)
                 (Error ("Authorization failure: " +:+ ToString error)))).
    inv_walk ltac:(intros st HI Ha; unfold authorized_by_handshake,
                     handshake_completed in *; simpl in *;
                   rewrite ?existsb_app, ?(HI Ha); done).
Qed.

#[local] Hint Resolve authorized_by_handshake_on_auth : inv_db.



(* --------------------------------------------------------------------- *)
(** *** A failing send                                                    *)
(* --------------------------------------------------------------------- *)

Lemma bind_options_log {B} args (k : unit → M B) e st :
  bind (options_log args) k e st = k tt e (logged args st).
Proof. done. Qed.

Lemma registered_facts oid ms st :
  let st1 := registered oid ms st in
  defers st1 !! length (defers st) = Some Pending
  ∧ waitTimers st1 !! oid = Some (length (timeouts st))
  ∧ is_armed st1 (length (timeouts st)) = true
  ∧ obj_get (waitForResp st1) oid = Some (length (defers st)).
Proof.
  unfold registered, is_armed. simpl.
  rewrite !lookup_app_r, !Nat.sub_diag, lookup_insert_eq, obj_get_set_eq by lia.
  done.
Qed.

Lemma send_with_callback_now s data cb body e st err :
  transport_send e = CallbackNow err →
  send_with_callback s data cb body e st =
  body err e (set_effects (effects st ++ [FxSend s data (Some cb)]) st).
Proof. intros Hsend. unfold send_with_callback. by rewrite bind_fx, bind_ask, Hsend. Qed.

Lemma send_with_callback_later s data cb body e st :
  transport_send e = CallbackLater →
  send_with_callback s data cb body e st =
  (set_effects (effects st ++ [FxSend s data (Some cb)]) st, Ok tt).
Proof. intros Hsend. unfold send_with_callback. by rewrite bind_fx, bind_ask, Hsend. Qed.

Lemma requested_facts s method params e st :
  let st1 := requested s method params e st in
  let oid := request_oid e st method in
  defers st1 !! length (defers st) = Some Pending
  ∧ waitTimers st1 !! oid = Some (length (timeouts st))
  ∧ is_armed st1 (length (timeouts st)) = true
  ∧ obj_get (waitForResp st1) oid = Some (length (defers st)).
Proof.
  exact (registered_facts (request_oid e st method) (wsReplyTimeout (options st))
           (set_oidSeqId (oidSeqId st + 1) st)).
Qed.

Lemma callRequest_send_fails_now method params e st s err :
  open_socket st = Some s →
  transport_send e = CallbackNow err →
  truthy err = true →
  callRequest method params e st =
  (let st1 := requested s method params e st in
   set_waitForResp
     (obj_delete (waitForResp st1) (request_oid e st method)) st1,
   Throw (TypeError "Cannot read properties of undefined (reading 'reject')")).
Proof.
  intros Hs Hsend Herr. rewrite (callRequest_open _ _ _ _ s Hs). cbv zeta.
  rewrite bind_options_log. unfold bind at 1.
  rewrite (send_with_callback_now _ _ _ _ _ _ err Hsend).
  by rewrite request_send_callback_eq, Herr.
Qed.

Lemma callRequest_send_later method params e st s :
  open_socket st = Some s →
  transport_send e = CallbackLater →
  callRequest method params e st =
  (requested s method params e st, Ok (length (defers st))).
Proof.
  intros Hs Hsend. rewrite (callRequest_open _ _ _ _ s Hs). cbv zeta.
  rewrite bind_options_log. unfold bind at 1.
  rewrite send_with_callback_later; [|done].
  rewrite bind_get.
  destruct (requested_facts s method params e st) as (_ & _ & _ & Hget).
  unfold requested in Hget. cbv zeta in Hget. by rewrite Hget.
Qed.

(** C1, as the code behaves.  What [#callRequest] does when the transport
    reports a send error, for both ways the transport may deliver it: the
    call is not rejected with the send error and its timer is not
    cancelled; only the registry entry goes.  If the callback runs before
    [send] returns, it deletes the entry and then throws a [TypeError] on
    [this.#waitForResp[oid].reject]: [#callRequest] fails with that
    [TypeError], the new deferred is left pending and its timer armed.  If
    it runs later, it deletes the entry and throws the same [TypeError],
    touching neither the deferreds nor the timers. *)
Theorem send_failure_leaves_call_unsettled
    (method : string) (params : value) (e : env) (st : state)
    (s : nat) (err : value) :
  open_socket st = Some s →
  truthy err = true →
  let oid := request_oid e st method in
  let d := length (defers st) in
  let t := length (timeouts st) in
  let bug := TypeError "Cannot read properties of undefined (reading 'reject')" in
  (transport_send e = CallbackNow err →
     let r := callRequest method params e st in
     r.2 = Throw bug
     ∧ obj_get (waitForResp r.1) oid = None
     ∧ defers r.1 !! d = Some Pending
     ∧ waitTimers r.1 !! oid = Some t
     ∧ is_armed r.1 t = true)
  ∧ (transport_send e = CallbackLater →
     let r := callRequest method params e st in
     r.2 = Ok d
     ∧ ∀ e',
         let r' := step (SendCallback (RequestSendCb oid) err) e' r.1 in
         r'.2 = Throw bug
         ∧ obj_get (waitForResp r'.1) oid = None
         ∧ defers r'.1 !! d = Some Pending
         ∧ is_armed r'.1 t = true).
Proof.
  intros Hs Herr oid d t bug.
  destruct (requested_facts s method params e st) as (Hd & Hwt & Harm & Hget).
  fold oid d t in Hd, Hwt, Harm, Hget.
  split.
  - intros Hsend. rewrite (callRequest_send_fails_now _ _ _ _ s err); try done.
    cbv zeta. fold oid. simpl. by rewrite obj_get_delete_eq.
  - intros Hsend. rewrite (callRequest_send_later _ _ _ _ s); try done.
    cbv zeta. split; [done|]. intros e'. simpl. unfold bind.
    rewrite request_send_callback_eq, Herr. simpl.
    by rewrite obj_get_delete_eq.
Qed.

(* --------------------------------------------------------------------- *)
(** *** The authentication handshake                                      *)
(* --------------------------------------------------------------------- *)

Lemma settle_handshake a c (fulfilled : bool) v e st :
  auths st !! a = Some Pending →
  awaiting st !! a = Some c →
  connects st !! c = Some Pending →
  (if fulfilled then resolve (AuthP a) v else reject (AuthP a) v) e st =
  (handshake_settled a c fulfilled v st, Ok tt).
Proof.
  intros Ha Haw Hc.
  assert (a < length (auths st))%nat as Hlt by (by eapply lookup_lt_Some).
  destruct fulfilled.
  - unfold resolve. rewrite bind_fx. unfold settle, settle_once.
    unfold bind at 1. rewrite bind_get. cbn [promise auths set_effects].
    rewrite Ha, bind_modify. cbn [ret]. unfold resume. rewrite bind_get.
    cbn [awaiting auths set_promise set_auths set_effects].
    rewrite Haw, list_lookup_insert_eq by done.
    rewrite bind_fx. unfold settle_once, bind, get, modify, ret. simpl.
    by rewrite Hc.
  - unfold reject. rewrite bind_fx. unfold settle, settle_once.
    unfold bind at 1. rewrite bind_get. cbn [promise auths set_effects].
    rewrite Ha, bind_modify. cbn [ret]. unfold resume. rewrite bind_get.
    cbn [awaiting auths set_promise set_auths set_effects].
    rewrite Haw, list_lookup_insert_eq by done.
    rewrite bind_fx. unfold settle_once, bind, get, modify, ret. simpl.
    by rewrite Hc.
Qed.

Lemma handshake_settled_facts a c fulfilled v st :
  connects st !! c = Some Pending →
  let st' := handshake_settled a c fulfilled v st in
  connects st' !! c =
    Some (if fulfilled then Fulfilled VUndefined else Rejected v)
  ∧ isAuthorized st' = isAuthorized st.
Proof.
  intros Hc. simpl. split; [|done].
  apply list_lookup_insert_eq. by eapply lookup_lt_Some.
Qed.

Lemma bind_assoc {A B C} (m : M A) (k1 : A → M B) (k2 : B → M C) e st :
  bind (bind m k1) k2 e st = bind m (fun x => bind (k1 x) k2) e st.
Proof. unfold bind. by destruct (m e st) as [st' [a|v]]. Qed.

Lemma settle_once_returns r o e st : ∃ st' b, settle_once r o e st = (st', Ok b).
Proof.
  unfold settle_once, bind, get, modify, ret.
  destruct (promise r st) as [[]|]; eauto.
Qed.

Lemma resume_returns a e st : ∃ st', resume a e st = (st', Ok tt).
Proof.
  unfold resume. rewrite bind_get.
  destruct (awaiting st !! a) as [c|], (auths st !! a) as [[]|];
    try (by eexists); rewrite bind_fx; unfold bind.
  - destruct (settle_once_returns (ConnectP c) (Fulfilled VUndefined) e
                (set_effects (effects st ++ [FxResolve (ConnectP c) VUndefined]) st))
      as (st' & b & ->). by eexists.
  - destruct (settle_once_returns (ConnectP c) (Rejected v) e
                (set_effects (effects st ++ [FxReject (ConnectP c) v]) st))
      as (st' & b & ->). by eexists.
Qed.

Lemma reject_returns r v e st : (reject r v e st).2 = Ok tt.
Proof.
  unfold reject. rewrite bind_fx. unfold settle, bind.
  destruct (settle_once_returns r (Rejected v) e
              (set_effects (effects st ++ [FxReject r v]) st)) as (st' & b & ->).
  destruct r as [d|c|a]; try done. destruct b; [|done].
  by destruct (resume_returns a e st') as (st'' & ->).
Qed.





(* --------------------------------------------------------------------- *)
(** *** The keys of the timer map                                         *)
(* --------------------------------------------------------------------- *)

(** [#callRequest] enters its id into the timer map, whether or not the
    send succeeds. *)
Lemma callRequest_enters_key method params e st s :
  open_socket st = Some s →
  request_oid e st method ∈ dom (waitTimers (callRequest method params e st).1).
Proof.
  intros Hs. rewrite (callRequest_open _ _ _ _ s Hs). cbv zeta.
  set (oid := request_oid e st method).
  assert (∀ msg,
            inv (fun st' => oid ∈ dom (waitTimers st'))
              (options_log [VStr "sending message:"; msg] >>
               send_with_callback s msg (RequestSendCb oid)
                 (request_send_callback oid) >>
               let! st := get in
               match obj_get (waitForResp st) oid with
               | Some d' => ret d'
               | None =>
                   throw (TypeError
                     "Cannot read properties of undefined (reading 'promise')")
               end)) as Htail.
  { intros msg. inv_walk ltac:(intros st' HI; simpl; done). }
  apply Htail. apply elem_of_dom.
  destruct (registered_facts oid (wsReplyTimeout (options st))
              (set_oidSeqId (oidSeqId st + 1) st)) as (_ & Ht & _).
  by rewrite Ht.
Qed.

(** C9. Nothing ever deletes a key of [#waitTimers]: along every sequence
    of macrotasks (calls, replies, timeouts, closes, errors), from every
    state, the key set of the timer map only grows; in particular the id
    that [#callRequest] enters at request time is a key of the map in every
    later state. *)
Theorem waitTimers_keys_only_grow (tr : list (env * event)) (st : state) :
  dom (waitTimers st) ⊆ dom (waitTimers (run tr st))
  ∧ (∀ method params e s,
       open_socket st = Some s →
       request_oid e st method ∈
         dom (waitTimers (run tr (callRequest method params e st).1))).
Proof.
  split; [apply waitTimers_keys_run|].
  intros method params e s Hs.
  apply (waitTimers_keys_run tr). by eapply callRequest_enters_key.
Qed.

End Properties.

(* ===================================================================== *)
(** ** The statements on the example sessions                             *)
(* ===================================================================== *)



(** C4 fails as worded: after the close path [callPrivate] reports
    ['Not authorized'], not ['Not connected']. *)
Lemma request_after_close_is_not_NotConnected :
  ¬ stated_request_fails_NotConnected.
Proof.
  intros Hclaim.
  specialize (Hclaim example_hmac credentials
                (handshake ++ [(quiet 1700000000400, SocketClose 0 (VInt 1006))])
                true "get_my_orders" (VObj []) (quiet 1700000000500)).
  vm_compute in Hclaim. specialize (Hclaim eq_refl). discriminate Hclaim.
Qed.

(** The same session after the error path and after the close path. *)
Lemma request_without_open_transport_witness :
  let after_error :=
    (step (H:=example_hmac) (SocketError 0 (Error "ECONNRESET"))
       (quiet 1700000000400) private_session).1 in
  let after_close :=
    (step (H:=example_hmac) (SocketClose 0 (VInt 1006))
       (quiet 1700000000400) private_session).1 in
  (open_socket after_error = None ∧ isPublicClient after_error = false
   ∧ open_socket after_close = None ∧ isPublicClient after_close = false)
  ∧ callPrivate "get_my_orders" (VObj []) (quiet 1700000000500) after_error =
      (after_error, Ok (AsyncRejected (Error "Not connected")))
  ∧ callPrivate "get_my_orders" (VObj []) (quiet 1700000000500) after_close =
      (after_close, Ok (AsyncRejected (Error "Not authorized"))).
Proof.
  intros after_error after_close.
  assert (sockets private_session !! 0%nat =
          Some {| url := "wss://api.plus.cex.io/ws"; tls_rejectUnauthorized := true;
                  ready := OPEN; connecting := 0;
                  onClose := None; onError := None |}) as Hs
    by (vm_compute; reflexivity).
  destruct (request_without_open_transport (H:=example_hmac) "get_my_orders"
              (VObj []) (quiet 1700000000500) private_session)
    as (_ & Hclose & Herror).
  destruct (Hclose _ _ (VInt 1006) (quiet 1700000000400) Hs) as [Hc1 Hc2].
  destruct (Herror _ _ (Error "ECONNRESET") (quiet 1700000000400) Hs) as [He1 He2].
  fold after_close in Hc1, Hc2. fold after_error in He1, He2.
  assert (isPublicClient after_error = false) as Hp1 by (vm_compute; reflexivity).
  assert (isPublicClient after_close = false) as Hp2 by (vm_compute; reflexivity).
  split; [exact (conj He1 (conj Hp1 (conj Hc1 Hp2)))|].
  destruct (request_without_open_transport (H:=example_hmac) "get_my_orders"
              (VObj []) (quiet 1700000000500) after_error)
    as (Hreq1 & _ & _).
  destruct (request_without_open_transport (H:=example_hmac) "get_my_orders"
              (VObj []) (quiet 1700000000500) after_close)
    as (Hreq2 & _ & _).
  destruct (Hreq1 He1) as (_ & _ & Hpriv1).
  destruct (Hreq2 Hc1) as (_ & _ & Hpriv2).
  split.
  - rewrite (Hpriv1 Hp1), He2. vm_compute. reflexivity.
  - rewrite (Hpriv2 Hp2), Hc2. reflexivity.
Defined.








(** A client constructed without arguments. *)
Lemma public_iff_one_argument_witness :
  length ([] : list arg) ≠ 1%nat
  ∧ isPublicClient (constructor []) = false
  ∧ callPublic "get_ticker" (VObj []) (quiet 1700000000000) (constructor []) =
      (constructor [],
       Ok (AsyncRejected (Error "Attempt to call public method on private client"))).
Proof.
  assert (length ([] : list arg) ≠ 1%nat) as Hlen by discriminate.
  destruct (public_iff_one_argument (H:=example_hmac) []) as (_ & _ & _ & Hprivate).
  destruct (Hprivate Hlen [] "get_ticker" (VObj []) (quiet 1700000000000))
    as [Hp Hcall].
  exact (conj Hlen (conj Hp Hcall)).
Defined.

(** [callPublic('get_ticker', {})] in the public session, with a send that
    fails at once with [write EPIPE]. *)
Lemma send_failure_leaves_call_unsettled_witness :
  let e := failing 1700000000300 in
  let r := callRequest "get_ticker" (VObj []) e public_session in
  (open_socket public_session = Some 0%nat
   ∧ truthy (Error "write EPIPE") = true)
  ∧ r.2 = Throw (TypeError "Cannot read properties of undefined (reading 'reject')")
  ∧ obj_get (waitForResp r.1) ticker_oid = None
  ∧ defers r.1 !! 0%nat = Some Pending
  ∧ is_armed r.1 0 = true.
Proof.
  intros e r.
  assert (open_socket public_session = Some 0%nat) as Hs by (vm_compute; reflexivity).
  split; [exact (conj Hs eq_refl)|].
  destruct (send_failure_leaves_call_unsettled (H:=example_hmac) "get_ticker"
              (VObj []) e public_session 0 (Error "write EPIPE") Hs eq_refl)
    as (Hnow & _).
  destruct (Hnow eq_refl) as (Hr & Hgone & Hd & _ & Harmed).
  split; [exact Hr|]. split; [|split].
  - vm_compute. reflexivity.
  - vm_compute. reflexivity.
  - vm_compute. reflexivity.
Defined.

(** The id of the ticker request stays in the timer map after its reply. *)
Lemma waitTimers_keys_only_grow_witness :
  open_socket public_session = Some 0%nat
  ∧ ticker_oid ∈
      dom (waitTimers
             (run (H:=example_hmac)
                [(quiet 1700000000400, SocketMessage 0 (Ok (VObj ticker_reply)))]
                (callRequest "get_ticker" (VObj []) (quiet 1700000000300)
                   public_session).1)).
Proof.
  assert (open_socket public_session = Some 0%nat) as Hs by (vm_compute; reflexivity).
  split; [exact Hs|].
  destruct (waitTimers_keys_only_grow (H:=example_hmac)
              [(quiet 1700000000400, SocketMessage 0 (Ok (VObj ticker_reply)))]
              public_session) as [_ Hkey].
  exact (Hkey "get_ticker" (VObj []) (quiet 1700000000300) 0%nat Hs).
Defined.

(* ===================================================================== *)
(** ** Further properties of the client                                   *)
(* ===================================================================== *)

Section Coverage.
Context `{Crypto}.

(* --------------------------------------------------------------------- *)
(** *** The endpoints the constructor derives                             *)
(* --------------------------------------------------------------------- *)

Lemma substring_all (t : string) : String.substring 0 (String.length t) t = t.
Proof. induction t as [|c t IH]; simpl; [done|by rewrite IH]. Qed.

Lemma substring_append s t :
  String.substring (String.length s) (String.length t) (s +:+ t) = t.
Proof. induction s as [|c s IH]; simpl; [apply substring_all|done]. Qed.

Lemma length_append s t :
  String.length (s +:+ t) = (String.length s + String.length t)%nat.
Proof. induction s as [|c s IH]; simpl; [done|by rewrite IH]. Qed.

Lemma endsWith_append s t : endsWith (s +:+ t) t = true.
Proof.
  unfold endsWith. rewrite length_append.
  replace (String.length s + String.length t - String.length t)%nat
    with (String.length s) by lia.
  rewrite substring_append, eqb_refl'.
  destruct (_ <=? _)%nat eqn:Hle; [done|].
  apply Nat.leb_gt in Hle. lia.
Qed.

(** X1. The endpoints of a new client.  The host is the caller's [host]
    option, or ['wss://api.plus.cex.io/'], with a slash appended unless it
    ends in one, so it always ends in a slash.  The private endpoint is the
    caller's [apiUrl] when that is a non-empty string, taken as it is, and
    the host followed by ['ws'] otherwise; likewise the public endpoint with
    [apiUrlPublic] and ['ws-public'].  The reply timeout defaults to 30000
    and [rejectUnauthorized] to [true]. *)
Theorem constructor_endpoints (args : list arg) :
  let given := passed_options args in
  let o := options (constructor args) in
  let h := default "wss://api.plus.cex.io/" (opt_host given) in
  host o = (if endsWith h "/" then h else h +:+ "/")
  ∧ endsWith (host o) "/" = true
  ∧ apiUrl o =
      match opt_apiUrl given with
      | Some u => if String.eqb u EmptyString then host o +:+ "ws" else u
      | None => host o +:+ "ws"
      end
  ∧ apiUrlPublic o =
      match opt_apiUrlPublic given with
      | Some u => if String.eqb u EmptyString then host o +:+ "ws-public" else u
      | None => host o +:+ "ws-public"
      end
  ∧ wsReplyTimeout o = default 30000 (opt_wsReplyTimeout given)
  ∧ rejectUnauthorized o = default true (opt_rejectUnauthorized given)
  ∧ log o = opt_log given.
Proof.
  intros given o h.
  assert (host o = (if endsWith h "/" then h else h +:+ "/")
          ∧ apiUrl (Object_assign default_options (ArgOptions given)) =
            default EmptyString (opt_apiUrl given)
          ∧ apiUrlPublic (Object_assign default_options (ArgOptions given)) =
            default EmptyString (opt_apiUrlPublic given)
          ∧ options (constructor args) =
            options (constructor [ArgUndefined; ArgUndefined; ArgOptions given]))
    as (Hhost & Hu & Hp & Hsame).
  { subst given o h. unfold passed_options, constructor.
    destruct (bool_decide (length args = 1%nat)) eqn:Hone.
    - destruct (arguments_at args 0) as [|s|p]; simpl; done.
    - destruct (arguments_at args 2) as [|s|p]; simpl; done. }
  split; [done|]. split.
  { rewrite Hhost. destruct (endsWith h "/") eqn:Hends; [done|].
    apply endsWith_append. }
  unfold o. rewrite Hsame. unfold constructor. cbn [options arguments_at
    lookup list_lookup default length bool_decide apiUrl apiUrlPublic host
    wsReplyTimeout rejectUnauthorized log].
  simpl.
  repeat split.
  - destruct (opt_apiUrl given) as [u|]; simpl; [|done].
    by destruct (String.eqb u EmptyString).
  - destruct (opt_apiUrlPublic given) as [u|]; simpl; [|done].
    by destruct (String.eqb u EmptyString).
  - by destruct (opt_log given).
Qed.

(* --------------------------------------------------------------------- *)
(** *** The configuration                                                 *)
(* --------------------------------------------------------------------- *)

Lemma configuration_step (o : WebSocketOptions) (k s : arg) ev :
  inv (fun st => options st = o ∧ apiKey st = k ∧ apiSecret st = s) (step ev).
Proof. inv_walk ltac:(intros st HI; simpl; try done). Qed.

Lemma configuration_run tr st :
  options (run tr st) = options st ∧ apiKey (run tr st) = apiKey st
  ∧ apiSecret (run tr st) = apiSecret st.
Proof.
  apply (inv_run (fun st' => options st' = options st ∧ apiKey st' = apiKey st
                             ∧ apiSecret st' = apiSecret st)); [|done].
  intros ev. apply configuration_step.
Qed.

(** X2. No method and no callback of the class writes the options, the
    credentials or the kind of the client after the constructor: along
    every sequence of macrotasks they are what they were. *)
Theorem configuration_is_fixed (tr : list (env * event)) (st : state) :
  options (run tr st) = options st
  ∧ apiKey (run tr st) = apiKey st
  ∧ apiSecret (run tr st) = apiSecret st
  ∧ isPublicClient (run tr st) = isPublicClient st.
Proof.
  destruct (configuration_run tr st) as (Ho & Hk & Hs).
  repeat split; try done. apply isPublicClient_run.
Qed.

(* --------------------------------------------------------------------- *)
(** *** connect and disconnect                                            *)
(* --------------------------------------------------------------------- *)

(** X3. [connect()] in any state the client can reach: it opens one socket,
    to the public endpoint on a client constructed with exactly one
    argument and to the private endpoint otherwise, with the
    [rejectUnauthorized] option; that socket becomes the current one; the
    promise it returns is new and pending; its own handlers are installed
    under ['disconnected'] and ['connected'], replacing whatever was there.
    The registry, the deferreds, the timers and the authorized flag are as
    before. *)
Theorem connect_opens_configured_endpoint
    (tr : list (env * event)) (args : list arg) (onClose onError : option nat)
    (e : env) :
  let st := run tr (constructor args) in
  let o := options (constructor args) in
  let endpoint :=
    if bool_decide (length args = 1%nat) then apiUrlPublic o else apiUrl o in
  let s := length (sockets st) in
  let c := length (connects st) in
  let r := connect onClose onError e st in
  r.2 = Ok (ConnectP c)
  ∧ connects r.1 = connects st ++ [Pending]
  ∧ socket r.1 = Some s
  ∧ sockets r.1 =
      sockets st ++
      [{| url := endpoint; tls_rejectUnauthorized := rejectUnauthorized o;
          ready := CONNECTING; connecting := c;
          onClose := onClose; onError := onError |}]
  ∧ handlers r.1 =
      <["connected":=HConnected c]>
        (<["disconnected":=HDisconnected]> (handlers st))
  ∧ effects r.1 =
      effects st ++
      [FxLog (log o) [VStr "connecting to:"; VStr endpoint]; FxOpen s endpoint]
  ∧ waitForResp r.1 = waitForResp st
  ∧ defers r.1 = defers st
  ∧ timeouts r.1 = timeouts st
  ∧ isAuthorized r.1 = isAuthorized st.
Proof.
  intros st o endpoint s c r.
  destruct (configuration_run tr (constructor args)) as (Ho & _ & _).
  pose proof (isPublicClient_run tr (constructor args)) as Hp.
  fold st in Ho, Hp. fold o in Ho.
  assert (isPublicClient st = bool_decide (length args = 1%nat)) as Hkind
    by (by rewrite Hp).
  subst r. unfold connect, bind, get, modify, options_log, fx, addHandler, ret.
  simpl. rewrite Ho, Hkind. fold endpoint.
  repeat split; try done. by rewrite <- app_assoc.
Qed.

Lemma open_socket_Some st s :
  open_socket st = Some s →
  socket st = Some s ∧ ∃ ws, sockets st !! s = Some ws ∧ ready ws = OPEN.
Proof.
  unfold open_socket. destruct (socket st) as [s'|]; [|done].
  destruct (sockets st !! s') as [ws|] eqn:Hws; [|done].
  destruct (ready ws) eqn:Hr; try done. intros [= <-]. eauto.
Qed.

(** X4. [disconnect()] does nothing unless the current socket is open.  On
    an open socket it calls [close] once and touches nothing else: the
    registry, the deferreds, the timers and the authorized flag are as
    before, so calls in flight stay pending.  From then on the socket is no
    longer open: a second [disconnect()] does nothing, and [ping] and
    [#callRequest] fail with ['Not connected'] and leave the state alone. *)
Theorem disconnect_stops_requests (e : env) (st : state) :
  let st' := (disconnect e st).1 in
  (open_socket st = None → st' = st)
  ∧ (∀ s, open_socket st = Some s →
       effects st' = effects st ++ [FxCloseSocket s]
       ∧ ready <$> sockets st' !! s = Some CLOSING
       ∧ socket st' = Some s)
  ∧ waitForResp st' = waitForResp st
  ∧ defers st' = defers st
  ∧ timeouts st' = timeouts st
  ∧ isAuthorized st' = isAuthorized st
  ∧ open_socket st' = None
  ∧ (∀ e', disconnect e' st' = (st', Ok tt))
  ∧ (∀ e', ping e' st' = (st', Ok (AsyncRejected (Error "Not connected"))))
  ∧ (∀ method params e',
       callRequest method params e' st' = (st', Throw (Error "Not connected"))).
Proof.
  intros st'.
  assert (open_socket st' = None) as Hclosed.
  { subst st'. unfold disconnect. rewrite bind_get.
    destruct (open_socket st) as [s|] eqn:Hs; [|done].
    destruct (open_socket_Some st s Hs) as (Hcur & ws & Hws & _).
    unfold open_socket. simpl. rewrite Hcur, list_lookup_alter_eq, Hws. done. }
  split; [|split; [|repeat split]]; try done.
  - intros Hs. subst st'. unfold disconnect. by rewrite bind_get, Hs.
  - intros s Hs. subst st'. unfold disconnect. rewrite bind_get, Hs. simpl.
    destruct (open_socket_Some st s Hs) as (Hcur & ws & Hws & _).
    by rewrite list_lookup_alter_eq, Hws.
  - subst st'. unfold disconnect. rewrite bind_get.
    by destruct (open_socket st).
  - subst st'. unfold disconnect. rewrite bind_get.
    by destruct (open_socket st).
  - subst st'. unfold disconnect. rewrite bind_get.
    by destruct (open_socket st).
  - subst st'. unfold disconnect. rewrite bind_get.
    by destruct (open_socket st).
  - intros e'. unfold disconnect at 1. by rewrite bind_get, Hclosed.
  - intros e'. unfold ping. by rewrite bind_get, Hclosed.
  - intros method params e'. by apply callRequest_closed.
Qed.

(* --------------------------------------------------------------------- *)
(** *** Subscriptions                                                     *)
(* --------------------------------------------------------------------- *)


Lemma handlers_step (name : string) (h : option handler) ev :
  name ≠ "connected" → name ≠ "disconnected" → name ≠ "auth" →
  subscribes_to name ev = false →
  inv (fun st => handlers st !! name = h) (step ev).
Proof.
  intros H1 H2 H3 Hev.
  destruct ev; try apply String.eqb_neq in Hev;
    inv_walk ltac:(intros st HI; simpl; rewrite ?lookup_insert_ne; done).
Qed.

(** X6. The class has no way to unsubscribe and never replaces a caller's
    handler on its own, except under the three names it uses itself: for
    every other name, along every sequence of macrotasks that holds no
    [subscribe] for that name, the handler stored under the name is the
    same at the end as at the start. *)
Theorem subscription_is_never_dropped
    (name : string) (tr : list (env * event)) (st : state) :
  name ≠ "connected" → name ≠ "disconnected" → name ≠ "auth" →
  Forall (fun x => subscribes_to name x.2 = false) tr →
  handlers (run tr st) !! name = handlers st !! name.
Proof.
  intros H1 H2 H3. revert st.
  induction tr as [|[e ev] tr IH]; intros st Htr; [done|].
  apply Forall_cons in Htr as [Hev Htr]. simpl.
  rewrite IH; [|done]. by apply (handlers_step name _ ev).
Qed.

(* --------------------------------------------------------------------- *)
(** *** The server's notice of disconnection                              *)
(* --------------------------------------------------------------------- *)

Lemma sockets_cancel_fold reason l st :
  sockets (foldl (cancel_entry reason) st l) = sockets st
  ∧ socket (foldl (cancel_entry reason) st l) = socket st
  ∧ isAuthorized (foldl (cancel_entry reason) st l) = isAuthorized st
  ∧ connects (foldl (cancel_entry reason) st l) = connects st.
Proof.
  revert st. induction l as [|entry l IH]; intros st; [done|].
  cbn [foldl]. destruct (IH (cancel_entry reason st entry)) as (-> & -> & -> & ->).
  unfold cancel_entry, cleared, rejected, settled. cbv zeta. simpl.
  destruct (defers st !! entry.2) as [[]|]; simpl;
    by destruct (waitTimers st !! entry.1).
Qed.


(* --------------------------------------------------------------------- *)
(** *** The promise of connect() when the socket goes                      *)
(* --------------------------------------------------------------------- *)

Lemma listener_tail_connects c cb err e st :
  let st' := (listener_tail c cb err e st).1 in
  connects st' =
    match connects st !! c with
    | Some Pending => <[c:=Rejected err]> (connects st)
    | _ => connects st
    end.
Proof.
  unfold listener_tail, reject, settle, settle_once, bind, fx, get, modify, ret.
  simpl. by destruct (connects st !! c) as [[]|], cb.
Qed.

(** X8. When a socket the client created closes or errors, in any state
    the client can reach: the client forgets its current socket, whichever
    of its sockets the event came from; the [connect()] promise of that
    socket is rejected with the event's argument if it was still pending,
    and keeps its outcome otherwise; no other [connect()] promise changes;
    and the caller's [onClose] (for a close) or [onError] (for an error),
    if one was given to that [connect()], is the last thing called, with
    the same argument. *)
Theorem socket_end_settles_connect
    (tr : list (env * event)) (args : list arg) (by_error : bool)
    (s : nat) (ws : WebSocket) (err : value) (e : env) :
  let st := run tr (constructor args) in
  let st' := (step (listener_event by_error s err) e st).1 in
  let c := connecting ws in
  let callback := if by_error then onError ws else onClose ws in
  sockets st !! s = Some ws →
  socket st' = None
  ∧ (connects st !! c = Some Pending → connects st' !! c = Some (Rejected err))
  ∧ (∀ o, connects st !! c = Some o → o ≠ Pending → connects st' !! c = Some o)
  ∧ (∀ c', c' ≠ c → connects st' !! c' = connects st !! c')
  ∧ (∀ f, callback = Some f → last (effects st') = Some (FxCall f [err]))
  ∧ (callback = None → last (effects st') = Some (FxReject (ConnectP c) err)).
Proof.
  intros st st' c callback Hs.
  pose proof (registry_ok_reachable tr args) as Hok. fold st in Hok.
  unfold st'. rewrite (step_listener_eq _ _ ws); [|done|apply Hok].
  set (st1 := listener_start by_error s st).
  set (st2 := foldl _ st1 _).
  fold c callback.
  destruct (listener_tail_frame c callback err e st2)
    as (_ & _ & _ & _ & Hsock & _ & Hfx).
  pose proof (listener_tail_connects c callback err e st2) as Hc.
  cbv zeta in Hc.
  destruct (sockets_cancel_fold (closing_reason err) (waitForResp st) st1)
    as (_ & Hsock2 & _ & Hc2).
  fold st2 in Hsock2, Hc2.
  assert (connects st1 = connects st ∧ socket st1 = None) as [Hc1 Hsock1]
    by (by destruct by_error).
  rewrite Hc2, Hc1 in Hc.
  split; [by rewrite Hsock, Hsock2|].
  split; [|split; [|split; [|split]]].
  - intros Hp. rewrite Hc, Hp. apply list_lookup_insert_eq.
    by eapply lookup_lt_Some.
  - intros o Ho Hne. rewrite Hc, Ho. by destruct o.
  - intros c' Hne. rewrite Hc.
    destruct (connects st !! c) as [[]|]; try done.
    by rewrite list_lookup_insert_ne.
  - intros f Hf. rewrite Hfx, Hf.
    by rewrite last_app.
  - intros Hnone. rewrite Hfx, Hnone. by rewrite last_app.
Qed.

(* --------------------------------------------------------------------- *)
(** *** A handshake that cannot be sent                                   *)
(* --------------------------------------------------------------------- *)

(** The ['connected'] handler on a private client with an open socket:
    the handshake promise is created and the ['auth'] handler installed;
    then the signature, the send, and the [await]. *)
Lemma on_connected_private c e st s :
  isPublicClient st = false →
  open_socket st = Some s →
  on_connected c e st =
  let a := length (auths st) in
  (try_catch
     (let! signature := createSignature (Num (now e) 3) in
      send_with_callback s
        (VObj [("e", VStr "auth");
               ("auth", VObj [("key", arg_value (apiKey st));
                              ("signature", VStr signature);
                              ("timestamp", VNum (Num (now e) 3))]);
               ("oid", VStr "auth")])
        (AuthSendCb a) (auth_send_callback a))
     (fun err => reject (AuthP a) err) >>
   await_auth a c) e
    (set_handlers (<["auth":=HAuth a]> (handlers st))
       (set_auths (auths st ++ [Pending]) st)).
Proof.
  intros Hpriv Hs. unfold on_connected. rewrite bind_get, Hpriv. unfold auth.
  rewrite bind_assoc, bind_get, bind_assoc, bind_modify, bind_assoc.
  rewrite Hs. unfold bind at 1, try_catch, addHandler.
  rewrite bind_modify, bind_ask. cbv zeta.
  reflexivity.
Qed.

Lemma frames_sent_app l1 l2 :
  frames_sent (l1 ++ l2) = frames_sent l1 ++ frames_sent l2.
Proof. unfold frames_sent. apply omap_app. Qed.

(** The [catch] clause of the ['connected'] handler, once the handshake
    promise is rejected. *)
Lemma resume_rejected a v e st :
  auths st !! a = Some (Rejected v) →
  ∃ st1, resume a e st = (st1, Ok tt)
    ∧ auths st1 = auths st
    ∧ awaiting st1 = awaiting st
    ∧ isAuthorized st1 = isAuthorized st
    ∧ frames_sent (effects st1) = frames_sent (effects st)
    ∧ ∀ c, connects st !! c = Some Pending ∨ connects st !! c = Some (Rejected v) →
           (connects st1 !! c = Some Pending ∨ connects st1 !! c = Some (Rejected v))
           ∧ (awaiting st !! a = Some c → connects st1 !! c = Some (Rejected v)).
Proof.
  intros Ha. unfold resume. rewrite bind_get, Ha.
  destruct (awaiting st !! a) as [c0|] eqn:Haw.
  - rewrite bind_fx. unfold settle_once, bind, get, modify, ret.
    cbn [promise connects set_effects].
    destruct (connects st !! c0) as [o|] eqn:Hc0; [destruct o|].
    + eexists. split; [done|]. cbn.
      rewrite frames_sent_app. cbn. rewrite app_nil_r.
      repeat split; try done.
      * destruct (decide (c = c0)) as [->|Hne].
        -- right. apply list_lookup_insert_eq. by eapply lookup_lt_Some.
        -- by rewrite list_lookup_insert_ne.
      * intros [= <-]. apply list_lookup_insert_eq. by eapply lookup_lt_Some.
    + eexists. split; [done|]. cbn.
      rewrite frames_sent_app. cbn. rewrite app_nil_r.
      repeat split; try done. intros [= <-]. destruct H0; congruence.
    + eexists. split; [done|]. cbn.
      rewrite frames_sent_app. cbn. rewrite app_nil_r.
      repeat split; try done. intros [= <-]. destruct H0; congruence.
    + eexists. split; [done|]. cbn.
      rewrite frames_sent_app. cbn. rewrite app_nil_r.
      repeat split; try done. intros [= <-]. destruct H0; congruence.
  - eexists. split; [done|]. repeat split; try done.
Qed.

Lemma reject_auth_pending a v e st :
  auths st !! a = Some Pending →
  ∃ st1, reject (AuthP a) v e st = (st1, Ok tt)
    ∧ auths st1 !! a = Some (Rejected v)
    ∧ awaiting st1 = awaiting st
    ∧ isAuthorized st1 = isAuthorized st
    ∧ frames_sent (effects st1) = frames_sent (effects st)
    ∧ ∀ c, connects st !! c = Some Pending →
           (connects st1 !! c = Some Pending ∨ connects st1 !! c = Some (Rejected v))
           ∧ (awaiting st !! a = Some c → connects st1 !! c = Some (Rejected v)).
Proof.
  intros Ha.
  assert (a < length (auths st))%nat as Hlt by (by eapply lookup_lt_Some).
  unfold reject. rewrite bind_fx. unfold settle, settle_once.
  unfold bind at 1. rewrite bind_get. cbn [promise auths set_effects].
  rewrite Ha, bind_modify. cbn [ret].
  set (st0 := set_promise _ _ _).
  assert (auths st0 !! a = Some (Rejected v)) as Ha0
    by (by apply list_lookup_insert_eq).
  destruct (resume_rejected a v e st0 Ha0)
    as (st1 & -> & Hauths & Haw & Hflag & Hsent & Hconn).
  exists st1. split; [done|]. split; [by rewrite Hauths|].
  split; [done|]. split; [done|]. split.
  - rewrite Hsent. unfold st0. cbn. rewrite frames_sent_app. cbn.
    by rewrite app_nil_r.
  - intros c Hc. apply Hconn. by left.
Qed.

(** A handshake promise that is rejected before the ['connected'] handler
    reaches its [await]: the [catch] clause rejects [connect()]. *)
Lemma reject_then_await a c v e st :
  auths st !! a = Some Pending →
  connects st !! c = Some Pending →
  let r := (reject (AuthP a) v >> await_auth a c) e st in
  r.2 = Ok tt
  ∧ connects r.1 !! c = Some (Rejected v)
  ∧ auths r.1 !! a = Some (Rejected v)
  ∧ isAuthorized r.1 = isAuthorized st
  ∧ frames_sent (effects r.1) = frames_sent (effects st).
Proof.
  intros Ha Hc. cbv zeta. unfold bind.
  destruct (reject_auth_pending a v e st Ha)
    as (st1 & -> & Ha1 & Haw1 & Hflag1 & Hsent1 & Hconn1).
  destruct (Hconn1 c Hc) as [Hc1 _].
  unfold await_auth. rewrite bind_modify, bind_get.
  cbn [auths set_awaiting]. rewrite Ha1.
  set (st2 := set_awaiting _ _).
  destruct (resume_rejected a v e st2 Ha1)
    as (st3 & -> & Hauths & _ & Hflag & Hsent & Hconn).
  destruct (Hconn c Hc1) as [_ Hc3]. cbn [fst snd].
  split; [done|]. split; [apply Hc3, lookup_insert_eq|].
  split; [by rewrite Hauths|]. split; [by rewrite Hflag|].
  by rewrite Hsent.
Qed.

(** X9. A handshake whose frame the transport refuses.  If the callback of
    [send] reports an error, the handshake promise is rejected with it, and
    through the [catch] clause of the ['connected'] handler so is
    [connect()]; the authorized flag is left alone.  This holds whether the
    callback runs before [send] returns or in a later macrotask. *)
Theorem auth_send_failure_rejects_connect
    (c s : nat) (secret : string) (err : value) (e : env) (st : state) :
  truthy err = true →
  connects st !! c = Some Pending →
  (isPublicClient st = false →
   open_socket st = Some s →
   apiSecret st = ArgString secret →
   transport_send e = CallbackNow err →
   let st' := (on_connected c e st).1 in
   connects st' !! c = Some (Rejected err)
   ∧ isAuthorized st' = isAuthorized st)
  ∧ (∀ a, auths st !! a = Some Pending →
          awaiting st !! a = Some c →
          let st' := (step (SendCallback (AuthSendCb a) err) e st).1 in
          connects st' !! c = Some (Rejected err)
          ∧ auths st' !! a = Some (Rejected err)
          ∧ isAuthorized st' = isAuthorized st).
Proof.
  intros Herr Hc. split.
  - intros Hpriv Hs Hsecret Hsend st'.
    set (a := length (auths st)).
    set (st0 := set_handlers (<["auth":=HAuth a]> (handlers st))
                  (set_auths (auths st ++ [Pending]) st)).
    set (st1 := set_effects
                  (effects st0 ++
                   [FxSend s (auth_frame (apiKey st) secret (now e))
                      (Some (AuthSendCb a))]) st0).
    assert (st' = ((reject (AuthP a) err >> await_auth a c) e st1).1) as ->.
    { subst st'. rewrite (on_connected_private c e st s Hpriv Hs). cbv zeta.
      fold a st0. unfold bind at 1, try_catch. unfold createSignature.
      rewrite bind_assoc, bind_get.
      replace (apiSecret st0) with (ArgString secret) by (by rewrite <- Hsecret).
      rewrite bind_ret, send_with_callback_now with (err := err) by done.
      unfold auth_send_callback. rewrite Herr.
      change (set_effects _ st0) with st1. unfold bind.
      pose proof (reject_returns (AuthP a) err e st1) as Hret.
      by destruct (reject (AuthP a) err e st1) as [st2 [[]|v]]. }
    destruct (reject_then_await a c err e st1) as (_ & Hconn & _ & Hflag & _);
      [|done|done].
    unfold st1, st0. cbn. by rewrite lookup_app_r, Nat.sub_diag.
  - intros a Ha Haw st'. subst st'. simpl. unfold auth_send_callback.
    rewrite Herr, bind_fst.
    rewrite (settle_handshake a c false err e st Ha Haw Hc).
    destruct (handshake_settled_facts a c false err st Hc) as [Hconn Hflag].
    split; [exact Hconn|]. split; [|exact Hflag]. cbn.
    apply list_lookup_insert_eq. by eapply lookup_lt_Some.
Qed.

(** X10. A private client whose secret is not a string, as after
    [new WebsocketClient()] or [new WebsocketClient(key, undefined)]: when
    the server greets it, [crypto.createHmac] throws inside the executor of
    the handshake promise, so nothing is sent, and [connect()] is rejected
    with what was thrown. *)
Theorem handshake_without_secret_rejects_connect
    (c s : nat) (e : env) (st : state) :
  isPublicClient st = false →
  open_socket st = Some s →
  (∀ secret, apiSecret st ≠ ArgString secret) →
  connects st !! c = Some Pending →
  let st' := (on_connected c e st).1 in
  (∃ msg, connects st' !! c = Some (Rejected (TypeError msg)))
  ∧ frames_sent (effects st') = frames_sent (effects st)
  ∧ isAuthorized st' = isAuthorized st.
Proof.
  intros Hpriv Hs Hsecret Hc st'.
  set (a := length (auths st)).
  set (st0 := set_handlers (<["auth":=HAuth a]> (handlers st))
                (set_auths (auths st ++ [Pending]) st)).
  assert (∃ msg, st' =
            ((reject (AuthP a) (TypeError msg) >> await_auth a c) e st0).1)
    as [msg ->].
  { pose proof (on_connected_private c e st s Hpriv Hs) as Heq.
    cbv zeta in Heq. fold a st0 in Heq.
    unfold bind at 1, try_catch, createSignature in Heq.
    rewrite bind_assoc, bind_get in Heq.
    change (apiSecret st0) with (apiSecret st) in Heq.
    destruct (apiSecret st) as [|secret|o] eqn:Hsec;
      [|by destruct (Hsecret secret)|]; cbn [bind throw] in Heq;
      match type of Heq with
      | context [reject ?r (TypeError ?m) e st0] =>
          exists m; subst st'; rewrite Heq; unfold bind;
          pose proof (reject_returns r (TypeError m) e st0) as Hret;
          destruct (reject r (TypeError m) e st0) as [st2 [[]|v']];
          [reflexivity|done]
      end. }
  destruct (reject_then_await a c (TypeError msg) e st0)
    as (_ & Hconn & _ & Hflag & Hsent); [|done|].
  { unfold st0. cbn. by rewrite lookup_app_r, Nat.sub_diag. }
  split; [by exists msg|]. by rewrite Hsent, Hflag.
Qed.

(* --------------------------------------------------------------------- *)
(** *** Public clients                                                    *)
(* --------------------------------------------------------------------- *)

Ltac public_leaf :=
  let st := fresh "st" in
  let Hpub := fresh "Hpub" in
  let Hflag := fresh "Hflag" in
  let Hauths := fresh "Hauths" in
  let Hh := fresh "Hh" in
  let Hfx := fresh "Hfx" in
  intros st (Hpub & Hflag & Hauths & Hh & Hfx);
  repeat split; simpl; rewrite ?Hauths, ?existsb_app, ?Hfx; try done;
  try (let k := fresh "k" in
       let a := fresh "a" in
       let Hk := fresh "Hk" in
       intros k a Hk; apply lookup_insert_Some in Hk as [[_ ?]|[_ Hk]];
       [done|by eapply Hh]).

Lemma public_client_ok_fx x st :
  is_auth_send x = false →
  public_client_ok st → public_client_ok (set_effects (effects st ++ [x]) st).
Proof.
  intros Hx (Hpub & Hflag & Hauths & Hh & Hfx). repeat split; try done.
  simpl. by rewrite existsb_app, Hfx; simpl; rewrite Hx.
Qed.

Lemma public_client_ok_on_disconnected : inv public_client_ok on_disconnected.
Proof. inv_walk public_leaf. Qed.

Lemma public_client_ok_resolve_connect c v :
  inv public_client_ok (resolve (ConnectP c) v).
Proof. inv_walk public_leaf. Qed.

Lemma public_client_ok_handleMessage parsed :
  inv public_client_ok (handleMessage parsed).
Proof.
  intros e st HK. unfold handleMessage.
  destruct parsed as [message|v]; [|done].
  rewrite bind_lift_Ok, bind_options_log.
  assert (public_client_ok (logged [VStr "incoming message:"; message] st)) as HK1
    by (by apply public_client_ok_fx).
  set (st1 := logged _ st) in *.
  destruct (getProp message "e") as [ev|v]; [|done].
  rewrite bind_lift_Ok, bind_get.
  destruct (handlers st1 !! ToString ev) as [h|] eqn:Hh.
  - destruct h as [|c|a|f]; simpl.
    + by apply public_client_ok_on_disconnected.
    + unfold on_connected. rewrite bind_get.
      destruct HK1 as (Hpub & HK1'). rewrite Hpub.
      by apply public_client_ok_resolve_connect.
    + by destruct HK1 as (_ & _ & _ & Hno & _); destruct (Hno _ _ Hh).
    + by apply public_client_ok_fx.
  - match goal with
    | |- public_client_ok (?m e st1).1 =>
        assert (inv public_client_ok m) as Hm by (inv_walk public_leaf)
    end.
    by apply Hm.
Qed.

#[local] Hint Resolve public_client_ok_handleMessage : inv_db.

Lemma public_client_ok_step ev : inv public_client_ok (step ev).
Proof. inv_walk public_leaf. Qed.

(** X11. A public client never authenticates.  In every state a client
    constructed with exactly one argument can reach, it is not authorized
    and has sent no handshake frame; and the server's greeting, while the
    handler that [connect] installed is in place, fulfils a pending
    [connect()] at once, without anything being sent. *)
Theorem public_client_connects_without_handshake
    (tr : list (env * event)) (args : list arg) :
  length args = 1%nat →
  let st := run tr (constructor args) in
  isAuthorized st = false
  ∧ existsb is_auth_send (effects st) = false
  ∧ (∀ props s ws c e,
       sockets st !! s = Some ws →
       event_name props = "connected" →
       handlers st !! "connected" = Some (HConnected c) →
       connects st !! c = Some Pending →
       let st' := (step (SocketMessage s (Ok (VObj props))) e st).1 in
       connects st' !! c = Some (Fulfilled VUndefined)
       ∧ frames_sent (effects st') = frames_sent (effects st)).
Proof.
  intros Hone st.
  assert (public_client_ok st) as (Hpub & Hflag & _ & _ & Hfx).
  { apply inv_run; [apply public_client_ok_step|].
    unfold constructor, public_client_ok. simpl.
    by rewrite bool_decide_eq_true. }
  split; [done|]. split; [done|].
  intros props s ws c e Hs Hname Hh Hc st'. subst st'.
  simpl. unfold with_socket. rewrite bind_get, Hs, bind_fst.
  rewrite (handleMessage_handler props e st (HConnected c)) by (by rewrite Hname).
  simpl. unfold on_connected. rewrite bind_get. cbn [isPublicClient logged set_effects].
  rewrite Hpub.
  unfold resolve, settle, settle_once, bind, fx, get, modify, ret. simpl.
  rewrite Hc. simpl. split.
  - apply list_lookup_insert_eq. by eapply lookup_lt_Some.
  - rewrite !frames_sent_app. simpl. by rewrite !app_nil_r.
Qed.

(* --------------------------------------------------------------------- *)
(** *** A request and its reply                                           *)
(* --------------------------------------------------------------------- *)




(* --------------------------------------------------------------------- *)
(** *** Frames that are not objects                                       *)
(* --------------------------------------------------------------------- *)

(** X13. What comes in need not be a JSON object.  A text [JSON.parse]
    rejects makes the ['message'] listener throw before anything is logged
    or changed.  The frame [null] is logged and then makes the listener
    throw a [TypeError] on [message.e].  A boolean, a number, a string or
    an array is logged and, unless a handler is subscribed under the name
    ['undefined'], logged again as ignored; nothing else changes. *)
Theorem frames_that_are_not_objects
    (s : nat) (ws : WebSocket) (e : env) (st : state) :
  sockets st !! s = Some ws →
  (∀ v, step (SocketMessage s (Throw v)) e st = (st, Throw v))
  ∧ step (SocketMessage s (Ok VNull)) e st =
      (logged [VStr "incoming message:"; VNull] st,
       Throw (TypeError "Cannot read properties of null (reading 'e')"))
  ∧ (∀ message,
       is_json_scalar_or_array message = true →
       handlers st !! "undefined" = None →
       step (SocketMessage s (Ok message)) e st =
       (logged [VStr "Ignoring ws message because of unknown message format";
                message]
          (logged [VStr "incoming message:"; message] st), Ok Undefined)).
Proof.
  intros Hs. split; [|split].
  - intros v. simpl. unfold with_socket. by rewrite bind_get, Hs.
  - simpl. unfold with_socket. by rewrite bind_get, Hs.
  - intros message Hm Hh. simpl. unfold with_socket. rewrite bind_get, Hs.
    unfold handleMessage, bind, lift, options_log, get, fx, modify.
    destruct message; try done; simpl; by rewrite Hh.
Qed.

(* --------------------------------------------------------------------- *)
(** *** Deferreds that have left the registry                             *)
(* --------------------------------------------------------------------- *)

Lemma orphaned_frame d st st' :
  orphaned d st →
  defers st' !! d = defers st !! d →
  (∀ d', d' ∈ (waitForResp st').*2 → d' ∈ (waitForResp st).*2) →
  orphaned d st'.
Proof.
  intros [Hd Hno] Hd' Hsub. split; [by rewrite Hd'|]. intros Hin. by apply Hno, Hsub.
Qed.

Lemma obj_delete_values (o : list (string * nat)) k d :
  d ∈ (obj_delete o k).*2 → d ∈ o.*2.
Proof.
  intros Hin. apply list_elem_of_fmap in Hin as [[k' d'] [-> Hin]].
  apply obj_delete_elem in Hin as [Hin _].
  apply list_elem_of_fmap. by exists (k', d').
Qed.

Lemma obj_get_value (o : list (string * nat)) k d :
  obj_get o k = Some d → d ∈ o.*2.
Proof.
  intros Hget. apply obj_get_Some_elem in Hget.
  apply list_elem_of_fmap. by exists (k, d).
Qed.

Lemma defers_settled_other d d0 o st :
  d0 ≠ d → defers (settled d0 o st) !! d = defers st !! d.
Proof.
  intros Hne. unfold settled.
  destruct (defers st !! d0) as [[]|]; try done.
  simpl. by rewrite list_lookup_insert_ne.
Qed.

Lemma orphaned_settled d d0 o st :
  orphaned d st → d0 ∈ (waitForResp st).*2 → orphaned d (settled d0 o st).
Proof.
  intros HO Hd0. apply (orphaned_frame d st); [done| |].
  - apply defers_settled_other. intros ->. by destruct HO.
  - intros d'. by destruct (settled_frame d0 o st) as [-> _].
Qed.

Lemma orphaned_fx d x st :
  orphaned d st → orphaned d (set_effects (effects st ++ [x]) st).
Proof. intros HO. by apply (orphaned_frame d st). Qed.

Lemma orphaned_delete d k st :
  orphaned d st →
  orphaned d (set_waitForResp (obj_delete (waitForResp st) k) st).
Proof.
  intros HO. apply (orphaned_frame d st); [done|done|].
  intros d'. apply obj_delete_values.
Qed.

Lemma orphaned_cleared d h st : orphaned d st → orphaned d (cleared h st).
Proof.
  intros HO. apply (orphaned_frame d st); [done| |].
  - by rewrite defers_cleared.
  - by rewrite waitForResp_cleared.
Qed.

Lemma orphaned_rejected d d0 v st :
  orphaned d st → d0 ∈ (waitForResp st).*2 → orphaned d (rejected d0 v st).
Proof.
  intros HO Hd0. unfold rejected. apply orphaned_settled; [by apply orphaned_fx|done].
Qed.

Lemma orphaned_resolved d d0 v st :
  orphaned d st → d0 ∈ (waitForResp st).*2 → orphaned d (resolved d0 v st).
Proof.
  intros HO Hd0. unfold resolved. apply orphaned_settled; [by apply orphaned_fx|done].
Qed.

Ltac orphan_leaf :=
  let st := fresh "st" in
  let HO := fresh "HO" in
  intros st HO;
  first [ apply (orphaned_frame _ st); [exact HO|simpl; done..] | idtac ].

Lemma orphaned_cancelOidReply d oid reason :
  inv (orphaned d) (cancelOidReply oid reason).
Proof.
  intros e st HO. rewrite cancelOidReply_eq. cbn [fst].
  assert (orphaned d
            match obj_get (waitForResp st) oid with
            | Some d0 =>
                set_waitForResp (obj_delete (waitForResp st) oid)
                  (rejected d0 (cancellation oid reason) st)
            | None => st
            end) as HO1.
  { destruct (obj_get (waitForResp st) oid) as [d0|] eqn:Hget; [|done].
    rewrite <- (waitForResp_rejected d0 (cancellation oid reason) st).
    apply orphaned_delete, orphaned_rejected; [done|by eapply obj_get_value]. }
  destruct (waitTimers st !! oid); [by apply orphaned_cleared|done].
Qed.

Lemma orphaned_cancelAllOidReplies d err :
  inv (orphaned d) (cancelAllOidReplies err).
Proof.
  unfold cancelAllOidReplies. apply inv_bind; [apply inv_get|]. intros st0.
  apply inv_forEach. intros oid e st HO. rewrite bind_get.
  destruct (obj_get (waitForResp st) oid) as [d0|] eqn:Hget; [|done].
  rewrite bind_reject_DeferP, bind_modify, bind_get, clearTimeout_eq.
  apply orphaned_cleared, orphaned_delete, orphaned_rejected;
    [done|by eapply obj_get_value].
Qed.

Lemma orphaned_unregistered d key st :
  orphaned d st → orphaned d (unregistered key st).
Proof. intros HO. by apply orphaned_cleared, orphaned_delete. Qed.

Lemma orphaned_handleOidReply d message :
  inv (orphaned d) (handleOidReply message).
Proof.
  intros e st HO.
  destruct (getProp message "oid") as [oid|v] eqn:Hoid;
    [|by unfold handleOidReply; rewrite Hoid].
  destruct (obj_get (waitForResp st) (ToString oid)) as [p|] eqn:Hget.
  - rewrite (handleOidReply_present _ oid p); [|done|done]. cbv zeta.
    assert (p ≠ d) as Hne.
    { intros ->. destruct HO as [_ Hno]. by apply Hno, (obj_get_value _ (ToString oid)). }
    pose proof (orphaned_unregistered d (ToString oid) st HO) as HO1.
    destruct (getProp message "ok") as [ok|v]; [|done].
    destruct (getProp message "data") as [data|v]; [|done].
    destruct (strict_eq_str ok "ok").
    + cbn [fst]. unfold resolved. apply (orphaned_frame d (unregistered (ToString oid) st)).
      * done.
      * by rewrite defers_settled_other.
      * intros d'. by destruct (settled_frame p (Fulfilled data)
          (set_effects (effects (unregistered (ToString oid) st) ++
                        [FxResolve (DeferP p) data])
             (unregistered (ToString oid) st))) as [-> _].
    + destruct (getProp data "error") as [error|v]; [|done].
      cbn [fst]. unfold rejected. apply (orphaned_frame d (unregistered (ToString oid) st)).
      * done.
      * by rewrite defers_settled_other.
      * intros d'. by destruct (settled_frame p (Rejected error)
          (set_effects (effects (unregistered (ToString oid) st) ++
                        [FxReject (DeferP p) error])
             (unregistered (ToString oid) st))) as [-> _].
  - rewrite (handleOidReply_absent _ oid); [|done|done]. by apply orphaned_fx.
Qed.

Lemma orphaned_request_send_callback d oid err :
  inv (orphaned d) (request_send_callback oid err).
Proof.
  intros e st HO. rewrite request_send_callback_eq.
  destruct (truthy err); [|done]. by apply orphaned_delete.
Qed.

Lemma orphaned_registered d oid ms st :
  orphaned d st → orphaned d (registered oid ms st).
Proof.
  intros [Hd Hno].
  assert (d < length (defers st))%nat as Hlt by (by eapply lookup_lt_Some).
  split; simpl.
  - by rewrite lookup_app_l.
  - intros Hin. apply list_elem_of_fmap in Hin as [[k d'] [Heq Hin]].
    simpl in Heq. subst d'. apply obj_set_elem in Hin as [[= _ ->]|Hin]; [lia|].
    apply Hno. apply list_elem_of_fmap. by exists (k, d).
Qed.

#[local] Hint Resolve orphaned_cancelOidReply orphaned_cancelAllOidReplies
  orphaned_handleOidReply orphaned_request_send_callback : inv_db.

Lemma orphaned_callRequest d method params :
  inv (orphaned d) (callRequest method params).
Proof.
  intros e st HO. destruct (open_socket st) as [s|] eqn:Hs.
  - rewrite (callRequest_open _ _ _ _ s Hs). cbv zeta.
    match goal with
    | |- orphaned d (?m e ?s0).1 =>
        assert (inv (orphaned d) m) as Htail by (inv_walk orphan_leaf)
    end.
    apply Htail, orphaned_registered. by apply (orphaned_frame d st).
  - by rewrite callRequest_closed.
Qed.

#[local] Hint Resolve orphaned_callRequest : inv_db.

Lemma orphaned_step d ev : inv (orphaned d) (step ev).
Proof. inv_walk orphan_leaf. Qed.

Lemma registered_values_bound st oid d :
  registry_ok st → (oid, d) ∈ waitForResp st → (d < length (defers st))%nat.
Proof.
  intros Hok Hin. eapply lookup_lt_Some. by eapply (ok_pending st Hok).
Qed.

(** X14. The consequence of a refused send for the caller.  The registry
    holds the only references to a call's [resolve] and [reject]; the
    callback of a failed send deletes the entry without using them.  So in
    every state the client can reach, after a call whose send the
    transport refuses, at once or in a later macrotask, the call's
    deferred is pending and stays pending whatever happens next: no reply,
    no timeout and no close of the socket settles it. *)
Theorem refused_send_leaves_promise_pending_forever
    (tr tr' : list (env * event)) (args : list arg)
    (method : string) (params : value) (s : nat) (err : value) (e e' : env) :
  let st := run tr (constructor args) in
  let d := length (defers st) in
  let st1 := (callRequest method params e st).1 in
  open_socket st = Some s →
  truthy err = true →
  (transport_send e = CallbackNow err →
   defers (run tr' st1) !! d = Some Pending)
  ∧ (transport_send e = CallbackLater →
     let callback := SendCallback (RequestSendCb (request_oid e st method)) err in
     defers (run tr' (step callback e' st1).1) !! d = Some Pending).
Proof.
  intros st d st1 Hs Herr.
  pose proof (registry_ok_reachable tr args) as Hok. fold st in Hok.
  set (oid := request_oid e st method).
  set (st0 := requested s method params e st).
  assert (orphaned d (set_waitForResp (obj_delete (waitForResp st0) oid) st0)) as HO.
  { destruct (requested_facts s method params e st) as (Hd & _ & _ & _).
    split; [done|]. cbn [waitForResp set_waitForResp].
    intros Hin. apply list_elem_of_fmap in Hin as [[k d'] [Heq Hin]].
    simpl in Heq. subst d'. apply obj_delete_elem in Hin as [Hin Hk].
    unfold st0, requested, logged, registered in Hin. simpl in Hin.
    apply obj_set_elem in Hin as [[= ->]|Hin]; [done|].
    apply (registered_values_bound st k d Hok) in Hin. unfold d in Hin. lia. }
  split.
  - intros Hsend. unfold st1.
    rewrite (callRequest_send_fails_now _ _ _ _ s err); [|done..].
    cbv zeta. cbn [fst]. fold oid st0.
    by apply (inv_run (orphaned d) (orphaned_step d)).
  - intros Hsend callback. unfold st1, callback.
    rewrite (callRequest_send_later _ _ _ _ s); [|done..]. cbn [fst].
    fold st0. simpl. rewrite bind_fst, request_send_callback_eq, Herr.
    fold oid.
    by apply (inv_run (orphaned d) (orphaned_step d)).
Qed.

(* --------------------------------------------------------------------- *)
(** *** Every pending call has a live timer                               *)
(* --------------------------------------------------------------------- *)

Lemma timers_ok_frame st st' :
  timers_ok st →
  waitTimers st' = waitTimers st →
  timeouts st' = timeouts st →
  options st' = options st →
  (∀ k d, (k, d) ∈ waitForResp st' → (k, d) ∈ waitForResp st) →
  timers_ok st'.
Proof.
  intros [H1 H2 H3] Hw Ht Ho Hsub. split.
  - intros k t. rewrite Hw, Ht. apply H1.
  - intros k d Hin. unfold is_armed. rewrite Hw, Ht. by eapply H2, Hsub.
  - intros t tm. rewrite Ht, Ho. apply H3.
Qed.

(** Removing the entries of one id, and clearing timers of that id. *)
Lemma timers_ok_unregister st st' oid :
  timers_ok st →
  waitTimers st' = waitTimers st →
  options st' = options st →
  (∀ k d, (k, d) ∈ waitForResp st' → (k, d) ∈ waitForResp st ∧ k ≠ oid) →
  (∀ t, timeouts st' !! t = timeouts st !! t
        ∨ ∃ tm, timeouts st !! t = Some tm ∧ timeout_oid tm = oid
                ∧ timeouts st' !! t = Some (disarm tm)) →
  timers_ok st'.
Proof.
  intros [H1 H2 H3] Hw Ho Hsub Ht. split.
  - intros k t. rewrite Hw. intros Hk.
    destruct (H1 k t Hk) as (tm & Htm & Hoid).
    destruct (Ht t) as [->|(tm' & Htm' & _ & ->)]; [by exists tm|].
    exists (disarm tm'). split; [done|]. simpl. congruence.
  - intros k d Hin. destruct (Hsub k d Hin) as [Hin' Hne].
    destruct (H2 k d Hin') as (t & Hk & Harmed). exists t.
    rewrite Hw. split; [done|]. unfold is_armed in *.
    destruct (Ht t) as [->|(tm' & Htm' & Hoid' & _)]; [done|].
    destruct (H1 k t Hk) as (tm & Htm & Hoid). congruence.
  - intros t tm. rewrite Ho.
    destruct (Ht t) as [->|(tm' & Htm' & _ & ->)]; [apply H3|].
    intros [= <-]. simpl. by eapply H3.
Qed.

Lemma alter_disarm_cases (l : list timeout) (t t0 : nat) (oid : string) :
  (∀ tm, l !! t = Some tm → timeout_oid tm = oid) →
  alter disarm t l !! t0 = l !! t0
  ∨ ∃ tm, l !! t0 = Some tm ∧ timeout_oid tm = oid
          ∧ alter disarm t l !! t0 = Some (disarm tm).
Proof.
  intros Hoid. rewrite list_lookup_alter.
  destruct (decide (t = t0)) as [<-|Hne]; [|by left].
  destruct (l !! t) as [tm|] eqn:Htm; [|by left].
  right. exists tm. split; [done|]. split; [by apply Hoid|done].
Qed.

Lemma obj_get_None_elem {A} (o : list (string * A)) k a :
  obj_get o k = None → (k, a) ∉ o.
Proof.
  induction o as [|[k0 a0] o IH]; simpl; [intros _; apply not_elem_of_nil|].
  destruct (String.eqb_spec k0 k) as [->|Hne]; [done|].
  intros Hget. apply not_elem_of_cons. split; [congruence|by apply IH].
Qed.


(** The registry and the timers after the callback of a timer for [oid],
    and after [clearTimeout] of the handle stored under [oid]. *)
Lemma timers_ok_cancelled st st' oid :
  timers_ok st →
  waitTimers st' = waitTimers st →
  options st' = options st →
  waitForResp st' = obj_delete (waitForResp st) oid →
  timeouts st' = timeouts st
  ∨ (∃ t, waitTimers st !! oid = Some t
          ∧ timeouts st' = alter disarm t (timeouts st)) →
  timers_ok st'.
Proof.
  intros Hok Hw Ho Hr Ht. apply (timers_ok_unregister st st' oid); try done.
  - intros k d. rewrite Hr. apply obj_delete_elem.
  - intros t0. destruct Ht as [->|(t & Hk & ->)]; [by left|].
    apply alter_disarm_cases. intros tm Htm.
    destruct (ok_handle st Hok oid t Hk) as (tm' & Htm' & Hoid). congruence.
Qed.

Lemma timers_ok_unregistered key st :
  timers_ok st → timers_ok (unregistered key st).
Proof.
  intros Hok. apply (timers_ok_cancelled st _ key); try done.
  - unfold unregistered. by rewrite waitTimers_cleared.
  - unfold unregistered, cleared. by destruct (waitTimers st !! key).
  - unfold unregistered. by rewrite waitForResp_cleared.
  - unfold unregistered, cleared. simpl.
    destruct (waitTimers st !! key) as [t|]; [right; by exists t|by left].
Qed.

Lemma timers_ok_settled d o st : timers_ok st → timers_ok (settled d o st).
Proof.
  intros Hok. unfold settled.
  destruct (defers st !! d) as [[]|]; try done.
  by apply (timers_ok_frame st).
Qed.

Lemma timers_ok_fx x st :
  timers_ok st → timers_ok (set_effects (effects st ++ [x]) st).
Proof. intros Hok. by apply (timers_ok_frame st). Qed.

Lemma timers_ok_handleOidReply message :
  inv timers_ok (handleOidReply message).
Proof.
  intros e st Hok.
  destruct (getProp message "oid") as [oid|v] eqn:Hoid;
    [|by unfold handleOidReply; rewrite Hoid].
  destruct (obj_get (waitForResp st) (ToString oid)) as [p|] eqn:Hget.
  - rewrite (handleOidReply_present _ oid p); [|done|done]. cbv zeta.
    pose proof (timers_ok_unregistered (ToString oid) st Hok) as Hok1.
    destruct (getProp message "ok") as [ok|v]; [|done].
    destruct (getProp message "data") as [data|v]; [|done].
    destruct (strict_eq_str ok "ok").
    + by apply timers_ok_settled, timers_ok_fx.
    + destruct (getProp data "error") as [error|v]; [|done].
      by apply timers_ok_settled, timers_ok_fx.
  - rewrite (handleOidReply_absent _ oid); [|done|done]. by apply timers_ok_fx.
Qed.

Lemma timers_ok_cancelAllOidReplies err :
  inv timers_ok (cancelAllOidReplies err).
Proof.
  unfold cancelAllOidReplies. apply inv_bind; [apply inv_get|]. intros st0.
  apply inv_forEach. intros oid e st Hok. rewrite bind_get.
  destruct (obj_get (waitForResp st) oid) as [d0|] eqn:Hget; [|done].
  rewrite bind_reject_DeferP, bind_modify, bind_get, clearTimeout_eq.
  cbn [fst waitTimers set_waitForResp]. rewrite waitTimers_rejected.
  apply (timers_ok_cancelled st _ oid); try done.
  - by rewrite waitTimers_cleared; simpl; rewrite waitTimers_rejected.
  - unfold cleared, rejected, settled. simpl.
    by destruct (waitTimers st !! oid), (defers st !! d0) as [[]|].
  - by rewrite waitForResp_cleared; simpl; rewrite waitForResp_rejected.
  - unfold cleared.
    destruct (waitTimers st !! oid) as [t|]; simpl; rewrite timeouts_rejected;
      [right; by exists t|by left].
Qed.

Lemma timers_ok_request_send_callback oid err :
  inv timers_ok (request_send_callback oid err).
Proof.
  intros e st Hok. rewrite request_send_callback_eq.
  destruct (truthy err); [|done].
  apply (timers_ok_frame st); try done.
  intros k d Hin. by apply obj_delete_elem in Hin as [Hin _].
Qed.

Lemma obj_delete_None {A} (o : list (string * A)) k :
  obj_get o k = None → obj_delete o k = o.
Proof.
  induction o as [|[k0 a0] o IH]; simpl; [done|].
  destruct (String.eqb k0 k); [done|]. intros Hget. by rewrite IH.
Qed.

(** What [#cancelOidReply] leaves behind. *)
Lemma cancelOidReply_frame oid reason e st :
  let st' := (cancelOidReply oid reason e st).1 in
  waitTimers st' = waitTimers st
  ∧ options st' = options st
  ∧ waitForResp st' = obj_delete (waitForResp st) oid
  ∧ timeouts st' =
    match waitTimers st !! oid with
    | Some t => alter disarm t (timeouts st)
    | None => timeouts st
    end.
Proof.
  rewrite cancelOidReply_eq. cbn [fst].
  destruct (obj_get (waitForResp st) oid) as [d0|] eqn:Hget.
  - destruct (waitTimers st !! oid) as [t|];
      rewrite ?waitTimers_cleared, ?waitForResp_cleared; unfold cleared; simpl;
      rewrite ?waitTimers_rejected, ?waitForResp_rejected, ?timeouts_rejected;
      repeat split; unfold rejected, settled; simpl;
      by destruct (defers st !! d0) as [[]|].
  - rewrite (obj_delete_None _ _ Hget).
    by destruct (waitTimers st !! oid) as [t|].
Qed.

Lemma timers_ok_timer_fires t : inv timers_ok (timer_fires t).
Proof.
  intros e st Hok. unfold timer_fires. rewrite bind_get.
  destruct (timeouts st !! t) as [tm|] eqn:Htm; [|done].
  destruct (armed tm) eqn:Harmed; [|done].
  rewrite bind_modify.
  set (oid := timeout_oid tm).
  set (st0 := set_timeouts (alter disarm t (timeouts st)) st).
  destruct (cancelOidReply_frame oid (VStr "request timeout") e st0)
    as (Hw & Ho & Hr & Ht).
  set (st' := (cancelOidReply oid (VStr "request timeout") e st0).1) in *.
  apply (timers_ok_unregister st st' oid); try done.
  - intros k d. rewrite Hr. apply obj_delete_elem.
  - intros t0. rewrite Ht. cbn [timeouts waitTimers st0 set_timeouts].
    assert (∀ tm0, timeouts st !! t = Some tm0 → timeout_oid tm0 = oid) as Htoid
      by (intros tm0 Htm0; rewrite Htm in Htm0; by injection Htm0 as <-).
    destruct (waitTimers st !! oid) as [t'|] eqn:Hk;
      [|by apply alter_disarm_cases].
    destruct (ok_handle st Hok oid t' Hk) as (tm' & Htm' & Hoid').
    rewrite list_lookup_alter.
    destruct (decide (t' = t0)) as [<-|Hne]; [|by apply alter_disarm_cases].
    rewrite list_lookup_alter.
    destruct (decide (t = t')) as [<-|Hne'].
    + right. exists tm. by rewrite Htm.
    + right. exists tm'. by rewrite Htm'.
Qed.

Lemma timers_ok_registered oid st :
  timers_ok st → timers_ok (registered oid (wsReplyTimeout (options st)) st).
Proof.
  intros [H1 H2 H3]. split; simpl.
  - intros k t. destruct (decide (oid = k)) as [->|Hne].
    + rewrite lookup_insert_eq. intros [= <-].
      eexists. by rewrite lookup_app_r, Nat.sub_diag.
    + rewrite lookup_insert_ne by done. intros Hk.
      destruct (H1 k t Hk) as (tm & Htm & Hoid). exists tm.
      split; [|done]. rewrite lookup_app_l; [done|]. by eapply lookup_lt_Some.
  - intros k d Hin. unfold is_armed. simpl.
    destruct (decide (oid = k)) as [->|Hne].
    + exists (length (timeouts st)). rewrite lookup_insert_eq.
      by rewrite lookup_app_r, Nat.sub_diag.
    + apply obj_set_elem in Hin as [[= -> _]|Hin]; [done|].
      destruct (H2 k d Hin) as (t & Hk & Harmed). exists t.
      rewrite lookup_insert_ne by done. split; [done|].
      unfold is_armed in Harmed.
      destruct (timeouts st !! t) as [tm|] eqn:Htm; [|done].
      by rewrite lookup_app_l, Htm; [|eapply lookup_lt_Some].
  - intros t tm Htm. apply lookup_app_Some in Htm as [Htm|[_ Htm]]; [by eapply H3|].
    destruct (t - length (timeouts st))%nat; [|done]. by injection Htm as <-.
Qed.

Ltac timers_leaf :=
  let st := fresh "st" in
  let Hok := fresh "Hok" in
  intros st Hok;
  first [ apply (timers_ok_frame st); [exact Hok|simpl; done..] | idtac ].

#[local] Hint Resolve timers_ok_handleOidReply timers_ok_cancelAllOidReplies
  timers_ok_request_send_callback timers_ok_timer_fires : inv_db.

Lemma timers_ok_callRequest method params :
  inv timers_ok (callRequest method params).
Proof.
  intros e st Hok. destruct (open_socket st) as [s|] eqn:Hs.
  - rewrite (callRequest_open _ _ _ _ s Hs). cbv zeta.
    match goal with
    | |- timers_ok (?m e ?s0).1 =>
        assert (inv timers_ok m) as Htail by (inv_walk timers_leaf)
    end.
    apply Htail.
    apply (timers_ok_registered _ (set_oidSeqId (oidSeqId st + 1) st)).
    by apply (timers_ok_frame st).
  - by rewrite callRequest_closed.
Qed.

#[local] Hint Resolve timers_ok_callRequest : inv_db.

Lemma timers_ok_step ev : inv timers_ok (step ev).
Proof. inv_walk timers_leaf. Qed.

Lemma timers_ok_reachable tr args : timers_ok (run tr (constructor args)).
Proof.
  apply inv_run; [apply timers_ok_step|].
  split; simpl; try done. intros k d Hin. by apply elem_of_nil in Hin.
Qed.


(* --------------------------------------------------------------------- *)
(** *** Ids of requests                                                   *)
(* --------------------------------------------------------------------- *)

Lemma is_digit_pretty_N_char x : is_digit (pretty_N_char x) = true.
Proof.
  destruct x as [|p]; [done|].
  do 4 (try destruct p as [p|p|]); done.
Qed.

Lemma all_digits_pretty_N_go x s :
  all_digits s = true → all_digits (pretty_N_go x s) = true.
Proof.
  revert s. induction (N.lt_wf_0 x) as [x _ IH]; intros s Hs.
  destruct (decide (0 < x)%N) as [Hx|Hx].
  - rewrite pretty_N_go_step by done. apply IH.
    + by apply N.div_lt.
    + simpl. by rewrite is_digit_pretty_N_char.
  - replace x with 0%N by lia. by rewrite pretty_N_go_0.
Qed.

Lemma length_pretty_N_go_grows x s :
  (String.length s ≤ String.length (pretty_N_go x s))%nat.
Proof.
  revert s. induction (N.lt_wf_0 x) as [x _ IH]; intros s.
  destruct (decide (0 < x)%N) as [Hx|Hx].
  - rewrite pretty_N_go_step by done.
    etransitivity; [|apply IH; by apply N.div_lt]. simpl. lia.
  - replace x with 0%N by lia. by rewrite pretty_N_go_0.
Qed.

Lemma length_pretty_N_go_mono y x s s' :
  (x ≤ y)%N → String.length s = String.length s' →
  (String.length (pretty_N_go x s) ≤ String.length (pretty_N_go y s'))%nat.
Proof.
  revert x s s'. induction (N.lt_wf_0 y) as [y _ IH]; intros x s s' Hle Hlen.
  destruct (decide (0 < x)%N) as [Hx|Hx].
  - rewrite (pretty_N_go_step x), (pretty_N_go_step y) by lia.
    apply IH.
    + apply N.div_lt; lia.
    + by apply N.Div0.div_le_mono.
    + simpl. by rewrite Hlen.
  - replace x with 0%N by lia. rewrite pretty_N_go_0, Hlen.
    apply length_pretty_N_go_grows.
Qed.

Lemma pretty_N_unfold (x : N) :
  pretty x = if decide (x = 0%N) then "0" else pretty_N_go x EmptyString.
Proof. done. Qed.

Lemma pretty_Z_nonneg (z : Z) : 0 ≤ z → pretty z = pretty (Z.to_N z).
Proof. intros Hz. destruct z; [done|done|lia]. Qed.

Lemma all_digits_pretty (z : Z) : 0 ≤ z → all_digits (pretty z) = true.
Proof.
  intros Hz. rewrite pretty_Z_nonneg, pretty_N_unfold by done.
  case_decide; [done|]. by apply all_digits_pretty_N_go.
Qed.

Lemma length_pretty_mono (a b : Z) :
  0 ≤ a ≤ b → (String.length (pretty a) ≤ String.length (pretty b))%nat.
Proof.
  intros Hab. rewrite !pretty_Z_nonneg, !pretty_N_unfold by lia.
  assert (Z.to_N a ≤ Z.to_N b)%N as Hle by lia.
  destruct (decide (Z.to_N a = 0%N)) as [Ha|Ha],
    (decide (Z.to_N b = 0%N)) as [Hb|Hb]; try lia.
  - rewrite pretty_N_go_step by lia.
    etransitivity; [|apply length_pretty_N_go_grows]. simpl. lia.
  - by apply length_pretty_N_go_mono.
Qed.

Lemma append_cons x (a b : string) : String x a +:+ b = String x (a +:+ b).
Proof. done. Qed.

Lemma append_assoc (a b c : string) : (a +:+ b) +:+ c = a +:+ (b +:+ c).
Proof.
  induction a as [|x a IH]; [done|]. by rewrite !append_cons, IH.
Qed.

Lemma all_digits_append a b :
  all_digits (a +:+ b) = all_digits a && all_digits b.
Proof.
  induction a as [|x a IH]; [done|].
  rewrite append_cons. simpl. by rewrite IH, andb_assoc.
Qed.

Lemma append_nil (b : string) : EmptyString +:+ b = b.
Proof. done. Qed.

(** Two strings of digits that are followed by an underscore. *)
Lemma digits_before_underscore a1 a2 r1 r2 :
  all_digits a1 = true → all_digits a2 = true →
  a1 +:+ "_" +:+ r1 = a2 +:+ "_" +:+ r2 → a1 = a2.
Proof.
  revert a2. induction a1 as [|x a1 IH]; intros [|y a2];
    rewrite ?append_cons, ?append_nil; simpl; try done.
  - intros _ Hy [= <- _]. by apply andb_true_iff in Hy as [Hy _].
  - intros Hx _ [= -> _]. by apply andb_true_iff in Hx as [Hx _].
  - intros Hx Hy [= -> Heq].
    apply andb_true_iff in Hx as [_ Hx]. apply andb_true_iff in Hy as [_ Hy].
    f_equal. by apply IH.
Qed.

Lemma append_split a1 b1 a2 b2 :
  a1 +:+ b1 = a2 +:+ b2 →
  (String.length a1 ≤ String.length a2)%nat →
  ∃ r, a2 = a1 +:+ r ∧ b1 = r +:+ b2.
Proof.
  revert a2. induction a1 as [|x a1 IH]; intros a2.
  - intros Heq _. exists a2. split; [done|exact Heq].
  - destruct a2 as [|y a2]; simpl; [lia|]. rewrite !append_cons.
    intros [= -> Heq] Hlen. destruct (IH a2 Heq) as (r & -> & ->); [lia|].
    by exists r.
Qed.

(** The id of a later request differs from the id of an earlier one when
    the clock has not gone back in between. *)
Lemma request_ids_differ (n1 q1 n2 q2 : Z) (m1 m2 : string) :
  0 ≤ n1 ≤ n2 → 0 ≤ q1 < q2 →
  pretty n1 +:+ pretty q1 +:+ "_" +:+ m1 ≠
  pretty n2 +:+ pretty q2 +:+ "_" +:+ m2.
Proof.
  intros Hn Hq Heq.
  rewrite <- !(append_assoc (pretty _) (pretty _)) in Heq.
  apply digits_before_underscore in Heq;
    [|rewrite all_digits_append, !all_digits_pretty by lia; done..].
  destruct (append_split _ _ _ _ Heq) as (r & Hr1 & Hr2);
    [by apply length_pretty_mono|].
  assert (String.length (pretty q1) ≤ String.length (pretty q2))%nat as Hlen
    by (apply length_pretty_mono; lia).
  rewrite Hr2, length_append in Hlen.
  destruct r as [|x r]; [|simpl in Hlen; lia].
  rewrite append_nil in Hr2. apply (inj pretty) in Hr2. lia.
Qed.

Lemma ids_ok_mono T T' st : T ≤ T' → ids_ok T st → ids_ok T' st.
Proof.
  intros HT [Hseq Hids]. split; [done|]. intros t tm Htm.
  destruct (Hids t tm Htm) as (n & q & m & Hoid & Hn & Hq).
  exists n, q, m. repeat split; try done; lia.
Qed.

Lemma ids_ok_frame T st st' :
  ids_ok T st →
  oidSeqId st' = oidSeqId st →
  (∀ t tm', timeouts st' !! t = Some tm' →
     ∃ tm, timeouts st !! t = Some tm ∧ timeout_oid tm = timeout_oid tm') →
  ids_ok T st'.
Proof.
  intros [Hseq Hids] Hs Ht. split; [by rewrite Hs|]. intros t tm' Htm'.
  destruct (Ht t tm' Htm') as (tm & Htm & <-). rewrite Hs. by eapply Hids.
Qed.

Lemma lookup_alter_disarm (l : list timeout) (t t0 : nat) tm' :
  alter disarm t l !! t0 = Some tm' →
  ∃ tm, l !! t0 = Some tm ∧ timeout_oid tm = timeout_oid tm'.
Proof.
  rewrite list_lookup_alter.
  destruct (decide (t = t0)) as [<-|Hne]; [|by exists tm'].
  destruct (l !! t) as [tm|]; [|done]. intros [= <-]. by exists tm.
Qed.

Ltac ids_leaf :=
  let st := fresh "st" in
  let HI := fresh "HI" in
  intros st HI;
  first
    [ apply (ids_ok_frame _ st);
      [exact HI|done|simpl; first [by eauto|apply lookup_alter_disarm]]
    | idtac ].

Lemma ids_ok_step_other T ev :
  is_call ev = false → inv (ids_ok T) (step ev).
Proof. destruct ev; try done; intros _; inv_walk ids_leaf. Qed.

Lemma ids_ok_registered e method st :
  0 ≤ now e →
  ids_ok (now e) st →
  ids_ok (now e)
    (registered (request_oid e st method) (wsReplyTimeout (options st))
       (set_oidSeqId (oidSeqId st + 1) st)).
Proof.
  intros Hnow [Hseq Hids]. split; simpl; [lia|].
  intros t tm Htm. apply lookup_app_Some in Htm as [Htm|[_ Htm]].
  - destruct (Hids t tm Htm) as (n & q & m & Hoid & Hn & Hq).
    exists n, q, m. repeat split; try done; lia.
  - destruct (t - length (timeouts st))%nat; [|done]. injection Htm as <-.
    exists (now e), (oidSeqId st + 1), method. simpl. repeat split; try done; lia.
Qed.

Lemma ids_ok_callRequest method params e st :
  0 ≤ now e →
  ids_ok (now e) st → ids_ok (now e) (callRequest method params e st).1.
Proof.
  intros Hnow HI. destruct (open_socket st) as [s|] eqn:Hs.
  - rewrite (callRequest_open _ _ _ _ s Hs). cbv zeta.
    match goal with
    | |- ids_ok _ (?m e ?s0).1 =>
        assert (inv (ids_ok (now e)) m) as Htail by (inv_walk ids_leaf)
    end.
    by apply Htail, ids_ok_registered.
  - by rewrite callRequest_closed.
Qed.

Lemma ids_ok_step T ev e st :
  0 ≤ T ≤ now e → ids_ok T st → ids_ok (now e) (step ev e st).1.
Proof.
  intros HT HI. apply (ids_ok_mono T (now e)) in HI; [|lia].
  destruct (is_call ev) eqn:Hev; [|by apply ids_ok_step_other].
  destruct ev; try done; simpl.
  - unfold callPublic, async. rewrite bind_get.
    destruct (negb (isPublicClient st)); [done|].
    pose proof (ids_ok_callRequest method (default_params params) e st) as Hcall.
    destruct (callRequest _ _ e st) as [st' [d|v]]; apply Hcall; done || lia.
  - unfold callPrivate, async. rewrite bind_get.
    destruct (isPublicClient st); [done|].
    destruct (negb (isAuthorized st)); [done|].
    pose proof (ids_ok_callRequest method (default_params params) e st) as Hcall.
    destruct (callRequest _ _ e st) as [st' [d|v]]; apply Hcall; done || lia.
Qed.

Lemma ids_ok_run T tr e st :
  0 ≤ T →
  clock_ordered T (tr.*1 ++ [e]) = true →
  ids_ok T st → 0 ≤ now e ∧ ids_ok (now e) (run tr st).
Proof.
  revert T st. induction tr as [|[e1 ev1] tr IH]; intros T st HT Hclock HI.
  - simpl in Hclock. rewrite andb_true_r in Hclock. apply Z.leb_le in Hclock.
    split; [lia|]. by apply (ids_ok_mono T).
  - simpl in Hclock. apply andb_true_iff in Hclock as [H1 Hclock].
    apply Z.leb_le in H1. simpl.
    apply (IH (now e1)); [lia|done|]. apply (ids_ok_step T); [lia|done].
Qed.

(** X16. Ids are not reused.  Along a session whose clock readings are not
    negative and never go back, the id that [#callRequest] makes for a new
    call differs from the id of every call made before, whether that call
    is still pending or not; so the new entry displaces no pending call,
    and no timer handle is overwritten.  (Clock readings and sequence
    numbers are taken below 2^53, where JavaScript numbers are exact.) *)
Theorem request_ids_are_never_reused
    (tr : list (env * event)) (args : list arg) (method : string) (e : env) :
  let st := run tr (constructor args) in
  let oid := request_oid e st method in
  clock_ordered 0 (tr.*1 ++ [e]) = true →
  now e < 2 ^ 53 →
  oidSeqId st + 1 < 2 ^ 53 →
  (∀ t tm, timeouts st !! t = Some tm → timeout_oid tm ≠ oid)
  ∧ obj_get (waitForResp st) oid = None
  ∧ waitTimers st !! oid = None.
Proof.
  intros st oid Hclock _ _.
  assert (ids_ok 0 (constructor args)) as HI0.
  { split; simpl; [done|]. intros t tm Htm. by rewrite lookup_nil in Htm. }
  destruct (ids_ok_run 0 tr e (constructor args)) as (Hnow & Hseq & Hids);
    [done|done|done|]. fold st in Hseq, Hids.
  pose proof (timers_ok_reachable tr args) as Hok. fold st in Hok.
  assert (∀ t tm, timeouts st !! t = Some tm → timeout_oid tm ≠ oid) as Hfresh.
  { intros t tm Htm Heq.
    destruct (Hids t tm Htm) as (n & q & m & Hoid & Hn & Hq).
    rewrite Hoid in Heq. unfold oid, request_oid in Heq.
    apply request_ids_differ in Heq; [done|lia|lia]. }
  assert (waitTimers st !! oid = None) as Hnone.
  { destruct (waitTimers st !! oid) as [t|] eqn:Hk; [|done].
    destruct (ok_handle st Hok oid t Hk) as (tm & Htm & Hoid).
    by destruct (Hfresh t tm Htm). }
  split; [done|]. split; [|done].
  destruct (obj_get (waitForResp st) oid) as [d|] eqn:Hget; [|done].
  apply obj_get_Some_elem in Hget.
  destruct (ok_armed st Hok oid d Hget) as (t & Hk & _). congruence.
Qed.

(* --------------------------------------------------------------------- *)
(** *** Pending calls are kept apart                                      *)
(* --------------------------------------------------------------------- *)


(* --------------------------------------------------------------------- *)
(** *** Keep-alive                                                        *)
(* --------------------------------------------------------------------- *)

(** X18. [ping()] does not wait for the pong.  On an open socket it sends
    [{"e": "ping"}] without a callback and its promise is fulfilled at
    once; no deferred and no timer is made for it, whatever the kind of the
    client and whether or not it is authorized.  When the pong comes in (a
    frame with event ['pong'] and no [oid], no handler being subscribed
    under ['pong']), it is logged and dropped.  After both, only the list
    of effects differs from the state before. *)
Theorem ping_does_not_wait_for_pong
    (props : list (string * value)) (s : nat) (e e' : env) (st : state) :
  open_socket st = Some s →
  handlers st !! "pong" = None →
  field props "e" = VStr "pong" →
  truthy (field props "oid") = false →
  let frame := VObj [("e", VStr "ping")] in
  let r := step Ping e st in
  let r' := step (SocketMessage s (Ok (VObj props))) e' r.1 in
  r = (set_effects (effects st ++ [FxSend s frame None]) st,
       Ok (AsyncFulfilled VUndefined))
  ∧ r' = (set_effects
            (effects st ++
             [FxSend s frame None;
              FxLog (log (options st)) [VStr "incoming message:"; VObj props]])
            st, Ok Undefined).
Proof.
  intros Hs Hh He Hoid frame r r'.
  assert (r = (set_effects (effects st ++ [FxSend s frame None]) st,
               Ok (AsyncFulfilled VUndefined))) as Hr.
  { subst r. simpl. unfold ping. by rewrite bind_get, Hs. }
  split; [done|]. subst r'. rewrite Hr. cbn [fst].
  destruct (open_socket_Some st s Hs) as (_ & ws & Hws & _).
  simpl. unfold with_socket. rewrite bind_get. cbn [sockets set_effects].
  rewrite Hws. unfold bind at 1.
  rewrite handleMessage_unrouted.
  - unfold logged. simpl. by rewrite <- app_assoc.
  - unfold event_name. by rewrite He.
  - done.
  - by rewrite He.
Qed.

(* --------------------------------------------------------------------- *)
(** *** A call is settled once                                            *)
(* --------------------------------------------------------------------- *)

Lemma settled_once_frame st st' :
  settled_once st → effects st' = effects st → defers st' = defers st →
  settled_once st'.
Proof. intros Hso He Hd d. rewrite He, Hd. apply Hso. Qed.

Lemma settled_once_fx x st :
  (∀ d, calls_on (DeferP d) [x] = []) →
  settled_once st → settled_once (set_effects (effects st ++ [x]) st).
Proof.
  intros Hx Hso d. simpl. rewrite calls_on_app, Hx, app_nil_r. apply Hso.
Qed.

Lemma settled_once_settle d o x st :
  defers st !! d = Some Pending → o ≠ Pending →
  calls_on (DeferP d) [x] = [o] →
  (∀ d', d' ≠ d → calls_on (DeferP d') [x] = []) →
  settled_once st →
  settled_once (settled d o (set_effects (effects st ++ [x]) st)).
Proof.
  intros Hd Ho Hx Hother Hso d'. unfold settled. simpl. rewrite Hd. simpl.
  rewrite calls_on_app. destruct (decide (d' = d)) as [->|Hne].
  - rewrite Hx, list_lookup_insert_eq by (by eapply lookup_lt_Some).
    rewrite (Hso d), Hd. by destruct o.
  - rewrite Hother, app_nil_r, list_lookup_insert_ne by done. apply Hso.
Qed.

Lemma settled_once_rejected d v st :
  defers st !! d = Some Pending →
  settled_once st → settled_once (rejected d v st).
Proof.
  intros Hd Hso. apply settled_once_settle; try done.
  - unfold calls_on. simpl. by rewrite decide_True.
  - intros d' Hne. unfold calls_on. simpl. rewrite decide_False; [done|congruence].
Qed.

Lemma settled_once_resolved d v st :
  defers st !! d = Some Pending →
  settled_once st → settled_once (resolved d v st).
Proof.
  intros Hd Hso. apply settled_once_settle; try done.
  - unfold calls_on. simpl. by rewrite decide_True.
  - intros d' Hne. unfold calls_on. simpl. rewrite decide_False; [done|congruence].
Qed.

Lemma settled_once_cleared h st : settled_once st → settled_once (cleared h st).
Proof.
  intros Hso d. rewrite effects_cleared, defers_cleared, calls_on_app.
  rewrite app_nil_r. apply Hso.
Qed.

Lemma settled_once_delete k st :
  settled_once st →
  settled_once (set_waitForResp (obj_delete (waitForResp st) k) st).
Proof. intros Hso. by apply (settled_once_frame st). Qed.

Lemma inv_registry_and_calls {A} (m : M A) :
  inv registry_ok m →
  (∀ e st, registry_ok st → settled_once st → settled_once (m e st).1) →
  inv registry_and_calls_ok m.
Proof. intros Hreg Hso e st [H1 H2]. split; [by apply Hreg|by apply Hso]. Qed.

Lemma registry_pending st oid d :
  registry_ok st → obj_get (waitForResp st) oid = Some d →
  defers st !! d = Some Pending.
Proof.
  intros Hok Hget. eapply (ok_pending st Hok). by apply obj_get_Some_elem.
Qed.

Lemma calls_ok_cancelOidReply oid reason :
  inv registry_and_calls_ok (cancelOidReply oid reason).
Proof.
  apply inv_registry_and_calls; [apply registry_ok_cancelOidReply|].
  intros e st Hreg Hso. rewrite cancelOidReply_eq. cbn [fst].
  assert (settled_once
            match obj_get (waitForResp st) oid with
            | Some d =>
                set_waitForResp (obj_delete (waitForResp st) oid)
                  (rejected d (cancellation oid reason) st)
            | None => st
            end) as Hso1.
  { destruct (obj_get (waitForResp st) oid) as [d|] eqn:Hget; [|done].
    rewrite <- (waitForResp_rejected d (cancellation oid reason) st).
    apply settled_once_delete, settled_once_rejected; [|done].
    by eapply registry_pending. }
  destruct (waitTimers st !! oid); [by apply settled_once_cleared|done].
Qed.

Lemma calls_ok_cancelAllOidReplies err :
  inv registry_and_calls_ok (cancelAllOidReplies err).
Proof.
  unfold cancelAllOidReplies. apply inv_bind; [apply inv_get|]. intros st0.
  apply inv_forEach. intros oid e st [Hreg Hso]. rewrite bind_get.
  destruct (obj_get (waitForResp st) oid) as [d|] eqn:Hget; [|done].
  rewrite bind_reject_DeferP, bind_modify, bind_get. split.
  - apply registry_ok_clearTimeout. by apply registry_ok_rejected_delete.
  - rewrite clearTimeout_eq. cbn [fst].
    apply settled_once_cleared, settled_once_delete, settled_once_rejected;
      [by eapply registry_pending|done].
Qed.

Lemma calls_ok_handleOidReply message :
  inv registry_and_calls_ok (handleOidReply message).
Proof.
  apply inv_registry_and_calls; [apply registry_ok_handleOidReply|].
  intros e st Hreg Hso.
  destruct (getProp message "oid") as [oid|v] eqn:Hoid;
    [|by unfold handleOidReply; rewrite Hoid].
  destruct (obj_get (waitForResp st) (ToString oid)) as [p|] eqn:Hget.
  - rewrite (handleOidReply_present _ oid p); [|done|done]. cbv zeta.
    assert (settled_once (unregistered (ToString oid) st)) as Hso1
      by (by apply settled_once_cleared, settled_once_delete).
    assert (defers (unregistered (ToString oid) st) !! p = Some Pending) as Hp.
    { destruct (unregistered_facts (ToString oid) st) as (_ & -> & _).
      by eapply registry_pending. }
    destruct (getProp message "ok") as [ok|v]; [|done].
    destruct (getProp message "data") as [data|v]; [|done].
    destruct (strict_eq_str ok "ok").
    + by apply settled_once_resolved.
    + destruct (getProp data "error") as [error|v]; [|done].
      by apply settled_once_rejected.
  - rewrite (handleOidReply_absent _ oid); [|done|done].
    by apply settled_once_fx.
Qed.

Lemma calls_ok_request_send_callback oid err :
  inv registry_and_calls_ok (request_send_callback oid err).
Proof.
  apply inv_registry_and_calls; [apply registry_ok_request_send_callback|].
  intros e st Hreg Hso. rewrite request_send_callback_eq.
  destruct (truthy err); [|done]. by apply settled_once_delete.
Qed.

Lemma settled_once_registered oid ms st :
  settled_once st → settled_once (registered oid ms st).
Proof.
  intros Hso d. simpl. rewrite calls_on_app, app_nil_r, (Hso d).
  destruct (decide (d < length (defers st))%nat) as [Hlt|Hge].
  - by rewrite lookup_app_l.
  - rewrite (lookup_ge_None_2 (defers st) d) by lia.
    destruct (decide (d = length (defers st))) as [->|Hne].
    + by rewrite lookup_app_r, Nat.sub_diag.
    + rewrite lookup_ge_None_2; [done|]. rewrite length_app. simpl. lia.
Qed.

Ltac calls_leaf :=
  let st := fresh "st" in
  let Hreg := fresh "Hreg" in
  let Hso := fresh "Hso" in
  intros st [Hreg Hso];
  first
    [ split;
      [ apply (registry_ok_frame st); [exact Hreg|simpl; rewrite ?length_alter; done..]
      | first [ apply (settled_once_frame st); [exact Hso|done|done]
              | apply settled_once_fx; [done|exact Hso] ] ]
    | idtac ].

#[local] Hint Resolve calls_ok_cancelOidReply calls_ok_cancelAllOidReplies
  calls_ok_handleOidReply calls_ok_request_send_callback : inv_db.

Lemma calls_ok_callRequest method params :
  inv registry_and_calls_ok (callRequest method params).
Proof.
  intros e st [Hreg Hso]. destruct (open_socket st) as [s|] eqn:Hs.
  - rewrite (callRequest_open _ _ _ _ s Hs). cbv zeta.
    match goal with
    | |- registry_and_calls_ok (?m e ?s0).1 =>
        assert (inv registry_and_calls_ok m) as Htail by (inv_walk calls_leaf)
    end.
    apply Htail. split.
    + apply registry_ok_registered. by eapply registry_ok_frame.
    + apply settled_once_registered. by apply (settled_once_frame st).
  - by rewrite callRequest_closed.
Qed.

#[local] Hint Resolve calls_ok_callRequest : inv_db.

Lemma calls_ok_step ev : inv registry_and_calls_ok (step ev).
Proof. inv_walk calls_leaf. Qed.

(** X19. A call is settled once.  In every state the client can reach and
    for every deferred of [#getDefer]: if it is pending, neither its
    [resolve] nor its [reject] has been called; if it is settled, exactly
    one of them has been called, once, and with the outcome it has.  So
    the reply, the timeout and the cancellations never compete for a call:
    whichever comes first is the only one that reaches its promise. *)
Theorem each_call_is_settled_once
    (tr : list (env * event)) (args : list arg) (d : nat) :
  let st := run tr (constructor args) in
  calls_on (DeferP d) (effects st) =
  match defers st !! d with
  | Some Pending | None => []
  | Some o => [o]
  end.
Proof.
  intros st.
  assert (registry_and_calls_ok st) as [_ Hso]; [|apply Hso].
  apply inv_run; [apply calls_ok_step|].
  split; [apply registry_ok_constructor|]. by intros d'.
Qed.

End Coverage.

(* ===================================================================== *)
(** ** Properties of the REST client                                      *)
(* ===================================================================== *)

Section Rest.

Lemma with_slash_ends s : endsWith (RestClient.with_slash s) "/" = true.
Proof.
  unfold RestClient.with_slash. destruct (endsWith s "/") eqn:Hs; [done|].
  apply endsWith_append.
Qed.

(** X20. The endpoints of a new REST client.  The constructor throws a
    [TypeError] exactly when it is called with one argument that is
    [undefined].  Otherwise host, [apiUrl] and [apiUrlPublic] all end in a
    slash; the host is the caller's or ['https://api.plus.cex.io/'];
    [apiUrl] is the caller's [apiUrl] if given, and otherwise the
    caller's [host] option, as it was passed, followed by ['rest/']: with
    no [host] option that is ['undefinedrest/'], whatever the default host
    is, and likewise ['undefinedrest-public/'] for [apiUrlPublic].  The
    limiter starts at zero requests in the minute of construction. *)
Theorem rest_constructor_endpoints (now : Z) (args : list RestClient.arg) :
  let given := rest_passed_options args in
  let from_host suffix :=
    match RestClient.opt_host given with
    | Some h => h +:+ suffix
    | None => "undefined" +:+ suffix
    end in
  (args = [RestClient.ArgUndefined] →
   RestClient.constructor now args =
   Throw (TypeError "Cannot read properties of undefined (reading 'host')"))
  ∧ (args ≠ [RestClient.ArgUndefined] →
     ∃ st, RestClient.constructor now args = Ok st
       ∧ RestClient.host (RestClient.options st) =
           RestClient.with_slash
             (default "https://api.plus.cex.io/" (RestClient.opt_host given))
       ∧ RestClient.apiUrl (RestClient.options st) =
           RestClient.with_slash
             (default (from_host "rest/") (RestClient.opt_apiUrl given))
       ∧ RestClient.apiUrlPublic (RestClient.options st) =
           RestClient.with_slash
             (default (from_host "rest-public/") (RestClient.opt_apiUrlPublic given))
       ∧ endsWith (RestClient.host (RestClient.options st)) "/" = true
       ∧ endsWith (RestClient.apiUrl (RestClient.options st)) "/" = true
       ∧ endsWith (RestClient.apiUrlPublic (RestClient.options st)) "/" = true
       ∧ RestClient.isPublicClient st = bool_decide (length args = 1%nat)
       ∧ RestClient.requestCounter st = 0
       ∧ RestClient.lastMinute st = now / 60000).
Proof.
  intros given from_host. split.
  - by intros ->.
  - intros Hargs. subst given from_host. unfold rest_passed_options.
    unfold RestClient.constructor.
    destruct (bool_decide (length args = 1%nat)) eqn:Hone.
    + destruct args as [|a [|b args]]; try done.
      unfold RestClient.arguments_at. simpl.
      destruct a as [|s|o]; [done| |].
      * eexists. split; [done|]. simpl.
        rewrite !with_slash_ends. done.
      * eexists. split; [done|]. simpl. rewrite !with_slash_ends.
        by destruct (RestClient.opt_host o), (RestClient.opt_apiUrl o),
          (RestClient.opt_apiUrlPublic o).
    + destruct (RestClient.arguments_at args 2) as [|s|o]; simpl.
      * eexists. split; [done|]. simpl. rewrite !with_slash_ends. done.
      * eexists. split; [done|]. simpl. rewrite !with_slash_ends. done.
      * eexists. split; [done|]. simpl. rewrite !with_slash_ends.
        by destruct (RestClient.opt_host o), (RestClient.opt_apiUrl o),
          (RestClient.opt_apiUrlPublic o).
Qed.

(** One consultation that does not start a new minute. *)
Lemma limitReached_same_minute now st :
  now / 60000 ≤ RestClient.lastMinute st →
  RestClient.limitReached now st =
  (RestClient.State (RestClient.apiKey st) (RestClient.apiSecret st)
     (RestClient.isPublicClient st) (RestClient.requestCounter st + 1)
     (RestClient.lastMinute st) (RestClient.options st) (RestClient.httpsAgent st),
   RestClient.apiLimit (RestClient.options st) <=? RestClient.requestCounter st + 1).
Proof.
  intros Hmin. unfold RestClient.limitReached, RestClient.currentMinute.
  by rewrite (proj2 (Z.ltb_ge _ _)).
Qed.

Lemma consultations_same_minute readings st k b :
  Forall (fun now => now / 60000 ≤ RestClient.lastMinute st) readings →
  consultations readings st !! k = Some b →
  b = bool_decide
        (RestClient.apiLimit (RestClient.options st) ≤
         RestClient.requestCounter st + Z.of_nat k + 1).
Proof.
  revert st k. induction readings as [|now readings IH]; intros st k Hall Hk;
    [done|].
  apply Forall_cons in Hall as [Hnow Hall]. cbn [consultations] in Hk.
  rewrite (limitReached_same_minute now st Hnow) in Hk. cbn [fst snd] in Hk.
  destruct k as [|k]; simpl in Hk.
  - injection Hk as <-. rewrite Z.add_0_r.
    apply eq_true_iff_eq. rewrite Z.leb_le. by rewrite bool_decide_eq_true.
  - apply IH in Hk; [|done]. rewrite Hk. simpl.
    apply bool_decide_ext. lia.
Qed.

(** X21. The request limiter.  Of the consultations made within one
    minute, the [k]th is answered "limit reached" exactly when
    [k ≥ apiLimit], and refused consultations are counted as well: with
    the default limit of 300, the first 299 requests of a minute pass and
    every later one is refused.  The count restarts only when a
    consultation finds that the minute number has grown; the first
    consultation of a new minute is number 1. *)
Theorem rest_limiter_counts_per_minute
    (now : Z) (readings : list Z) (st : RestClient.state) (k : nat) (b : bool) :
  let window := Z.max (RestClient.lastMinute st) (now / 60000) in
  let before :=
    if RestClient.lastMinute st <? now / 60000 then 0
    else RestClient.requestCounter st in
  Forall (fun now' => now' / 60000 ≤ window) readings →
  consultations (now :: readings) st !! k = Some b →
  b = bool_decide
        (RestClient.apiLimit (RestClient.options st) ≤ before + Z.of_nat k + 1).
Proof.
  intros window before Hall Hk. cbn [consultations] in Hk.
  set (r := RestClient.limitReached now st) in Hk.
  assert (r.2 = (RestClient.apiLimit (RestClient.options st) <=? before + 1)
          ∧ RestClient.requestCounter r.1 = before + 1
          ∧ RestClient.lastMinute r.1 = window
          ∧ RestClient.options r.1 = RestClient.options st)
    as (Hanswer & Hcount & Hminute & Hoptions).
  { subst r before window.
    unfold RestClient.limitReached, RestClient.currentMinute. simpl.
    destruct (RestClient.lastMinute st <? now / 60000) eqn:Hlt;
      [apply Z.ltb_lt in Hlt|apply Z.ltb_ge in Hlt]; repeat split; lia. }
  clearbody r. destruct k as [|k]; simpl in Hk.
  - injection Hk as <-. rewrite Hanswer, Z.add_0_r.
    apply eq_true_iff_eq. rewrite Z.leb_le. by rewrite bool_decide_eq_true.
  - apply consultations_same_minute in Hk; [|by rewrite Hminute].
    rewrite Hk, Hoptions, Hcount. apply bool_decide_ext. lia.
Qed.

(** X22. How a response is read.  The body is returned, unchanged, exactly
    when the status is 200, the body is neither [null] nor [undefined],
    and its [error] property is not truthy.  With status 200 and a truthy
    [error], the body is thrown as it is.  With any other status, an
    object body is thrown with [statusCode] set to the status and every
    other property as it was, and a body that is a boolean, a number or a
    string is thrown wrapped as [{statusCode, body}]. *)
Theorem rest_parseResponse_outcomes (status : Z) (body : value) :
  (∀ v, RestClient.parseResponse status body = RestClient.Returns v ↔
        status = 200 ∧ v = body
        ∧ ∃ error, getProp body "error" = Ok error ∧ truthy error = false)
  ∧ (status = 200 →
     ∀ error, getProp body "error" = Ok error → truthy error = true →
     RestClient.parseResponse status body = RestClient.Throws body)
  ∧ (status ≠ 200 →
     ∀ props, body = VObj props →
     ∃ props',
       RestClient.parseResponse status body = RestClient.Throws (VObj props')
       ∧ obj_get props' "statusCode" = Some (VInt status)
       ∧ ∀ k, k ≠ "statusCode" → obj_get props' k = obj_get props k)
  ∧ (status ≠ 200 →
     is_json_scalar_or_array body = true → (∀ items, body ≠ VArr items) →
     RestClient.parseResponse status body =
     RestClient.Throws (VObj [("statusCode", VInt status); ("body", body)])).
Proof.
  unfold RestClient.parseResponse.
  destruct (status =? 200) eqn:Hs; simpl.
  - apply Z.eqb_eq in Hs. split; [|split; [|split]]; try done.
    + intros v. destruct (getProp body "error") as [error|w] eqn:Herr.
      * destruct (truthy error) eqn:Ht.
        -- split; [done|]. intros (_ & _ & error' & [= <-] & Hf). congruence.
        -- split; [intros [= <-]; eauto|]. by intros (_ & -> & _).
      * split; [done|]. by intros (_ & _ & error' & [=] & _).
    + intros _ error Herr Ht. by rewrite Herr, Ht.
  - apply Z.eqb_neq in Hs. split; [|split; [|split]]; try done.
    + intros v. split; [by destruct body|]. by intros [? _].
    + intros _ props ->. eexists. split; [done|]. split.
      * apply obj_get_set_eq.
      * intros k Hk. by apply obj_get_set_ne.
    + intros _ Hb Harr. destruct body; try done. by destruct (Harr items).
Qed.

End Rest.

(* ===================================================================== *)
(** ** The further statements on the example sessions                     *)
(* ===================================================================== *)


(** A subscription to ['ticker'] outlives a request. *)
Lemma subscription_is_never_dropped_witness :
  let st1 := (step (H:=example_hmac) (Subscribe "ticker" 1)
                (quiet 1700000000250) public_session).1 in
  handlers (run (H:=example_hmac) ticker_request st1) !! "ticker" =
  handlers st1 !! "ticker".
Proof.
  intros st1.
  apply (subscription_is_never_dropped (H:=example_hmac) "ticker"
           ticker_request st1); [done|done|done|].
  repeat constructor.
Defined.


(** The socket of a private client closes before the server has greeted. *)
Lemma socket_end_settles_connect_witness :
  let st := run (H:=example_hmac) dialling (constructor credentials) in
  let ws := {| url := "wss://api.plus.cex.io/ws"; tls_rejectUnauthorized := true;
               ready := OPEN; connecting := 0; onClose := None; onError := None |} in
  let st' := (step (H:=example_hmac) (SocketClose 0 (VInt 1006))
                (quiet 1700000000200) st).1 in
  (sockets st !! 0%nat = Some ws ∧ connects st !! 0%nat = Some Pending)
  ∧ socket st' = None
  ∧ connects st' !! 0%nat = Some (Rejected (VInt 1006)).
Proof.
  intros st ws st'.
  assert (sockets st !! 0%nat = Some ws) as Hs by (vm_compute; reflexivity).
  assert (connects st !! 0%nat = Some Pending) as Hc by (vm_compute; reflexivity).
  split; [exact (conj Hs Hc)|].
  destruct (socket_end_settles_connect (H:=example_hmac) dialling credentials
              false 0 ws (VInt 1006) (quiet 1700000000200) Hs)
    as (Hsock & Hrej & _).
  exact (conj Hsock (Hrej Hc)).
Defined.

(** The transport refuses the handshake frame of a private client. *)
Lemma auth_send_failure_rejects_connect_witness :
  let st := run (H:=example_hmac) dialling (constructor credentials) in
  let err := Error "write EPIPE" in
  let st' := (on_connected (H:=example_hmac) 0 (failing 1700000000200) st).1 in
  (truthy err = true ∧ connects st !! 0%nat = Some Pending)
  ∧ connects st' !! 0%nat = Some (Rejected err)
  ∧ isAuthorized st' = false.
Proof.
  intros st err st'.
  assert (connects st !! 0%nat = Some Pending) as Hc by (vm_compute; reflexivity).
  split; [exact (conj eq_refl Hc)|].
  destruct (auth_send_failure_rejects_connect (H:=example_hmac) 0 0 "SECRET" err
              (failing 1700000000200) st eq_refl Hc) as [Hnow _].
  assert (open_socket st = Some 0%nat) as Hs by (vm_compute; reflexivity).
  exact (Hnow eq_refl Hs eq_refl eq_refl).
Defined.

(** A client made by [new WebsocketClient()] is greeted by the server. *)
Lemma handshake_without_secret_rejects_connect_witness :
  let st := run (H:=example_hmac) dialling (constructor []) in
  let st' := (on_connected (H:=example_hmac) 0 (quiet 1700000000200) st).1 in
  (isPublicClient st = false ∧ open_socket st = Some 0%nat
   ∧ connects st !! 0%nat = Some Pending)
  ∧ (∃ msg, connects st' !! 0%nat = Some (Rejected (TypeError msg)))
  ∧ frames_sent (effects st') = frames_sent (effects st).
Proof.
  intros st st'.
  assert (open_socket st = Some 0%nat) as Hs by (vm_compute; reflexivity).
  assert (connects st !! 0%nat = Some Pending) as Hc by (vm_compute; reflexivity).
  split; [exact (conj eq_refl (conj Hs Hc))|].
  destruct (handshake_without_secret_rejects_connect (H:=example_hmac) 0 0
              (quiet 1700000000200) st eq_refl Hs) as (Hrej & Hsent & _).
  - intros secret. discriminate.
  - exact Hc.
  - exact (conj Hrej Hsent).
Defined.

(** The public session: greeted, connected, never authorized. *)
Lemma public_client_connects_without_handshake_witness :
  let st := run (H:=example_hmac) dialling (constructor [ArgOptions no_options]) in
  let st' := (step (H:=example_hmac) (SocketMessage 0 (Ok connected_frame))
                (quiet 1700000000200) st).1 in
  length [ArgOptions no_options] = 1%nat
  ∧ isAuthorized st = false
  ∧ connects st' !! 0%nat = Some (Fulfilled VUndefined).
Proof.
  intros st st'. split; [reflexivity|].
  destruct (public_client_connects_without_handshake (H:=example_hmac) dialling
              [ArgOptions no_options] eq_refl) as (Hflag & _ & Hgreet).
  split; [exact Hflag|].
  assert (sockets st !! 0%nat = Some public_socket) as Hs by (vm_compute; reflexivity).
  assert (handlers st !! "connected" = Some (HConnected 0)) as Hh
    by (vm_compute; reflexivity).
  assert (connects st !! 0%nat = Some Pending) as Hc by (vm_compute; reflexivity).
  destruct (Hgreet [("e", VStr "connected")] 0%nat public_socket 0%nat
              (quiet 1700000000200) Hs eq_refl Hh Hc) as [Hdone _].
  exact Hdone.
Defined.


(** Frames of the public session that are not objects. *)
Lemma frames_that_are_not_objects_witness :
  sockets public_session !! 0%nat = Some public_socket
  ∧ (step (H:=example_hmac)
       (SocketMessage 0 (Throw (VError "SyntaxError" "Unexpected token")))
       (quiet 1700000000300) public_session).2 =
    Throw (VError "SyntaxError" "Unexpected token").
Proof.
  assert (sockets public_session !! 0%nat = Some public_socket) as Hs
    by (vm_compute; reflexivity).
  split; [exact Hs|].
  destruct (frames_that_are_not_objects (H:=example_hmac) 0 public_socket
              (quiet 1700000000300) public_session Hs) as (Hthrow & _).
  exact (f_equal snd (Hthrow (VError "SyntaxError" "Unexpected token"))).
Defined.

(** The transport refuses the ticker request; later its timer fires and the
    socket closes. *)
Lemma refused_send_leaves_promise_pending_forever_witness :
  let st := run (H:=example_hmac) opening (constructor [ArgOptions no_options]) in
  let e := failing 1700000000300 in
  let later := [(quiet 1700000030300, TimerFires 0);
                (quiet 1700000030400, SocketClose 0 (VInt 1006))] in
  (open_socket st = Some 0%nat ∧ truthy (Error "write EPIPE") = true)
  ∧ defers (run (H:=example_hmac) later
              (callRequest "get_ticker" (VObj []) e st).1)
      !! 0%nat = Some Pending.
Proof.
  intros st e later.
  assert (open_socket st = Some 0%nat) as Hs by (vm_compute; reflexivity).
  split; [exact (conj Hs eq_refl)|].
  destruct (refused_send_leaves_promise_pending_forever (H:=example_hmac)
              opening later [ArgOptions no_options] "get_ticker" (VObj []) 0
              (Error "write EPIPE") e e Hs eq_refl) as [Hnow _].
  exact (Hnow eq_refl).
Defined.


(** The id of a second request in the public session. *)
Lemma request_ids_are_never_reused_witness :
  let tr := opening ++ ticker_request in
  let st := run (H:=example_hmac) tr (constructor [ArgOptions no_options]) in
  let e := quiet 1700000000350 in
  (clock_ordered 0 (tr.*1 ++ [e]) = true ∧ now e < 2 ^ 53
   ∧ oidSeqId st + 1 < 2 ^ 53)
  ∧ obj_get (waitForResp st) (request_oid e st "get_ticker") = None.
Proof.
  intros tr st e.
  assert (clock_ordered 0 (tr.*1 ++ [e]) = true) as Hclock
    by (vm_compute; reflexivity).
  assert (now e < 2 ^ 53) as Hnow by (vm_compute; reflexivity).
  assert (oidSeqId st + 1 < 2 ^ 53) as Hseq by (vm_compute; reflexivity).
  split; [exact (conj Hclock (conj Hnow Hseq))|].
  destruct (request_ids_are_never_reused (H:=example_hmac) tr
              [ArgOptions no_options] "get_ticker" e Hclock Hnow Hseq)
    as (_ & Hfresh & _).
  exact Hfresh.
Defined.


(** A ping on the public session and the server's pong. *)
Lemma ping_does_not_wait_for_pong_witness :
  let props := [("e", VStr "pong")] in
  (open_socket public_session = Some 0%nat
   ∧ handlers public_session !! "pong" = None
   ∧ field props "e" = VStr "pong"
   ∧ truthy (field props "oid") = false)
  ∧ (step (H:=example_hmac) Ping (quiet 1700000000300) public_session).2 =
    Ok (AsyncFulfilled VUndefined).
Proof.
  intros props.
  assert (open_socket public_session = Some 0%nat) as Hs by (vm_compute; reflexivity).
  assert (handlers public_session !! "pong" = None) as Hh by (vm_compute; reflexivity).
  split; [exact (conj Hs (conj Hh (conj eq_refl eq_refl)))|].
  destruct (ping_does_not_wait_for_pong (H:=example_hmac) props 0
              (quiet 1700000000300) (quiet 1700000000400) public_session
              Hs Hh eq_refl eq_refl) as [Hping _].
  exact (f_equal snd Hping).
Defined.

(** A REST client with a limit of three requests a minute, consulted four
    times in the minute after the one it was made in. *)
Lemma rest_limiter_counts_per_minute_witness :
  let st := {| RestClient.apiKey := RestClient.ArgUndefined;
               RestClient.apiSecret := RestClient.ArgUndefined;
               RestClient.isPublicClient := false;
               RestClient.requestCounter := 2;
               RestClient.lastMinute := 28333333;
               RestClient.options :=
                 {| RestClient.log := None; RestClient.apiLimit := 3;
                    RestClient.timeout := 30000;
                    RestClient.rejectUnauthorized := true;
                    RestClient.host := "https://api.plus.cex.io/";
                    RestClient.apiUrl := "https://api.plus.cex.io/rest/";
                    RestClient.apiUrlPublic := "https://api.plus.cex.io/rest-public/" |};
               RestClient.httpsAgent :=
                 {| RestClient.agent_rejectUnauthorized := true;
                    RestClient.agent_timeout := 30000 |} |} in
  let readings := [1700000041000; 1700000042000; 1700000043000] in
  (Forall (fun now' => now' / 60000 ≤ Z.max 28333333 (1700000040000 / 60000)) readings
   ∧ consultations (1700000040000 :: readings) st !! 2%nat = Some true)
  ∧ true = bool_decide (3 ≤ 0 + Z.of_nat 2 + 1).
Proof.
  intros st readings.
  assert (Forall (fun now' => now' / 60000 ≤ Z.max 28333333 (1700000040000 / 60000))
            readings) as Hall.
  { repeat constructor; vm_compute; discriminate. }
  assert (consultations (1700000040000 :: readings) st !! 2%nat = Some true) as Hk
    by (vm_compute; reflexivity).
  split; [exact (conj Hall Hk)|].
  exact (rest_limiter_counts_per_minute 1700000040000 readings st 2 true Hall Hk).
Defined.
